(** * Anqair: the fragment decoder, the response extractor and the artifact store

    A shallow embedding of the decoding and generation pipeline of the
    application component [App], together with the data model of
    [types.ts].

    JavaScript strings are sequences of UTF-16 code units; a string ([str])
    is modelled as the list of its code units, each a number in [N].  [JSON.parse] is a
    built-in of the runtime: it is embedded here as a recursive-descent parser
    of the JSON grammar (ECMA-404), the grammar [JSON.parse] accepts. *)

From Stdlib Require Import String Ascii.
From Stdlib Require Import List NArith ZArith Bool Lia Arith.
Import ListNotations.

#[local] Set Warnings "-register-all".

Set Implicit Arguments.

Open Scope N_scope.

(** ** Strings *)

Definition str := list N.

(** The code units of a string literal (used for the constants of the source
    and for concrete inputs). *)
Definition txt (s : string) : str := map N_of_ascii (list_ascii_of_string s).

Definition LBRACE : N := 123.    (* { *)
Definition RBRACE : N := 125.    (* } *)
Definition LBRACKET : N := 91.   (* [ *)
Definition RBRACKET : N := 93.   (* ] *)
Definition QUOTE : N := 34.      (* double quote *)
Definition BACKSLASH : N := 92.
Definition COLON : N := 58.
Definition COMMA : N := 44.
Definition MINUS : N := 45.
Definition PLUS : N := 43.
Definition DOT : N := 46.
Definition BACKTICK : N := 96.

(** Concrete JSON inputs are written with an apostrophe where the text has a
    double quote. *)
Definition jtxt (s : string) : str :=
  map (fun c => if c =? 39 then QUOTE else c) (txt s).

Fixpoint str_eqb (a b : str) : bool :=
  match a, b with
  | [], [] => true
  | x :: a', y :: b' => (x =? y) && str_eqb a' b'
  | _, _ => false
  end.

(** ** JSON values *)

(** A number literal denotes the decimal [(-1)^neg * mant * 10^exp10]; the
    runtime rounds it to the nearest double. *)
Record number := mkNumber { neg : bool; mant : N; exp10 : Z }.

Inductive JSON : Type :=
| JNull
| JBool (b : bool)
| JNumber (n : number)
| JString (s : str)
| JArray (l : list JSON)
| JObject (m : list (str * JSON)).

(** ** JSON.parse *)

(** Outcome of a parsing function: a value and the unread rest of the text,
    a syntax error, or exhaustion of the recursion budget. *)
Inductive res (A : Type) : Type :=
| Ok (a : A) (rest : str)
| Err
| Fuel.
Arguments Err {A}.
Arguments Fuel {A}.

Definition map_res {A B} (f : A -> B) (r : res A) : res B :=
  match r with
  | Ok a rest => Ok (f a) rest
  | Err => Err
  | Fuel => Fuel
  end.

Definition is_ws (c : N) : bool :=
  (c =? 32) || (c =? 9) || (c =? 10) || (c =? 13).

Fixpoint skip_ws (s : str) : str :=
  match s with
  | c :: s' => if is_ws c then skip_ws s' else s
  | [] => []
  end.

Definition is_digit (c : N) : bool := (48 <=? c) && (c <=? 57).

Fixpoint span_digits (s : str) : list N * str :=
  match s with
  | c :: s' =>
      if is_digit c then let (ds, r) := span_digits s' in (c :: ds, r)
      else ([], s)
  | [] => ([], [])
  end.

Definition digits_value (ds : list N) : N :=
  fold_left (fun a d => 10 * a + (d - 48)) ds 0.

Definition is_nil {A} (l : list A) : bool :=
  match l with [] => true | _ => false end.

(** exponent part: [e] or [E], optional sign, at least one digit *)
Definition parse_exponent (ng : bool) (ids fs : list N) (s : str) : res number :=
  let m := digits_value (ids ++ fs) in
  let fl := Z.of_nat (length fs) in
  match s with
  | c :: s' =>
      if (c =? 101) || (c =? 69) then
        let '(eneg, s2) :=
          match s' with
          | x :: t => if x =? PLUS then (false, t)
                      else if x =? MINUS then (true, t) else (false, s')
          | [] => (false, s')
          end in
        let (es, s3) := span_digits s2 in
        if is_nil es then Err
        else
          let e := Z.of_N (digits_value es) in
          Ok (mkNumber ng m ((if eneg then - e else e) - fl)%Z) s3
      else Ok (mkNumber ng m (- fl)%Z) s
  | [] => Ok (mkNumber ng m (- fl)%Z) []
  end.

(** fraction part: a dot followed by at least one digit *)
Definition parse_fraction (ng : bool) (ids : list N) (s : str) : res number :=
  match s with
  | c :: s' =>
      if c =? DOT then
        let (fs, s2) := span_digits s' in
        if is_nil fs then Err else parse_exponent ng ids fs s2
      else parse_exponent ng ids [] s
  | [] => parse_exponent ng ids [] s
  end.

(** integer part: a single 0, or a non-zero digit followed by digits *)
Definition parse_int (ng : bool) (s : str) : res number :=
  match s with
  | c :: s' =>
      if c =? 48 then parse_fraction ng [c] s'
      else if is_digit c then
        let (ds, s2) := span_digits s in parse_fraction ng ds s2
      else Err
  | [] => Err
  end.

Definition parse_number (s : str) : res number :=
  match s with
  | c :: s' => if c =? MINUS then parse_int true s' else parse_int false s
  | [] => Err
  end.

Definition hex_val (c : N) : option N :=
  if is_digit c then Some (c - 48)
  else if (65 <=? c) && (c <=? 70) then Some (c - 55)
  else if (97 <=? c) && (c <=? 102) then Some (c - 87)
  else None.

(** the character denoted by a one-letter escape *)
Definition escape_char (e : N) : option N :=
  if e =? QUOTE then Some QUOTE
  else if e =? BACKSLASH then Some BACKSLASH
  else if e =? 47 then Some 47          (* \/ *)
  else if e =? 98 then Some 8           (* \b *)
  else if e =? 102 then Some 12         (* \f *)
  else if e =? 110 then Some 10         (* \n *)
  else if e =? 114 then Some 13         (* \r *)
  else if e =? 116 then Some 9          (* \t *)
  else None.

Definition cons_res (c : N) (r : res str) : res str :=
  map_res (cons c) r.

(** the characters of a string literal, after its opening quote *)
Fixpoint parse_chars (s : str) : res str :=
  match s with
  | [] => Err
  | c :: s' =>
      if c =? QUOTE then Ok [] s'
      else if c =? BACKSLASH then
        match s' with
        | [] => Err
        | e :: s'' =>
            if e =? 117 then
              match s'' with
              | h1 :: h2 :: h3 :: h4 :: s4 =>
                  match hex_val h1, hex_val h2, hex_val h3, hex_val h4 with
                  | Some a, Some b, Some c', Some d =>
                      cons_res (4096 * a + 256 * b + 16 * c' + d) (parse_chars s4)
                  | _, _, _, _ => Err
                  end
              | _ => Err
              end
            else
              match escape_char e with
              | Some x => cons_res x (parse_chars s'')
              | None => Err
              end
        end
      else if c <? 32 then Err
      else cons_res c (parse_chars s')
  end.

(** [expect w s]: the rest of [s] after the prefix [w], if [s] starts with it *)
Fixpoint expect (w s : str) : option str :=
  match w, s with
  | [], _ => Some s
  | x :: w', y :: s' => if x =? y then expect w' s' else None
  | _ :: _, [] => None
  end.

Definition parse_literal (w : str) (v : JSON) (s : str) : res JSON :=
  match expect w s with
  | Some rest => Ok v rest
  | None => Err
  end.

Fixpoint parse_value (n : nat) (s : str) {struct n} : res JSON :=
  match n with
  | O => Fuel
  | S n' =>
      match s with
      | [] => Err
      | c :: s' =>
          if c =? LBRACE then
            match skip_ws s' with
            | [] => Err
            | c1 :: s2 =>
                if c1 =? RBRACE then Ok (JObject []) s2
                else map_res JObject (parse_members n' (c1 :: s2))
            end
          else if c =? LBRACKET then
            match skip_ws s' with
            | [] => Err
            | c1 :: s2 =>
                if c1 =? RBRACKET then Ok (JArray []) s2
                else map_res JArray (parse_elements n' (c1 :: s2))
            end
          else if c =? QUOTE then map_res JString (parse_chars s')
          else if c =? 116 then parse_literal (txt "true") (JBool true) s
          else if c =? 102 then parse_literal (txt "false") (JBool false) s
          else if c =? 110 then parse_literal (txt "null") JNull s
          else map_res JNumber (parse_number s)
      end
  end

with parse_members (n : nat) (s : str) {struct n} : res (list (str * JSON)) :=
  match n with
  | O => Fuel
  | S n' =>
      match s with
      | [] => Err
      | c :: s' =>
          if c =? QUOTE then
            match parse_chars s' with
            | Ok k s1 =>
                match skip_ws s1 with
                | [] => Err
                | c2 :: s2 =>
                    if c2 =? COLON then
                      match parse_value n' (skip_ws s2) with
                      | Ok v s3 =>
                          match skip_ws s3 with
                          | [] => Err
                          | c4 :: s4 =>
                              if c4 =? COMMA then
                                map_res (cons (k, v)) (parse_members n' (skip_ws s4))
                              else if c4 =? RBRACE then Ok [(k, v)] s4
                              else Err
                          end
                      | Err => Err
                      | Fuel => Fuel
                      end
                    else Err
                end
            | _ => Err
            end
          else Err
      end
  end

with parse_elements (n : nat) (s : str) {struct n} : res (list JSON) :=
  match n with
  | O => Fuel
  | S n' =>
      match parse_value n' s with
      | Ok v s3 =>
          match skip_ws s3 with
          | [] => Err
          | c4 :: s4 =>
              if c4 =? COMMA then
                map_res (cons v) (parse_elements n' (skip_ws s4))
              else if c4 =? RBRACKET then Ok [v] s4
              else Err
          end
      | Err => Err
      | Fuel => Fuel
      end
  end.

(** The recursion budget of [JSON_parse]: every nested call of the parser is
    made after at least one more character has been read (a call for the
    first element of an array after its bracket), see [parse_fuel_enough]. *)
Definition parse_fuel (s : str) : nat := 2 * length s + 3.

(** [JSON.parse(s)]: [None] stands for the [SyntaxError] it throws. *)
Definition JSON_parse (s : str) : option JSON :=
  let s0 := skip_ws s in
  match parse_value (parse_fuel s0) s0 with
  | Ok v rest => if is_nil (skip_ws rest) then Some v else None
  | _ => None
  end.

(** ** String operations of the runtime used by the source *)

Fixpoint index_of (c : N) (l : str) (i : nat) : option nat :=
  match l with
  | [] => None
  | x :: l' => if x =? c then Some i else index_of c l' (S i)
  end.

(** [s.indexOf(c, from)] for a one-character search string; [None] is -1 *)
Definition indexOf (c : N) (s : str) (from : nat) : option nat :=
  index_of c (skipn from s) from.

(** [s.substring(a, b)] *)
Definition substring (s : str) (a b : nat) : str :=
  firstn (Nat.max a b - Nat.min a b) (skipn (Nat.min a b) s).

Fixpoint startsWith (p s : str) : bool :=
  match p, s with
  | [], _ => true
  | x :: p', y :: s' => (x =? y) && startsWith p' s'
  | _ :: _, [] => false
  end.

Definition endsWith (p s : str) : bool := startsWith (rev p) (rev s).

(** WhiteSpace and LineTerminator code units, as removed by [trim] *)
Definition is_js_space (c : N) : bool :=
  ((9 <=? c) && (c <=? 13)) || (c =? 32) || (c =? 160) || (c =? 5760)
  || ((8192 <=? c) && (c <=? 8202)) || (c =? 8232) || (c =? 8233)
  || (c =? 8239) || (c =? 8287) || (c =? 12288) || (c =? 65279).

Fixpoint trimStart (s : str) : str :=
  match s with
  | c :: s' => if is_js_space c then trimStart s' else s
  | [] => []
  end.

Definition trimEnd (s : str) : str := rev (trimStart (rev s)).

Definition trim (s : str) : str := trimEnd (trimStart s).

(** ** The fragment decoder: parseJsonStream *)

(** A chunk of the response stream; [text] is [None] when [chunk.text] is not
    a string. *)
Record chunk := mkChunk { text : option str }.

(** The inner [for] loop: from position [i] (the head of [l]) on, with the
    running [braceCount]; the first position after [start] where the count
    is back to zero. *)
Fixpoint scan (l : str) (i start : nat) (braceCount : Z) : option nat :=
  match l with
  | [] => None
  | c :: l' =>
      let braceCount :=
        if c =? LBRACE then (braceCount + 1)%Z
        else if c =? RBRACE then (braceCount - 1)%Z
        else braceCount in
      if (braceCount =? 0)%Z && (start <? i)%nat then Some i
      else scan l' (S i) start braceCount
  end.

Definition find_end (buffer : str) (start : nat) : option nat :=
  scan (skipn start buffer) start start 0%Z.

(** The [while (start !== -1)] loop.  Every iteration either shortens the
    buffer or moves [start] forward, so [length buffer - start + 1]
    iterations are enough ([drain_total]); [None] is an exhausted budget.
    The result is the list of the values yielded and the buffer left. *)
Fixpoint drain (fuel : nat) (buffer : str) (start : option nat)
  : option (list JSON * str) :=
  match start with
  | None => Some ([], buffer)
  | Some st =>
      match fuel with
      | O => None
      | S fuel' =>
          match find_end buffer st with
          | None => Some ([], buffer)
          | Some e =>
              let jsonString := substring buffer st (e + 1) in
              match JSON_parse jsonString with
              | Some v =>
                  let buffer' := skipn (e + 1) buffer in
                  match drain fuel' buffer' (indexOf LBRACE buffer' 0) with
                  | Some (vs, b) => Some (v :: vs, b)
                  | None => None
                  end
              | None => drain fuel' buffer (indexOf LBRACE buffer (st + 1))
              end
          end
      end
  end.

(** One iteration of the [for await] loop: the values yielded on the
    arrival of a chunk and the new buffer. *)
Definition feed (buffer : str) (c : chunk) : option (list JSON * str) :=
  match text c with
  | None => Some ([], buffer)
  | Some t =>
      let buffer := buffer ++ t in
      drain (S (length buffer)) buffer (indexOf LBRACE buffer 0)
  end.

Fixpoint decode (buffer : str) (responseStream : list chunk)
  : option (list JSON * str) :=
  match responseStream with
  | [] => Some ([], buffer)
  | c :: rest =>
      match feed buffer c with
      | Some (vs, b) =>
          match decode b rest with
          | Some (ws, b') => Some (vs ++ ws, b')
          | None => None
          end
      | None => None
      end
  end.

(** The sequence of values the generator yields over a stream of chunks.
    Nothing is done when the stream ends: the buffer is dropped. *)
Definition parseJsonStream (responseStream : list chunk) : option (list JSON) :=
  match decode [] responseStream with
  | Some (vs, _) => Some vs
  | None => None
  end.

(** The text carried by a stream: the concatenation of its string chunks. *)
Fixpoint stream_text (responseStream : list chunk) : str :=
  match responseStream with
  | [] => []
  | c :: rest =>
      match text c with
      | Some t => t ++ stream_text rest
      | None => stream_text rest
      end
  end.

(** ** The response extractor: extractJson *)

Fixpoint find_sub (p s : str) (i : nat) : option nat :=
  match s with
  | [] => if is_nil p then Some i else None
  | _ :: s' => if startsWith p s then Some i else find_sub p s' (S i)
  end.

Fixpoint last_index_of (c : N) (l : str) (i : nat) (found : option nat) : option nat :=
  match l with
  | [] => found
  | x :: l' => last_index_of c l' (S i) (if x =? c then Some i else found)
  end.

Definition FENCE : str := [BACKTICK; BACKTICK; BACKTICK].
Definition FENCE_JSON : str := FENCE ++ txt "json".

(** The first [text.match], whose pattern is the marker of a json code
    fence, a lazy group of any characters and three backticks: it matches
    from the leftmost opening marker to the first closing marker after it.
    The result is the pair of the whole match and of the group,
    [(match[0], match[1])]. *)
Definition match_fence (t : str) : option (str * str) :=
  match find_sub FENCE_JSON t 0 with
  | None => None
  | Some p =>
      let after := skipn (p + 7) t in
      match find_sub FENCE after 0 with
      | None => None
      | Some q => Some (firstn (7 + q + 3) (skipn p t), firstn q after)
      end
  end.

(** The second [text.match], whose pattern is an opening bracket, a greedy
    group of any characters and a closing bracket: it matches from the
    leftmost opening bracket to the last closing bracket of the text. *)
Definition match_array (t : str) : option (str * str) :=
  match indexOf LBRACKET t 0 with
  | None => None
  | Some p =>
      let after := skipn (p + 1) t in
      match last_index_of RBRACKET after 0 None with
      | None => None
      | Some q => Some (firstn (q + 2) (skipn p t), firstn q after)
      end
  end.

(** [a || b] on strings: the empty string is falsy *)
Definition str_or (a b : str) : str := if is_nil a then b else a.

(** The value returned is a JSON value, [JNull] being JavaScript's [null]. *)
Definition extractJson (t : str) : JSON :=
  match JSON_parse t with
  | Some v => v
  | None =>
      let m :=
        match match_fence t with
        | Some m => Some m
        | None => match_array t
        end in
      match m with
      | Some (m0, m1) =>
          match JSON_parse (str_or m1 m0) with
          | Some v => v
          | None => JNull
          end
      | None => JNull
      end
  end.

(** ** The data model (types.ts) *)

Inductive Status : Type := streaming | complete | error.

Definition Status_eqb (a b : Status) : bool :=
  match a, b with
  | streaming, streaming | complete, complete | error, error => true
  | _, _ => false
  end.

(** [styleName] is [None] for the [undefined] an updater writes when it
    reads past the end of the labels. *)
Module Artifact.
Record t := mk { id : str; styleName : option str; html : str; status : Status }.
End Artifact.

Module Session.
Record t := mk {
  id : str;
  prompt : str;
  userAnswers : list (str * str);
  timestamp : N;
  artifacts : list Artifact.t
}.
End Session.

(** ** The artifact store: the updaters passed to setSessions *)

Fixpoint mapi {A B} (f : nat -> A -> B) (i : nat) (l : list A) : list B :=
  match l with
  | [] => []
  | x :: l' => f i x :: mapi f (S i) l'
  end.

Definition with_artifacts (sess : Session.t) (arts : list Artifact.t) : Session.t :=
  Session.mk (Session.id sess) (Session.prompt sess) (Session.userAnswers sess)
             (Session.timestamp sess) arts.

Definition with_styleName (art : Artifact.t) (l : option str) : Artifact.t :=
  Artifact.mk (Artifact.id art) l (Artifact.html art) (Artifact.status art).

Definition with_html (art : Artifact.t) (h : str) : Artifact.t :=
  Artifact.mk (Artifact.id art) (Artifact.styleName art) h (Artifact.status art).

Definition with_html_status (art : Artifact.t) (h : str) (st : Status) : Artifact.t :=
  Artifact.mk (Artifact.id art) (Artifact.styleName art) h st.

Definition ERROR_PLACEHOLDER : str :=
  jtxt "<div style='padding:20px; color:red'>Generation Failed</div>".

(** The updaters, each with the values it closes over. *)
Inductive update : Type :=
| AppendSession (newSession : Session.t)
| ApplyStyles (sessionId : str) (generatedStyles : list str)
| UpdateHtml (sessionId artifactId : str) (accumulatedHtml : str)
| Finalize (sessionId artifactId : str) (finalHtml : str)
| Fail (sessionId artifactId : str)
| ApplyVariation (currentSessionIndex : Z) (focusedArtifactIndex : option nat)
                 (html : str).

(** the change an updater keyed by artifact id makes to the matching artifact *)
Definition on_artifact (artifactId : str) (f : Artifact.t -> Artifact.t)
  (art : Artifact.t) : Artifact.t :=
  if str_eqb (Artifact.id art) artifactId then f art else art.

Definition on_session (sessionId : str) (f : Artifact.t -> Artifact.t)
  (sess : Session.t) : Session.t :=
  if str_eqb (Session.id sess) sessionId
  then with_artifacts sess (map f (Session.artifacts sess))
  else sess.

Definition apply_update (u : update) (prev : list Session.t) : list Session.t :=
  match u with
  | AppendSession newSession => prev ++ [newSession]
  | ApplyStyles sessionId generatedStyles =>
      map (fun s =>
             if negb (str_eqb (Session.id s) sessionId) then s
             else with_artifacts s
                    (mapi (fun i art => with_styleName art (nth_error generatedStyles i))
                          0 (Session.artifacts s)))
          prev
  | UpdateHtml sessionId artifactId accumulatedHtml =>
      map (on_session sessionId
             (on_artifact artifactId (fun art => with_html art accumulatedHtml)))
          prev
  | Finalize sessionId artifactId finalHtml =>
      map (on_session sessionId
             (on_artifact artifactId
                (fun art => with_html_status art finalHtml
                              (if is_nil finalHtml then error else complete))))
          prev
  | Fail sessionId artifactId =>
      map (on_session sessionId
             (on_artifact artifactId
                (fun art => with_html_status art ERROR_PLACEHOLDER error)))
          prev
  | ApplyVariation currentSessionIndex focusedArtifactIndex html =>
      match focusedArtifactIndex with
      | None => prev
      | Some fi =>
          mapi (fun i sess =>
                  if (Z.of_nat i =? currentSessionIndex)%Z
                  then with_artifacts sess
                         (mapi (fun j art =>
                                  if (j =? fi)%nat
                                  then with_html_status art html complete
                                  else art)
                               0 (Session.artifacts sess))
                  else sess)
               0 prev
      end
  end.

Definition run (us : list update) (prev : list Session.t) : list Session.t :=
  fold_left (fun st u => apply_update u st) us prev.

(** ** startGeneration: session creation and the planning step *)

(** the artifact ids [sessionId_0], [sessionId_1], [sessionId_2] *)
Definition artifact_id (sessionId : str) (i : nat) : str :=
  sessionId ++ [95; 48 + N.of_nat i].

Definition placeholderArtifacts (sessionId : str) : list Artifact.t :=
  map (fun i => Artifact.mk (artifact_id sessionId i) (Some (txt "Designing..."))
                            [] streaming)
      [0%nat; 1%nat; 2%nat].

Definition newSession (sessionId basePrompt : str) (answers : list (str * str))
  (baseTime : N) : Session.t :=
  Session.mk sessionId basePrompt answers baseTime (placeholderArtifacts sessionId).

Definition FALLBACK_STYLES : list str :=
  [txt "Modern Clean"; txt "Futuristic Dark"; txt "Spatial Depth"].

(** The two statements after the planning call, on the array
    [generatedStyles] (of declared type [string[]]). *)
Definition planStyles (generatedStyles : list str) : list str :=
  let generatedStyles :=
    if (length generatedStyles <? 3)%nat then FALLBACK_STYLES else generatedStyles in
  firstn 3 generatedStyles.

(** ** generateArtifact: one generation task *)

Inductive ending : Type := Completed | Thrown.

(** the updates made while the fragments arrive *)
Fixpoint stream_updates (sessionId artifactId : str) (accumulatedHtml : str)
  (chunks : list chunk) : list update * str :=
  match chunks with
  | [] => ([], accumulatedHtml)
  | c :: rest =>
      match text c with
      | Some t =>
          let accumulatedHtml := accumulatedHtml ++ t in
          let (us, acc) := stream_updates sessionId artifactId accumulatedHtml rest in
          (UpdateHtml sessionId artifactId accumulatedHtml :: us, acc)
      | None => stream_updates sessionId artifactId accumulatedHtml rest
      end
  end.

(** the cleanup of the accumulated text after the stream has ended *)
Definition cleanup (accumulatedHtml : str) : str :=
  let finalHtml := trim accumulatedHtml in
  let finalHtml :=
    if startsWith (FENCE ++ txt "html") finalHtml
    then trimStart (skipn 7 finalHtml) else finalHtml in
  let finalHtml :=
    if startsWith FENCE finalHtml
    then trimStart (skipn 3 finalHtml) else finalHtml in
  if endsWith FENCE finalHtml
  then trimEnd (substring finalHtml 0 (length finalHtml - 3)) else finalHtml.

(** The updates of one task, in order: the stream delivers [chunks] and then
    either ends or throws. *)
Definition generateArtifact (sessionId artifactId : str) (chunks : list chunk)
  (e : ending) : list update :=
  let (us, accumulatedHtml) := stream_updates sessionId artifactId [] chunks in
  match e with
  | Completed => us ++ [Finalize sessionId artifactId (cleanup accumulatedHtml)]
  | Thrown => us ++ [Fail sessionId artifactId]
  end.

(** Interleavings of the updates of concurrent tasks. *)
Inductive merge {A : Type} : list A -> list A -> list A -> Prop :=
| merge_nil : merge [] [] []
| merge_left x l1 l2 l : merge l1 l2 l -> merge (x :: l1) l2 (x :: l)
| merge_right x l1 l2 l : merge l1 l2 l -> merge l1 (x :: l2) (x :: l).

(** ** handleGenerateVariations: the loop over the decoded values *)

(** the last member named [key] of an object ([JSON.parse] keeps the last of
    duplicate names) *)
Definition lookup (key : str) (m : list (str * JSON)) : option JSON :=
  fold_left (fun found kv => if str_eqb (fst kv) key then Some (snd kv) else found)
            m None.

(** [v.key] for a key that no prototype defines ([name], [html]): [None]
    is the [TypeError] of a property access on [null], [Some None] is
    [undefined]. *)
Definition get (v : JSON) (key : str) : option (option JSON) :=
  match v with
  | JNull => None
  | JObject m => Some (lookup key m)
  | _ => Some None
  end.

(** A number literal is rounded to the nearest double, ties to even: it is
    zero when its mantissa is, or when it is at most 2^-1075. *)
Definition number_is_zero (n : number) : bool :=
  (mant n =? 0)
  || ((exp10 n <? 0)%Z
      && (Z.of_N (mant n) * 2 ^ 1075 <=? 10 ^ (- exp10 n))%Z).

Definition truthy (v : option JSON) : bool :=
  match v with
  | None => false
  | Some JNull => false
  | Some (JBool b) => b
  | Some (JNumber n) => negb (number_is_zero n)
  | Some (JString s) => negb (is_nil s)
  | Some (JArray _) => true
  | Some (JObject _) => true
  end.

(** [variation.name && variation.html] as a condition *)
Definition keeps (variation : JSON) : option bool :=
  match get variation (txt "name") with
  | None => None
  | Some nm =>
      if truthy nm then
        match get variation (txt "html") with
        | None => None
        | Some h => Some (truthy h)
        end
      else Some false
  end.

(** the body of the [for await] loop over the decoded values; an exception
    leaves the loop with the list as it is *)
Fixpoint collect (variations : list JSON) (componentVariations : list JSON)
  : list JSON :=
  match variations with
  | [] => componentVariations
  | variation :: rest =>
      match keeps variation with
      | None => componentVariations
      | Some true => collect rest (componentVariations ++ [variation])
      | Some false => collect rest componentVariations
      end
  end.

(** The variations list after the loop, from the chunks the stream delivered
    ([setComponentVariations([])] precedes the loop). *)
Definition handleGenerateVariations (responseStream : list chunk)
  : option (list JSON) :=
  match parseJsonStream responseStream with
  | Some variations => Some (collect variations [])
  | None => None
  end.

(** ** The interface state: style tags, navigation, placeholders *)

(** [toggleStyle]: the updater of the selected style tags *)
Definition toggleStyle (style : str) (prev : list str) : list str :=
  if existsb (str_eqb style) prev
  then filter (fun s => negb (str_eqb s style)) prev
  else prev ++ [style].

(** The two pointers of the navigation; [focusedArtifactIndex] is [None]
    for [null]. *)
Module Nav.
Record t := mk { currentSessionIndex : Z; focusedArtifactIndex : option Z }.
End Nav.

(** [sessions[i]] *)
Definition sessionAt (sessions : list Session.t) (i : Z) : option Session.t :=
  if (i <? 0)%Z then None else nth_error sessions (Z.to_nat i).

Definition nextItem (sessions : list Session.t) (st : Nav.t) : Nav.t :=
  match Nav.focusedArtifactIndex st with
  | Some focused =>
      if (focused <? 2)%Z
      then Nav.mk (Nav.currentSessionIndex st) (Some (focused + 1)%Z)
      else st
  | None =>
      if (Nav.currentSessionIndex st <? Z.of_nat (length sessions) - 1)%Z
      then Nav.mk (Nav.currentSessionIndex st + 1)%Z None
      else st
  end.

Definition prevItem (st : Nav.t) : Nav.t :=
  match Nav.focusedArtifactIndex st with
  | Some focused =>
      if (0 <? focused)%Z
      then Nav.mk (Nav.currentSessionIndex st) (Some (focused - 1)%Z)
      else st
  | None =>
      if (0 <? Nav.currentSessionIndex st)%Z
      then Nav.mk (Nav.currentSessionIndex st - 1)%Z None
      else st
  end.

Definition hasStarted (sessions : list Session.t) (isLoading : bool) : bool :=
  (0 <? length sessions)%nat || isLoading.

Definition canGoBack (sessions : list Session.t) (isLoading : bool) (st : Nav.t)
  : bool :=
  if hasStarted sessions isLoading then
    match Nav.focusedArtifactIndex st with
    | Some focused => (0 <? focused)%Z
    | None => (0 <? Nav.currentSessionIndex st)%Z
    end
  else false.

Definition canGoForward (sessions : list Session.t) (isLoading : bool) (st : Nav.t)
  : bool :=
  if hasStarted sessions isLoading then
    match Nav.focusedArtifactIndex st with
    | Some focused =>
        let n :=
          match sessionAt sessions (Nav.currentSessionIndex st) with
          | Some currentSession => length (Session.artifacts currentSession)
          | None => 0%nat
          end in
        (focused <? Z.of_nat n - 1)%Z
    | None => (Nav.currentSessionIndex st <? Z.of_nat (length sessions) - 1)%Z
    end
  else false.

(** The updater of the placeholder index, run by the timer: the remainder of
    [prev + 1] by the number of placeholders; [None] is [NaN]. *)
Definition nextPlaceholderIndex (placeholders_length : N) (prev : option N)
  : option N :=
  match prev with
  | Some p =>
      if placeholders_length =? 0 then None
      else Some ((p + 1) mod placeholders_length)
  | None => None
  end.

(** ** handleInitialSubmit: the clarification step *)

(** the clarification call: its response, with the text it carries if any,
    or an exception *)
Inductive response : Type :=
| Responded (responseText : option str)
| Failed.

(** what a submission leads to: nothing, the questionnaire, or the
    generation *)
Inductive submission : Type :=
| Ignored
| Clarify (pendingPrompt : str) (refinementQuestions : list JSON)
| Generate (basePrompt : str).

Definition handleInitialSubmit (manualPrompt : option str) (inputValue : str)
  (isLoading : bool) (r : response) : submission :=
  let promptToUse :=
    match manualPrompt with
    | Some m => str_or m inputValue
    | None => inputValue
    end in
  let trimmedInput := trim promptToUse in
  if is_nil trimmedInput || isLoading then Ignored
  else
    match r with
    | Failed => Generate trimmedInput
    | Responded responseText =>
        let t := match responseText with Some x => x | None => [] end in
        match extractJson (str_or t (txt "[]")) with
        | JArray (q :: questions) => Clarify trimmedInput (q :: questions)
        | _ => Generate trimmedInput
        end
    end.

(** * Vocabulary of the properties *)

(** ** Braces *)

Definition is_brace (c : N) : bool := (c =? LBRACE) || (c =? RBRACE).

(** no brace character in a string *)
Definition nobrace (s : str) : bool := forallb (fun c => negb (is_brace c)) s.

(** no brace character in any member name or string value *)
Fixpoint brace_free (v : JSON) : bool :=
  match v with
  | JString s => nobrace s
  | JArray l => forallb brace_free l
  | JObject m =>
      forallb (fun kv : str * JSON => let (k, x) := kv in nobrace k && brace_free x)
              m
  | _ => true
  end.

(** [bal d s]: the nesting depth after [s], entered at depth [d], when no
    closing brace of [s] is unmatched *)
Fixpoint bal (d : nat) (s : str) : option nat :=
  match s with
  | [] => Some d
  | c :: s' =>
      if c =? LBRACE then bal (S d) s'
      else if c =? RBRACE then
        match d with
        | O => None
        | S d' => bal d' s'
        end
      else bal d s'
  end.

Ltac chars :=
  unfold is_ws, is_digit, is_brace, is_js_space, escape_char, hex_val,
    LBRACE, RBRACE, LBRACKET, RBRACKET, QUOTE, BACKSLASH, COLON, COMMA,
    MINUS, PLUS, DOT, BACKTICK in *.

Ltac btac :=
  repeat match goal with
    | H : _ && _ = true |- _ => apply andb_true_iff in H; destruct H
    | H : _ || _ = false |- _ => apply orb_false_iff in H; destruct H
    | H : negb _ = true |- _ => apply negb_true_iff in H
    | H : negb _ = false |- _ => apply negb_false_iff in H
    | H : (_ =? _) = true |- _ => apply N.eqb_eq in H
    | H : (_ =? _) = false |- _ => apply N.eqb_neq in H
    | H : (_ <=? _) = true |- _ => apply N.leb_le in H
    | H : (_ <=? _) = false |- _ => apply N.leb_gt in H
    | H : (_ <? _) = true |- _ => apply N.ltb_lt in H
    | H : (_ <? _) = false |- _ => apply N.ltb_ge in H
    end.

(** [reads s rest]: [rest] is what is left of [s] after a non-empty prefix
    without braces *)
Definition reads (s rest : str) : Prop :=
  exists c, s = c ++ rest /\ c <> [] /\ nobrace c = true.

Definition balanced (c : str) : Prop := bal 0 c = Some 0%nat.

Definition members_free (m : list (str * JSON)) : bool :=
  forallb (fun kv : str * JSON => let (k, x) := kv in nobrace k && brace_free x) m.

(** What a successful call of each of the three mutually recursive parsing
    functions has read: a non-empty prefix of its input, balanced in its
    braces when the value has no brace in a string; an object is read from
    its opening brace to its closing brace. *)
Definition value_reads (s : str) (v : JSON) (rest : str) : Prop :=
  exists c, s = c ++ rest /\ c <> [] /\
    (brace_free v = true -> balanced c) /\
    (hd_error s = Some LBRACE ->
       (exists m, v = JObject m) /\
       exists c', c = LBRACE :: c' ++ [RBRACE] /\ (brace_free v = true -> balanced c')).

Definition members_read (s : str) (m : list (str * JSON)) (rest : str) : Prop :=
  exists c, s = c ++ RBRACE :: rest /\ (members_free m = true -> balanced c).

Definition elements_read (s : str) (l : list JSON) (rest : str) : Prop :=
  exists c, s = c ++ RBRACKET :: rest /\ c <> [] /\
    (forallb brace_free l = true -> balanced c).

(** a text that starts with an opening brace and ends with a closing brace *)
Definition wrapped (o : str) : bool := (hd 0 o =? LBRACE) && (last o 0 =? RBRACE).

(** An opening brace that is never closed: no closing brace of [p] is
    unmatched. *)
Definition unclosed (p : str) : bool :=
  match bal 0 p with Some _ => true | None => false end.

(** ** The loop of the decoder *)

(** [Drain buffer start vs buffer']: from the loop state [(buffer, start)]
    the [while] loop yields [vs] and exits with [buffer']. *)
Inductive Drain : str -> option nat -> list JSON -> str -> Prop :=
| Drain_exit buffer :
    Drain buffer None [] buffer
| Drain_break buffer st :
    find_end buffer st = None ->
    Drain buffer (Some st) [] buffer
| Drain_yield buffer st e v vs buffer' :
    find_end buffer st = Some e ->
    JSON_parse (substring buffer st (e + 1)) = Some v ->
    Drain (skipn (e + 1) buffer) (indexOf LBRACE (skipn (e + 1) buffer) 0) vs buffer' ->
    Drain buffer (Some st) (v :: vs) buffer'
| Drain_skip buffer st e vs buffer' :
    find_end buffer st = Some e ->
    JSON_parse (substring buffer st (e + 1)) = None ->
    Drain buffer (indexOf LBRACE buffer (st + 1)) vs buffer' ->
    Drain buffer (Some st) vs buffer'.

(** [Retried buffer start]: the loop, entered on [buffer] at its first
    opening brace, reaches [start] through failed parses only. *)
Inductive Retried (buffer : str) : option nat -> Prop :=
| Retried_first : Retried buffer (indexOf LBRACE buffer 0)
| Retried_next st e :
    Retried buffer (Some st) ->
    find_end buffer st = Some e ->
    JSON_parse (substring buffer st (e + 1)) = None ->
    Retried buffer (indexOf LBRACE buffer (st + 1)).

(** A well-formed object for the scanner: its text parses, runs from an
    opening brace to a closing brace, and no member name or string value of
    it contains a brace. *)
Definition good (o : str) (v : JSON) : Prop :=
  JSON_parse o = Some v /\ wrapped o = true /\ brace_free v = true.

(** Every opening brace of [m] is closed in [m]: none of them is followed
    by a text that leaves it open. *)
Fixpoint all_closed (m : str) : bool :=
  match m with
  | [] => true
  | c :: m' =>
      (if c =? LBRACE then negb (unclosed m') else true) && all_closed m'
  end.

(** The span the scanner delimits from an opening brace at position [st]
    of [m]: up to the closing brace that brings the count back to zero. *)
Definition span_at (m : str) (st : nat) : option str :=
  if nth st m 0 =? LBRACE then
    match find_end m st with
    | Some e => Some (substring m st (e + 1))
    | None => None
    end
  else None.

(** none of the spans the scanner delimits in [m] is valid JSON *)
Definition no_valid_span (m : str) : bool :=
  forallb (fun st =>
             match span_at m st with
             | Some jsonString =>
                 match JSON_parse jsonString with
                 | Some _ => false
                 | None => true
                 end
             | None => true
             end)
          (seq 0 (length m)).

(** ** The extractor and the store *)

Definition parse_or_null (s : str) : JSON :=
  match JSON_parse s with
  | Some v => v
  | None => JNull
  end.

Definition artifact_at (st : list Session.t) (i j : nat) : option Artifact.t :=
  match nth_error st i with
  | Some sess => nth_error (Session.artifacts sess) j
  | None => None
  end.

Definition status_at (st : list Session.t) (i j : nat) : option Status :=
  option_map Artifact.status (artifact_at st i j).

(** the updaters keyed by session id and artifact id *)
Definition keyed (u : update) : bool :=
  match u with
  | UpdateHtml _ _ _ | Finalize _ _ _ | Fail _ _ => true
  | _ => false
  end.

(** what a keyed updater does to an artifact of a session of id [sid] *)
Definition art_step (sid : str) (art : Artifact.t) (u : update) : Artifact.t :=
  match u with
  | UpdateHtml sessionId artifactId accumulatedHtml =>
      if str_eqb sid sessionId
      then on_artifact artifactId (fun art => with_html art accumulatedHtml) art
      else art
  | Finalize sessionId artifactId finalHtml =>
      if str_eqb sid sessionId
      then on_artifact artifactId
             (fun art => with_html_status art finalHtml
                           (if is_nil finalHtml then error else complete)) art
      else art
  | Fail sessionId artifactId =>
      if str_eqb sid sessionId
      then on_artifact artifactId
             (fun art => with_html_status art ERROR_PLACEHOLDER error) art
      else art
  | _ => art
  end.

(** The state of its artifact after a task has run alone on it. *)
Definition outcome (art : Artifact.t) (chunks : list chunk) (e : ending) : Artifact.t :=
  match e with
  | Completed =>
      let finalHtml := cleanup (stream_text chunks) in
      Artifact.mk (Artifact.id art) (Artifact.styleName art) finalHtml
                  (if is_nil finalHtml then error else complete)
  | Thrown =>
      Artifact.mk (Artifact.id art) (Artifact.styleName art) ERROR_PLACEHOLDER error
  end.

(** a round-robin interleaving, for concrete runs *)
Fixpoint alternate {A} (l1 l2 : list A) : list A :=
  match l1, l2 with
  | x :: l1', y :: l2' => x :: y :: alternate l1' l2'
  | [], _ => l2
  | _, [] => l1
  end.

(** the transitions the invariant of C3 allows *)
Definition allowed_transition (before after : Status) : bool :=
  Status_eqb before after || Status_eqb before streaming.

(** ** The variation flow and the cleanup *)

Definition is_object (v : JSON) : Prop := exists m, v = JObject m.

(** [v.key] is truthy *)
Definition field_truthy (v : JSON) (key : str) : bool :=
  match get v key with
  | Some x => truthy x
  | None => false
  end.

Definition kept (v : JSON) : bool :=
  field_truthy v (txt "name") && field_truthy v (txt "html").

Definition all_space (w : str) : bool := forallb is_js_space w.

(** a text that starts with a character that is neither white space nor a
    backtick, and ends with a character that is not white space *)
Definition tight_body (body : str) : bool :=
  match body with
  | c :: _ =>
      negb (is_js_space c) && negb (c =? BACKTICK)
      && negb (is_js_space (last body 0))
  | [] => false
  end.

(** ** The properties of the other functions *)

(** [Spans b vs]: the values [vs] are the values of spans of [b] that run
    from an opening brace to a closing brace, one after the other in [b]. *)
Inductive Spans : str -> list JSON -> Prop :=
| Spans_nil b : Spans b []
| Spans_cons pre span rest v vs :
    JSON_parse span = Some v -> wrapped span = true -> Spans rest vs ->
    Spans (pre ++ span ++ rest) (v :: vs).

(** no opening brace in a text *)
Definition no_open (j : str) : bool := forallb (fun c => negb (c =? LBRACE)) j.

(** a text that starts with [j0] and goes on with objects, each followed by
    some text *)
Definition noisy_text (j0 : str) (items : list (str * str)) : str :=
  j0 ++ concat (map (fun oj : str * str => fst oj ++ snd oj) items).

(** no backtick in a text *)
Definition no_tick (s : str) : bool := forallb (fun c => negb (c =? BACKTICK)) s.

(** the texts written by a list of streaming updates *)
Fixpoint written (us : list update) : list str :=
  match us with
  | [] => []
  | UpdateHtml _ _ h :: us' => h :: written us'
  | _ :: us' => written us'
  end.

(** each text of the list extends the one before it, the first extends [a] *)
Fixpoint growing (a : str) (hs : list str) : Prop :=
  match hs with
  | [] => True
  | h :: hs' => (exists t, h = a ++ t) /\ growing h hs'
  end.

(** no white space at the start, at the end *)
Definition starts_tight (s : str) : bool :=
  match s with
  | c :: _ => negb (is_js_space c)
  | [] => true
  end.

Definition ends_tight (s : str) : bool := starts_tight (rev s).

Definition count_appends (us : list update) : nat :=
  length (filter (fun u => match u with AppendSession _ => true | _ => false end) us).

(** what no update changes in a session *)
Definition same_session (sess sess' : Session.t) : Prop :=
  Session.id sess' = Session.id sess /\
  Session.prompt sess' = Session.prompt sess /\
  Session.userAnswers sess' = Session.userAnswers sess /\
  Session.timestamp sess' = Session.timestamp sess /\
  map Artifact.id (Session.artifacts sess') = map Artifact.id (Session.artifacts sess).

(** The states of the navigation the application is in: no session and the
    pointer at -1, or the pointer on a session; a focused artifact is one
    of the three artifacts of the current session. *)
Definition nav_ok (sessions : list Session.t) (st : Nav.t) : Prop :=
  ((sessions = [] /\ Nav.currentSessionIndex st = (-1)%Z) \/
   (0 <= Nav.currentSessionIndex st < Z.of_nat (length sessions))%Z) /\
  match Nav.focusedArtifactIndex st with
  | Some focused =>
      (0 <= focused <= 2)%Z /\
      exists currentSession,
        sessionAt sessions (Nav.currentSessionIndex st) = Some currentSession /\
        length (Session.artifacts currentSession) = 3%nat
  | None => True
  end.

(** ** Concrete inputs *)

Definition FENCED_ARRAY : str :=
  txt "here:" ++ [10] ++ FENCE_JSON ++ [10] ++ txt "[1,2]" ++ [10] ++ FENCE.

Definition SESSION_1 : Session.t := newSession (txt "s1") (txt "a card") [] 0.


Definition TASK_CHUNKS_0 : list chunk :=
  [mkChunk (Some (txt "<p>")); mkChunk (Some (txt "a</p>"))].

Definition TASK_CHUNKS_1 : list chunk := [mkChunk (Some (txt "<di"))].

Definition TASK_CHUNKS_2 : list chunk := [mkChunk (Some (txt " <b>c</b> "))].

Definition FAILED_STORE : list Session.t :=
  run [AppendSession SESSION_1; Fail (txt "s1") (txt "s1_0")] [].

Definition VARIATION_STREAM : list chunk :=
  [mkChunk (Some (jtxt "{'name':'Flip','html':'<p>'}{'name':'','ht"));
   mkChunk (Some (jtxt "ml':'x'}{'html':'x'}{'name':0,'html':'h'}"))].

(** * Properties *)

(** ** Strings *)

Lemma str_eqb_eq (a b : str) : str_eqb a b = true <-> a = b.
Proof.
  revert b; induction a as [|x a IH]; intros [|y b]; simpl; split;
    try congruence; try reflexivity.
  - intros H; btac. apply IH in H0. congruence.
  - intros H; injection H as -> ->. rewrite N.eqb_refl. simpl. now apply IH.
Qed.

Lemma str_eqb_refl (a : str) : str_eqb a a = true.
Proof. now apply str_eqb_eq. Qed.

(** ** Brace structure of parsed values *)

Lemma nobrace_app (a b : str) : nobrace (a ++ b) = nobrace a && nobrace b.
Proof. unfold nobrace. apply forallb_app. Qed.

Lemma bal_app (a b : str) (d : nat) :
  bal d (a ++ b) = match bal d a with Some d' => bal d' b | None => None end.
Proof.
  revert d; induction a as [|c a IH]; intros d; simpl; [reflexivity|].
  destruct (c =? LBRACE); [apply IH|].
  destruct (c =? RBRACE); [destruct d; [reflexivity|apply IH]|apply IH].
Qed.

Lemma bal_nobrace (s : str) (d : nat) : nobrace s = true -> bal d s = Some d.
Proof.
  induction s as [|c s IH]; simpl; [reflexivity|]. intros H.
  apply andb_true_iff in H. destruct H as [Hc Hs]. unfold is_brace in Hc.
  apply negb_true_iff, orb_false_iff in Hc. destruct Hc as [-> ->]. auto.
Qed.

Lemma bal_shift (s : str) (d d' k : nat) :
  bal d s = Some d' -> bal (d + k) s = Some (d' + k)%nat.
Proof.
  revert d; induction s as [|c s IH]; intros d; simpl.
  - congruence.
  - destruct (c =? LBRACE); [apply (IH (S d))|].
    destruct (c =? RBRACE); [|apply IH].
    destruct d as [|d]; [discriminate|]. simpl. apply IH.
Qed.

(** *** What the parsing functions read *)

Lemma skip_ws_split (s : str) :
  exists w, s = w ++ skip_ws s /\ nobrace w = true.
Proof.
  induction s as [|c s (w & E & Hw)]; simpl.
  - exists []. auto.
  - destruct (is_ws c) eqn:Hc.
    + exists (c :: w). split; [simpl; congruence|].
      simpl. rewrite Hw, andb_true_r. chars.
      destruct (N.eqb_spec c 123), (N.eqb_spec c 125); subst; try discriminate;
        reflexivity.
    + exists []. auto.
Qed.

Lemma skip_ws_length (s : str) : (length (skip_ws s) <= length s)%nat.
Proof.
  destruct (skip_ws_split s) as (w & E & _).
  rewrite E at 2. rewrite length_app. lia.
Qed.

Lemma digit_not_brace (c : N) : is_digit c = true -> negb (is_brace c) = true.
Proof.
  chars. intros H. btac.
  destruct (N.eqb_spec c 123), (N.eqb_spec c 125); subst; try lia; reflexivity.
Qed.

Lemma span_digits_split (s : str) ds r :
  span_digits s = (ds, r) -> s = ds ++ r /\ nobrace ds = true.
Proof.
  revert ds r; induction s as [|c s IH]; simpl; intros ds r H.
  - injection H as <- <-. auto.
  - destruct (is_digit c) eqn:Hc.
    + destruct (span_digits s) as [ds' r'] eqn:E. injection H as <- <-.
      destruct (IH _ _ eq_refl) as [-> Hn]. split; [reflexivity|].
      simpl. rewrite Hn, digit_not_brace; auto.
    + injection H as <- <-. auto.
Qed.

Lemma reads_cons (c : N) (s rest : str) :
  negb (is_brace c) = true ->
  (s = rest \/ reads s rest) -> reads (c :: s) rest.
Proof.
  intros Hc [->|(x & -> & _ & Hx)].
  - exists [c]. simpl. rewrite Hc. repeat split; congruence.
  - exists (c :: x). simpl. rewrite Hc, Hx. repeat split; congruence.
Qed.

Lemma reads_app (w s rest : str) :
  nobrace w = true -> (s = rest /\ w <> [] \/ reads s rest) -> reads (w ++ s) rest.
Proof.
  intros Hw [[-> Hne]|(x & -> & Hne & Hx)].
  - exists w. auto.
  - exists (w ++ x). rewrite nobrace_app, Hw, Hx, app_assoc. repeat split.
    destruct w; simpl; [assumption|discriminate].
Qed.

Lemma parse_exponent_reads ng ids fs s n rest :
  parse_exponent ng ids fs s = Ok n rest -> s = rest \/ reads s rest.
Proof.
  unfold parse_exponent. destruct s as [|c s]; [intros H; injection H as _ <-; auto|].
  destruct ((c =? 101) || (c =? 69)) eqn:Hc; [|intros H; injection H as _ <-; auto].
  intros H. right.
  assert (Hcb : negb (is_brace c) = true).
  { chars. destruct (N.eqb_spec c 123), (N.eqb_spec c 125); subst;
      try discriminate; reflexivity. }
  set (p := match s with
            | [] => (false, s)
            | x :: t => if x =? PLUS then (false, t)
                        else if x =? MINUS then (true, t) else (false, s)
            end) in H.
  assert (Hp : snd p = s \/ exists x, s = x :: snd p /\ negb (is_brace x) = true).
  { subst p. destruct s as [|x t]; [auto|].
    destruct (N.eqb_spec x PLUS) as [->|]; [right; eauto|].
    destruct (N.eqb_spec x MINUS) as [->|]; [right; eauto|auto]. }
  destruct p as [eneg s2]. simpl in Hp.
  destruct (span_digits s2) as [es s3] eqn:E.
  apply span_digits_split in E. destruct E as [-> Hes].
  destruct es as [|e es]; [discriminate|]. injection H as _ <-.
  apply reads_cons; [assumption|]. right.
  destruct Hp as [<-|(x & -> & Hx)].
  - exists (e :: es). repeat split; [discriminate|assumption].
  - exists (x :: e :: es). repeat split; [discriminate|].
    simpl in *. now rewrite Hx.
Qed.

Lemma parse_fraction_reads ng ids s n rest :
  parse_fraction ng ids s = Ok n rest -> s = rest \/ reads s rest.
Proof.
  unfold parse_fraction. destruct s as [|c s]; [apply parse_exponent_reads|].
  destruct (N.eqb_spec c DOT) as [->|]; [|apply parse_exponent_reads].
  destruct (span_digits s) as [fs s2] eqn:E.
  apply span_digits_split in E. destruct E as [-> Hfs].
  destruct fs as [|f fs]; [discriminate|]. simpl is_nil. cbv iota.
  intros H. apply parse_exponent_reads in H. right.
  apply reads_cons; [reflexivity|]. right.
  apply reads_app; [assumption|].
  destruct H as [->|H]; [left; split; [reflexivity|discriminate]|auto].
Qed.

Lemma parse_int_reads ng s n rest : parse_int ng s = Ok n rest -> reads s rest.
Proof.
  unfold parse_int. destruct s as [|c s]; [discriminate|].
  destruct (N.eqb_spec c 48) as [->|].
  - intros H. apply parse_fraction_reads in H. apply reads_cons; [reflexivity|auto].
  - destruct (is_digit c) eqn:Hc; [|discriminate].
    destruct (span_digits (c :: s)) as [ds s2] eqn:E.
    pose proof E as E'. apply span_digits_split in E'. destruct E' as [E' Hds].
    intros H. apply parse_fraction_reads in H. rewrite E'.
    apply reads_app; [assumption|].
    destruct H as [->|H]; [left; split; [reflexivity|]|auto].
    simpl in E. rewrite Hc in E. destruct (span_digits s). injection E as <- _.
    discriminate.
Qed.

Lemma parse_number_reads s n rest : parse_number s = Ok n rest -> reads s rest.
Proof.
  unfold parse_number. destruct s as [|c s]; [discriminate|].
  destruct (N.eqb_spec c MINUS) as [->|]; [|apply parse_int_reads].
  intros H. apply parse_int_reads in H. apply reads_cons; [reflexivity|auto].
Qed.

Lemma expect_split (w s rest : str) : expect w s = Some rest -> s = w ++ rest.
Proof.
  revert s; induction w as [|x w IH]; intros s; simpl.
  - congruence.
  - destruct s as [|y s]; [discriminate|].
    destruct (N.eqb_spec x y) as [->|]; [|discriminate].
    intros H. apply IH in H. congruence.
Qed.

Lemma parse_literal_reads (w : str) v s x rest :
  w <> [] -> nobrace w = true -> parse_literal w v s = Ok x rest -> reads s rest.
Proof.
  unfold parse_literal. intros Hne Hw. destruct (expect w s) eqn:E; [|discriminate].
  intros H. injection H as _ <-. apply expect_split in E. exists w. auto.
Qed.

Lemma cons_res_ok x r v rest :
  cons_res x r = Ok v rest -> exists v', r = Ok v' rest /\ v = x :: v'.
Proof.
  destruct r as [v' rest'| |]; simpl; try discriminate.
  intros H. injection H as <- <-. eauto.
Qed.

Lemma map_res_ok {A B} (f : A -> B) r b rest :
  map_res f r = Ok b rest -> exists a, r = Ok a rest /\ b = f a.
Proof.
  destruct r as [a rest'| |]; simpl; try discriminate.
  intros H. injection H as <- <-. eauto.
Qed.

Lemma hex_not_brace (h x : N) : hex_val h = Some x -> negb (is_brace h) = true.
Proof.
  chars. intros H.
  destruct (N.eqb_spec h 123) as [->|]; [discriminate|].
  destruct (N.eqb_spec h 125) as [->|]; [discriminate|]. reflexivity.
Qed.

Lemma escape_not_brace (e x : N) : escape_char e = Some x -> negb (is_brace e) = true.
Proof.
  chars. intros H.
  destruct (N.eqb_spec e 123) as [->|]; [discriminate|].
  destruct (N.eqb_spec e 125) as [->|]; [discriminate|]. reflexivity.
Qed.

(** A string literal without a brace in its value has none in its text. *)
Lemma parse_chars_reads (n : nat) :
  forall s, (length s <= n)%nat -> forall v rest,
    parse_chars s = Ok v rest ->
    exists c, s = c ++ rest /\ c <> [] /\ (nobrace v = true -> nobrace c = true).
Proof.
  induction n as [|n IH]; intros s Hlen v rest H.
  - destruct s; [discriminate|simpl in Hlen; lia].
  - destruct s as [|c s]; [discriminate|]. simpl in Hlen. simpl in H.
    destruct (N.eqb_spec c QUOTE) as [->|Hq].
    { injection H as <- <-. exists [QUOTE]. repeat split; discriminate. }
    destruct (N.eqb_spec c BACKSLASH) as [->|Hb].
    { destruct s as [|e s]; [discriminate|].
      destruct (N.eqb_spec e 117) as [->|He].
      - destruct s as [|h1 [|h2 [|h3 [|h4 s]]]]; try discriminate.
        destruct (hex_val h1) eqn:E1; [|discriminate].
        destruct (hex_val h2) eqn:E2; [|discriminate].
        destruct (hex_val h3) eqn:E3; [|discriminate].
        destruct (hex_val h4) eqn:E4; [|discriminate].
        apply cons_res_ok in H. destruct H as (v' & H & ->).
        apply IH in H; [|simpl in Hlen; lia].
        destruct H as (c & -> & _ & Hc).
        exists (BACKSLASH :: 117 :: h1 :: h2 :: h3 :: h4 :: c).
        repeat split; [discriminate|]. intros Hv. simpl in Hv.
        apply andb_true_iff in Hv. destruct Hv as [_ Hv].
        simpl. rewrite (hex_not_brace _ E1), (hex_not_brace _ E2),
          (hex_not_brace _ E3), (hex_not_brace _ E4). simpl. auto.
      - destruct (escape_char e) eqn:Ee; [|discriminate].
        apply cons_res_ok in H. destruct H as (v' & H & ->).
        apply IH in H; [|simpl in Hlen; lia].
        destruct H as (c & -> & _ & Hc).
        exists (BACKSLASH :: e :: c).
        repeat split; [discriminate|]. intros Hv. simpl in Hv.
        apply andb_true_iff in Hv. destruct Hv as [_ Hv].
        simpl. rewrite (escape_not_brace _ Ee). simpl. auto. }
    destruct (c <? 32); [discriminate|].
    apply cons_res_ok in H. destruct H as (v' & H & ->).
    apply IH in H; [|lia]. destruct H as (x & -> & _ & Hx).
    exists (c :: x). repeat split; [discriminate|]. intros Hv. simpl in Hv.
    apply andb_true_iff in Hv. destruct Hv as [Hc Hv]. simpl. rewrite Hc. auto.
Qed.

Lemma balanced_app (a b : str) : balanced a -> balanced b -> balanced (a ++ b).
Proof. unfold balanced. intros Ha Hb. now rewrite bal_app, Ha. Qed.

Lemma balanced_nobrace (a : str) : nobrace a = true -> balanced a.
Proof. apply bal_nobrace. Qed.

Lemma balanced_cons (c : N) (a : str) :
  negb (is_brace c) = true -> balanced a -> balanced (c :: a).
Proof.
  intros Hc Ha. change (c :: a) with ([c] ++ a). apply balanced_app; [|assumption].
  apply balanced_nobrace. simpl. now rewrite Hc.
Qed.

Lemma balanced_reads (s rest : str) :
  reads s rest -> exists c, s = c ++ rest /\ c <> [] /\ balanced c.
Proof. intros (c & E & Hne & Hc). exists c. auto using balanced_nobrace. Qed.

Lemma balanced_wrap (c : str) : balanced c -> balanced (LBRACE :: c ++ [RBRACE]).
Proof.
  unfold balanced. intros H.
  change (bal 0 (LBRACE :: c ++ [RBRACE])) with (bal 1 (c ++ [RBRACE])).
  rewrite bal_app. apply (bal_shift _ _ 1) in H. simpl in H. rewrite H. reflexivity.
Qed.

Create HintDb bal.

#[local] Hint Resolve balanced_app balanced_nobrace balanced_cons balanced_wrap : bal.

Lemma parse_reads (n : nat) :
  (forall s v rest, parse_value n s = Ok v rest -> value_reads s v rest) /\
  (forall s m rest, parse_members n s = Ok m rest -> members_read s m rest) /\
  (forall s l rest, parse_elements n s = Ok l rest -> elements_read s l rest).
Proof.
  induction n as [|n (IHv & IHm & IHe)]; [repeat split; discriminate|].
  split; [|split].
  - (* parse_value *)
    intros s v rest H. simpl in H. destruct s as [|c s]; [discriminate|].
    destruct (N.eqb_spec c LBRACE) as [->|Hlb].
    { destruct (skip_ws_split s) as (w & Es & Hw).
      destruct (skip_ws s) as [|c1 s2]; [discriminate|].
      destruct (N.eqb_spec c1 RBRACE) as [->|Hrb].
      - injection H as <- <-. exists (LBRACE :: w ++ [RBRACE]).
        split; [rewrite Es at 1; simpl; now rewrite <- app_assoc|].
        split; [discriminate|]. split; [auto with bal|]. intros _.
        split; [eauto|]. exists w. auto with bal.
      - apply map_res_ok in H. destruct H as (m & H & ->).
        apply IHm in H. destruct H as (c & E & Hc).
        exists (LBRACE :: (w ++ c) ++ [RBRACE]).
        split; [rewrite Es at 1; rewrite E; simpl; now rewrite <- !app_assoc|].
        split; [discriminate|]. split; [intros Hv; apply balanced_wrap; auto with bal|].
        intros _. split; [eauto|]. exists (w ++ c). auto with bal. }
    assert (Hhd : hd_error (c :: s) <> Some LBRACE) by (simpl; congruence).
    destruct (N.eqb_spec c LBRACKET) as [->|Hlk].
    { destruct (skip_ws_split s) as (w & Es & Hw).
      destruct (skip_ws s) as [|c1 s2]; [discriminate|].
      destruct (N.eqb_spec c1 RBRACKET) as [->|Hrk].
      - injection H as <- <-. exists (LBRACKET :: w ++ [RBRACKET]).
        rewrite Es at 1. simpl. rewrite <- app_assoc.
        repeat split; try discriminate; try contradiction.
        intros _. apply balanced_cons; [reflexivity|].
        apply balanced_app; auto with bal.
      - apply map_res_ok in H. destruct H as (l & H & ->).
        apply IHe in H. destruct H as (c & E & _ & Hc).
        exists (LBRACKET :: w ++ c ++ [RBRACKET]).
        rewrite Es at 1. rewrite E. simpl. rewrite <- !app_assoc.
        repeat split; try discriminate; try contradiction.
        intros Hv. apply balanced_cons; [reflexivity|].
        apply balanced_app; [auto with bal|].
        apply balanced_app; auto with bal. }
    destruct (N.eqb_spec c QUOTE) as [->|Hq].
    { apply map_res_ok in H. destruct H as (k & H & ->).
      apply (parse_chars_reads (n := length s)) in H; [|lia].
      destruct H as (x & -> & _ & Hx). exists (QUOTE :: x).
      repeat split; try discriminate; try contradiction.
      intros Hv. apply balanced_cons; [reflexivity|]. auto with bal. }
    assert (Hr : reads (c :: s) rest -> value_reads (c :: s) v rest).
    { intros Hr. apply balanced_reads in Hr. destruct Hr as (x & E & Hne & Hx).
      exists x. repeat split; auto; contradiction. }
    destruct (c =? 116); [apply Hr; now apply parse_literal_reads in H|].
    destruct (c =? 102); [apply Hr; now apply parse_literal_reads in H|].
    destruct (c =? 110); [apply Hr; now apply parse_literal_reads in H|].
    apply map_res_ok in H. destruct H as (k & H & ->).
    apply Hr. now apply parse_number_reads in H.
  - (* parse_members *)
    intros s m rest H. simpl in H. destruct s as [|c s]; [discriminate|].
    destruct (N.eqb_spec c QUOTE) as [->|]; [|discriminate].
    destruct (parse_chars s) as [k s1| |] eqn:Ek; try discriminate.
    apply (parse_chars_reads (n := length s)) in Ek; [|lia].
    destruct Ek as (ck & -> & _ & Hck).
    destruct (skip_ws_split s1) as (w1 & E1 & Hw1).
    destruct (skip_ws s1) as [|c2 s2]; [discriminate|].
    destruct (N.eqb_spec c2 COLON) as [->|]; [|discriminate].
    destruct (skip_ws_split s2) as (w2 & E2 & Hw2).
    destruct (parse_value n (skip_ws s2)) as [v s3| |] eqn:Ev; try discriminate.
    apply IHv in Ev. destruct Ev as (cv & Ev & _ & Hcv & _).
    destruct (skip_ws_split s3) as (w3 & E3 & Hw3).
    destruct (skip_ws s3) as [|c4 s4]; [discriminate|].
    assert (Hpre : nobrace k && brace_free v = true ->
                   balanced (QUOTE :: ck ++ w1 ++ COLON :: w2 ++ cv ++ w3)).
    { intros Hkv. apply andb_true_iff in Hkv. destruct Hkv as [Hk Hv].
      apply balanced_cons; [reflexivity|].
      apply balanced_app; [auto with bal|].
      apply balanced_app; [auto with bal|].
      apply balanced_cons; [reflexivity|].
      apply balanced_app; [auto with bal|].
      apply balanced_app; auto with bal. }
    assert (Es : QUOTE :: ck ++ s1
                 = (QUOTE :: ck ++ w1 ++ COLON :: w2 ++ cv ++ w3) ++ c4 :: s4).
    { rewrite E1 at 1. rewrite E2 at 1. rewrite Ev at 1. rewrite E3 at 1.
      simpl. now rewrite <- !app_assoc; simpl; rewrite <- !app_assoc. }
    destruct (N.eqb_spec c4 COMMA) as [->|].
    + apply map_res_ok in H. destruct H as (m' & H & ->).
      destruct (skip_ws_split s4) as (w4 & E4 & Hw4).
      apply IHm in H. destruct H as (c & E & Hc).
      exists ((QUOTE :: ck ++ w1 ++ COLON :: w2 ++ cv ++ w3) ++ COMMA :: w4 ++ c).
      split.
      * rewrite Es. rewrite E4 at 1. rewrite E.
        now rewrite <- !app_assoc; simpl; rewrite <- !app_assoc.
      * intros Hm. simpl in Hm. apply andb_true_iff in Hm. destruct Hm as [Hkv Hm].
        apply balanced_app; [auto|].
        apply balanced_cons; [reflexivity|]. apply balanced_app; auto with bal.
    + destruct (N.eqb_spec c4 RBRACE) as [->|]; [|discriminate].
      injection H as <- <-.
      exists (QUOTE :: ck ++ w1 ++ COLON :: w2 ++ cv ++ w3). split; [assumption|].
      intros Hm. simpl in Hm. rewrite andb_true_r in Hm. auto.
  - (* parse_elements *)
    intros s l rest H. simpl in H.
    destruct (parse_value n s) as [v s3| |] eqn:Ev; try discriminate.
    apply IHv in Ev. destruct Ev as (cv & Ev & Hne & Hcv & _).
    destruct (skip_ws_split s3) as (w3 & E3 & Hw3).
    destruct (skip_ws s3) as [|c4 s4]; [discriminate|].
    assert (Hcw : cv ++ w3 <> []) by (destruct cv; [congruence|discriminate]).
    destruct (N.eqb_spec c4 COMMA) as [->|].
    + apply map_res_ok in H. destruct H as (l' & H & ->).
      destruct (skip_ws_split s4) as (w4 & E4 & Hw4).
      apply IHe in H. destruct H as (c & E & _ & Hc).
      exists ((cv ++ w3) ++ COMMA :: w4 ++ c). split; [|split].
      * rewrite Ev. rewrite E3 at 1. rewrite E4 at 1. rewrite E.
        now rewrite <- !app_assoc; simpl; rewrite <- !app_assoc.
      * destruct (cv ++ w3); [congruence|discriminate].
      * intros Hl. simpl in Hl. apply andb_true_iff in Hl. destruct Hl as [Hv Hl].
        apply balanced_app; [auto with bal|].
        apply balanced_cons; [reflexivity|]. apply balanced_app; auto with bal.
    + destruct (N.eqb_spec c4 RBRACKET) as [->|]; [|discriminate].
      injection H as <- <-. exists (cv ++ w3). split; [|split].
      * rewrite Ev. rewrite E3 at 1. now rewrite <- !app_assoc.
      * assumption.
      * intros Hl. simpl in Hl. rewrite andb_true_r in Hl. auto with bal.
Qed.

(** *** The recursion budget of JSON_parse is never exhausted *)

Lemma parse_chars_length (s : str) v rest :
  parse_chars s = Ok v rest -> (length rest < length s)%nat.
Proof.
  intros H. apply (parse_chars_reads (n := length s)) in H; [|lia].
  destruct H as (c & -> & Hne & _). rewrite length_app.
  destruct c; [congruence|simpl; lia].
Qed.

Lemma parse_value_length (n : nat) (s : str) v rest :
  parse_value n s = Ok v rest -> (length rest < length s)%nat.
Proof.
  intros H. apply (proj1 (parse_reads n)) in H.
  destruct H as (c & -> & Hne & _). rewrite length_app.
  destruct c; [congruence|simpl; lia].
Qed.

Lemma map_res_fuel {A B} (f : A -> B) (r : res A) : r <> Fuel -> map_res f r <> Fuel.
Proof. destruct r; simpl; congruence. Qed.

Lemma parse_chars_no_fuel (n : nat) :
  forall s, (length s <= n)%nat -> parse_chars s <> Fuel.
Proof.
  induction n as [|n IH]; intros s Hlen.
  - destruct s; [discriminate|simpl in Hlen; lia].
  - destruct s as [|c s]; [discriminate|]. simpl in Hlen. simpl.
    destruct (c =? QUOTE); [discriminate|].
    destruct (c =? BACKSLASH).
    + destruct s as [|e s]; [discriminate|].
      destruct (e =? 117).
      * destruct s as [|h1 [|h2 [|h3 [|h4 s]]]]; try discriminate.
        destruct (hex_val h1), (hex_val h2), (hex_val h3), (hex_val h4);
          try discriminate.
        apply map_res_fuel, IH. simpl in Hlen. lia.
      * destruct (escape_char e); [|discriminate].
        apply map_res_fuel, IH. simpl in Hlen. lia.
    + destruct (c <? 32); [discriminate|]. apply map_res_fuel, IH. lia.
Qed.

Lemma parse_number_no_fuel (s : str) : parse_number s <> Fuel.
Proof.
  assert (He : forall ng ids fs t, parse_exponent ng ids fs t <> Fuel).
  { intros ng ids fs t. unfold parse_exponent. destruct t as [|c t]; [discriminate|].
    destruct ((c =? 101) || (c =? 69)); [|discriminate].
    destruct (match t with
              | [] => (false, t)
              | x :: t0 => if x =? PLUS then (false, t0)
                           else if x =? MINUS then (true, t0) else (false, t)
              end) as [eneg s2].
    destruct (span_digits s2) as [es s3]. destruct (is_nil es); discriminate. }
  assert (Hf : forall ng ids t, parse_fraction ng ids t <> Fuel).
  { intros ng ids t. unfold parse_fraction. destruct t as [|c t]; [apply He|].
    destruct (c =? DOT); [|apply He]. destruct (span_digits t) as [fs s2].
    destruct (is_nil fs); [discriminate|apply He]. }
  assert (Hi : forall ng t, parse_int ng t <> Fuel).
  { intros ng t. unfold parse_int. destruct t as [|c t]; [discriminate|].
    destruct (c =? 48); [apply Hf|]. destruct (is_digit c); [|discriminate].
    destruct (span_digits (c :: t)). apply Hf. }
  unfold parse_number. destruct s as [|c s]; [discriminate|].
  destruct (c =? MINUS); apply Hi.
Qed.

Lemma parse_fuel_enough (n : nat) :
  (forall s, (2 * length s + 1 <= n)%nat -> parse_value n s <> Fuel) /\
  (forall s, (2 * length s + 2 <= n)%nat -> parse_members n s <> Fuel) /\
  (forall s, (2 * length s + 2 <= n)%nat -> parse_elements n s <> Fuel).
Proof.
  induction n as [|n (IHv & IHm & IHe)]; [repeat split; intros; lia|].
  split; [|split]; intros s Hn; simpl.
  - destruct s as [|c s]; [discriminate|]. simpl in Hn.
    pose proof (skip_ws_length s) as Hs.
    destruct (c =? LBRACE).
    { destruct (skip_ws s) as [|c1 s2] eqn:E; [discriminate|].
      destruct (c1 =? RBRACE); [discriminate|].
      apply map_res_fuel, IHm. lia. }
    destruct (c =? LBRACKET).
    { destruct (skip_ws s) as [|c1 s2] eqn:E; [discriminate|].
      destruct (c1 =? RBRACKET); [discriminate|].
      apply map_res_fuel, IHe. lia. }
    destruct (c =? QUOTE).
    { apply map_res_fuel, (parse_chars_no_fuel (n := length s)). lia. }
    unfold parse_literal.
    destruct (c =? 116); [destruct (expect _ _); discriminate|].
    destruct (c =? 102); [destruct (expect _ _); discriminate|].
    destruct (c =? 110); [destruct (expect _ _); discriminate|].
    apply map_res_fuel, parse_number_no_fuel.
  - destruct s as [|c s]; [discriminate|]. simpl in Hn.
    destruct (c =? QUOTE); [|discriminate].
    destruct (parse_chars s) as [k s1| |] eqn:Ek; try discriminate.
    apply parse_chars_length in Ek.
    pose proof (skip_ws_length s1) as H1.
    destruct (skip_ws s1) as [|c2 s2]; [discriminate|]. simpl in H1.
    destruct (c2 =? COLON); [|discriminate].
    pose proof (skip_ws_length s2) as H2.
    destruct (parse_value n (skip_ws s2)) as [v s3| |] eqn:Ev.
    + apply parse_value_length in Ev.
      pose proof (skip_ws_length s3) as H3.
      destruct (skip_ws s3) as [|c4 s4]; [discriminate|]. simpl in H3.
      pose proof (skip_ws_length s4) as H4.
      destruct (c4 =? COMMA); [apply map_res_fuel, IHm; lia|].
      destruct (c4 =? RBRACE); discriminate.
    + discriminate.
    + exfalso. revert Ev. apply IHv. lia.
  - destruct (parse_value n s) as [v s3| |] eqn:Ev.
    + apply parse_value_length in Ev.
      pose proof (skip_ws_length s3) as H3.
      destruct (skip_ws s3) as [|c4 s4]; [discriminate|]. simpl in H3.
      pose proof (skip_ws_length s4) as H4.
      destruct (c4 =? COMMA); [apply map_res_fuel, IHe; lia|].
      destruct (c4 =? RBRACKET); discriminate.
    + discriminate.
    + exfalso. revert Ev. apply IHv. lia.
Qed.

(** [JSON_parse] never fails for want of budget: when it answers [None]
    the text is not JSON. *)
Lemma JSON_parse_budget (s : str) : parse_value (parse_fuel s) s <> Fuel.
Proof. apply (proj1 (parse_fuel_enough _)). unfold parse_fuel. lia. Qed.

(** *** Object texts *)

Lemma skip_ws_nil_last (r : str) : skip_ws r = [] -> r <> [] -> is_ws (last r 0) = true.
Proof.
  induction r as [|c r IH]; [congruence|]. simpl. intros H _.
  destruct (is_ws c) eqn:Hc; [|discriminate].
  destruct r as [|c' r]; [assumption|]. apply IH; [assumption|discriminate].
Qed.

Lemma last_app_ne (a b : str) : b <> [] -> last (a ++ b) 0 = last b 0.
Proof.
  intros Hb. induction a as [|x a IH]; [reflexivity|].
  simpl. destruct (a ++ b) eqn:E; [|assumption].
  apply app_eq_nil in E. destruct E. congruence.
Qed.

(** A well-formed object without a brace in its strings: its text is its
    opening brace, a balanced body and its closing brace. *)
Lemma object_shape (o : str) (v : JSON) :
  JSON_parse o = Some v -> wrapped o = true ->
  (exists m, v = JObject m) /\
  (brace_free v = true -> exists body, o = LBRACE :: body ++ [RBRACE] /\ balanced body).
Proof.
  unfold JSON_parse, wrapped. intros H Hw. apply andb_true_iff in Hw.
  destruct Hw as [Hh Hl]. apply N.eqb_eq in Hh, Hl.
  destruct o as [|c o]; [discriminate|]. simpl in Hh. subst c.
  change (skip_ws (LBRACE :: o)) with (LBRACE :: o) in H.
  destruct (parse_value _ _) as [x rest| |] eqn:E; try discriminate.
  destruct (is_nil (skip_ws rest)) eqn:Hr; [|discriminate]. injection H as ->.
  apply (proj1 (parse_reads _)) in E.
  destruct E as (c & E & _ & _ & Hobj). destruct (Hobj eq_refl) as (Hm & c' & -> & Hc').
  split; [assumption|]. intros Hv. exists c'. split; [|auto].
  destruct rest as [|r0 rest]; [now rewrite app_nil_r in E|]. exfalso.
  assert (Hws : is_ws (last (r0 :: rest) 0) = true).
  { apply skip_ws_nil_last; [|discriminate]. now destruct (skip_ws (r0 :: rest)). }
  rewrite E, last_app_ne in Hl by discriminate. rewrite Hl in Hws. discriminate.
Qed.

(** ** The scanner of the decoder *)

Lemma substring_le (s : str) (a b : nat) :
  (a <= b)%nat -> substring s a b = firstn (b - a) (skipn a s).
Proof.
  intros H. unfold substring. now rewrite Nat.max_r, Nat.min_l by assumption.
Qed.

Lemma substring_app (s x : str) (a b : nat) :
  (a <= b <= length s)%nat -> substring (s ++ x) a b = substring s a b.
Proof.
  intros H. rewrite !substring_le by lia. rewrite skipn_app, firstn_app.
  rewrite length_skipn.
  replace (b - a - (length s - a))%nat with 0%nat by lia.
  replace (a - length s)%nat with 0%nat by lia.
  simpl. now rewrite app_nil_r.
Qed.

Lemma substring_middle (pre o rest : str) :
  substring (pre ++ o ++ rest) (length pre) (length pre + length o) = o.
Proof.
  rewrite substring_le by lia. rewrite skipn_app, skipn_all, Nat.sub_diag.
  simpl. replace (length pre + length o - length pre)%nat with (length o) by lia.
  rewrite firstn_app, firstn_all, Nat.sub_diag. simpl. apply app_nil_r.
Qed.

Lemma skipn_middle (pre o rest : str) :
  skipn (length pre + length o) (pre ++ o ++ rest) = rest.
Proof.
  rewrite app_assoc. rewrite skipn_app.
  rewrite skipn_all2 by (rewrite length_app; lia).
  rewrite length_app. replace (_ - _)%nat with 0%nat by lia. reflexivity.
Qed.

Lemma index_of_bounds c l i j :
  index_of c l i = Some j -> (i <= j < i + length l)%nat.
Proof.
  revert i; induction l as [|x l IH]; intros i; simpl; [discriminate|].
  destruct (x =? c).
  - intros H; injection H as <-. lia.
  - intros H. apply IH in H. lia.
Qed.

Lemma index_of_app_some c l x i j :
  index_of c l i = Some j -> index_of c (l ++ x) i = Some j.
Proof.
  revert i; induction l as [|y l IH]; intros i; simpl; [discriminate|].
  destruct (y =? c); [auto|apply IH].
Qed.

Lemma index_of_none_app c l y i :
  index_of c l i = None -> index_of c (l ++ c :: y) i = Some (i + length l)%nat.
Proof.
  revert i; induction l as [|x l IH]; intros i; simpl.
  - intros _. rewrite N.eqb_refl. f_equal. lia.
  - destruct (x =? c); [discriminate|]. intros H. rewrite (IH _ H). f_equal. lia.
Qed.

Lemma index_of_found c l i j :
  index_of c l i = Some j -> exists post, skipn (j - i) l = c :: post.
Proof.
  revert i; induction l as [|x l IH]; intros i; simpl; [discriminate|].
  destruct (N.eqb_spec x c) as [->|].
  - intros H; injection H as <-. rewrite Nat.sub_diag. simpl. eauto.
  - intros H. pose proof (index_of_bounds _ _ _ H) as Hb.
    apply IH in H. destruct H as (post & H). exists post.
    replace (j - i)%nat with (S (j - S i)) by lia. assumption.
Qed.

Lemma indexOf_bounds c b k j :
  indexOf c b k = Some j -> (k <= j < length b)%nat.
Proof.
  unfold indexOf. intros H. apply index_of_bounds in H.
  rewrite length_skipn in H. lia.
Qed.

Lemma indexOf_app_some c b x k j :
  indexOf c b k = Some j -> indexOf c (b ++ x) k = Some j.
Proof.
  unfold indexOf. intros H. rewrite skipn_app. now apply index_of_app_some.
Qed.

Lemma indexOf_none_app c b y k :
  indexOf c b k = None -> (k <= length b)%nat ->
  indexOf c (b ++ c :: y) k = Some (length b).
Proof.
  unfold indexOf. intros H Hk. rewrite skipn_app.
  replace (k - length b)%nat with 0%nat by lia. simpl.
  rewrite (index_of_none_app _ _ _ _ H), length_skipn. f_equal. lia.
Qed.

Lemma indexOf_found c b k j :
  indexOf c b k = Some j -> exists post, skipn j b = c :: post.
Proof.
  unfold indexOf. intros H. pose proof (index_of_bounds _ _ _ H) as Hb.
  apply index_of_found in H. destruct H as (post & H). exists post.
  rewrite skipn_skipn in H. now replace (j - k + k)%nat with j in H by lia.
Qed.

Lemma indexOf_nobrace_prefix (j rest : str) (k : nat) :
  nobrace j = true -> (k <= length j)%nat ->
  indexOf LBRACE (j ++ LBRACE :: rest) k = Some (length j).
Proof.
  intros Hj Hk. apply indexOf_none_app; [|assumption].
  unfold indexOf. generalize k at 2. revert k Hk.
  induction j as [|c j IH]; intros k Hk i.
  - now destruct k.
  - simpl in Hj. apply andb_true_iff in Hj. destruct Hj as [Hc Hj].
    destruct k as [|k]; simpl.
    + unfold is_brace in Hc. apply negb_true_iff, orb_false_iff in Hc.
      destruct Hc as [-> _]. apply (IH Hj 0%nat). lia.
    + apply IH; [assumption|simpl in Hk; lia].
Qed.

Lemma scan_bounds l i st bc e :
  scan l i st bc = Some e -> (i <= e < i + length l)%nat /\ (st < e)%nat.
Proof.
  revert i bc; induction l as [|c l IH]; intros i bc; simpl; [discriminate|].
  destruct (_ && _) eqn:E.
  - intros H; injection H as <-. apply andb_true_iff in E. destruct E as [_ E].
    apply Nat.ltb_lt in E. lia.
  - intros H. apply IH in H. lia.
Qed.

Lemma scan_app_some l x i st bc e :
  scan l i st bc = Some e -> scan (l ++ x) i st bc = Some e.
Proof.
  revert i bc; induction l as [|c l IH]; intros i bc; simpl; [discriminate|].
  destruct (_ && _); [auto|apply IH].
Qed.

(** Across a text whose braces are matched, entered with a positive count,
    the count never comes back to zero. *)
Lemma scan_bal (c l : str) (i st : nat) (z : Z) (d d' : nat) :
  bal d c = Some d' -> (0 < z)%Z ->
  scan (c ++ l) i st (z + Z.of_nat d) = scan l (i + length c) st (z + Z.of_nat d').
Proof.
  revert i d; induction c as [|x c IH]; intros i d H Hz; cbn [app scan bal length] in *.
  - injection H as <-. now rewrite Nat.add_0_r.
  - destruct (x =? LBRACE).
    + replace (z + Z.of_nat d + 1)%Z with (z + Z.of_nat (S d))%Z by lia.
      replace (z + Z.of_nat (S d) =? 0)%Z with false by (symmetry; apply Z.eqb_neq; lia).
      cbn [andb]. rewrite (IH (S i) (S d) H Hz). f_equal. lia.
    + destruct (x =? RBRACE).
      * destruct d as [|d]; [discriminate|].
        replace (z + Z.of_nat (S d) - 1)%Z with (z + Z.of_nat d)%Z by lia.
        replace (z + Z.of_nat d =? 0)%Z with false by (symmetry; apply Z.eqb_neq; lia).
        cbn [andb]. rewrite (IH (S i) d H Hz). f_equal. lia.
      * replace (z + Z.of_nat d =? 0)%Z with false by (symmetry; apply Z.eqb_neq; lia).
        cbn [andb]. rewrite (IH (S i) d H Hz). f_equal. lia.
Qed.

(** A scan that runs off the end of the buffer with a positive count has a
    positive count there. *)
Lemma scan_none_app (l : str) (i st : nat) (bc : Z) :
  scan l i st bc = None -> (st < i)%nat -> (0 < bc)%Z ->
  exists bc', (0 < bc')%Z /\
    forall x, scan (l ++ x) i st bc = scan x (i + length l) st bc'.
Proof.
  revert i bc; induction l as [|c l IH]; intros i bc H Hi Hbc; simpl in *.
  - exists bc. split; [assumption|]. intros x. now rewrite Nat.add_0_r.
  - set (bc1 := if c =? LBRACE then (bc + 1)%Z
                else if c =? RBRACE then (bc - 1)%Z else bc) in *.
    assert (Hge : (0 <= bc1)%Z).
    { subst bc1. destruct (c =? LBRACE); [lia|]. destruct (c =? RBRACE); lia. }
    destruct (Z.eqb_spec bc1 0) as [E|E].
    + simpl in H. apply Nat.ltb_lt in Hi. rewrite Hi in H. discriminate.
    + simpl in H. destruct (IH (S i) bc1 H) as (bc' & Hbc' & Hx); [lia..|].
      exists bc'. split; [assumption|]. intros x. simpl. rewrite Hx. f_equal. lia.
Qed.

Lemma find_end_bounds b st e :
  find_end b st = Some e -> (st < e < length b)%nat.
Proof.
  unfold find_end. intros H. apply scan_bounds in H.
  rewrite length_skipn in H. lia.
Qed.

Lemma find_end_app_some b x st e :
  find_end b st = Some e -> find_end (b ++ x) st = Some e.
Proof.
  unfold find_end. intros H. rewrite skipn_app. now apply scan_app_some.
Qed.

Lemma scan_first_brace (l : str) (st : nat) :
  scan (LBRACE :: l) st st 0 = scan l (S st) st 1.
Proof.
  cbn [scan]. change (LBRACE =? LBRACE) with true. cbv beta iota.
  now rewrite Nat.ltb_irrefl, andb_false_r.
Qed.

(** From the opening brace of a span whose body is balanced, the scan stops
    on its closing brace. *)
Lemma find_end_wrapped (pre body rest : str) :
  balanced body ->
  find_end (pre ++ LBRACE :: body ++ RBRACE :: rest) (length pre)
  = Some (length pre + length body + 1)%nat.
Proof.
  intros Hb. unfold find_end.
  rewrite skipn_app, skipn_all, Nat.sub_diag. simpl skipn. rewrite app_nil_l.
  rewrite scan_first_brace.
  pose proof (@scan_bal body (RBRACE :: rest) (S (length pre)) (length pre) 1 0 0 Hb)
    as H.
  change (1 + Z.of_nat 0)%Z with 1%Z in H. rewrite H by lia.
  simpl. replace (_ <? _)%nat with true by (symmetry; apply Nat.ltb_lt; lia).
  f_equal. lia.
Qed.

Lemma scan_open (p : str) (bc : Z) (i st : nat) :
  unclosed p = true -> (0 < bc)%Z -> scan p i st bc = None.
Proof.
  unfold unclosed. destruct (bal 0 p) as [d|] eqn:E; [|discriminate]. intros _ Hbc.
  pose proof (@scan_bal p [] i st bc 0 d E) as H.
  rewrite app_nil_r, Z.add_0_r in H. rewrite H by lia. reflexivity.
Qed.

(** ** The drain loop as a relation *)

Lemma drain_sound (fuel : nat) :
  forall buffer start vs buffer',
    drain fuel buffer start = Some (vs, buffer') -> Drain buffer start vs buffer'.
Proof.
  induction fuel as [|fuel IH]; intros buffer [st|] vs buffer' H; simpl in H;
    try discriminate; try (injection H as <- <-; constructor).
  destruct (find_end buffer st) as [e|] eqn:Ee.
  - destruct (JSON_parse _) as [v|] eqn:Ev.
    + destruct (drain fuel _ _) as [[ws b]|] eqn:Ed; [|discriminate].
      injection H as <- <-. eapply Drain_yield; eauto.
    + eapply Drain_skip; eauto.
  - injection H as <- <-. now constructor.
Qed.

Lemma Drain_det buffer start vs1 b1 :
  Drain buffer start vs1 b1 ->
  forall vs2 b2, Drain buffer start vs2 b2 -> vs1 = vs2 /\ b1 = b2.
Proof.
  induction 1 as [b|b st Hn|b st e v vs b' He Hv _ IH|b st e vs b' He Hv _ IH];
    intros vs2 b2 H2; inversion H2; subst; try congruence; auto.
  assert (e0 = e) by congruence. subst e0.
  assert (v0 = v) by congruence. subst v0.
  match goal with
  | Hd : Drain (skipn _ _) _ _ _ |- _ => destruct (IH _ _ Hd) as [-> ->]
  end. auto.
Qed.

(** The loop terminates: the budget given by [feed] is never exhausted. *)
Lemma drain_total (fuel : nat) :
  forall buffer start,
    (match start with
     | Some st => length buffer - st < fuel
     | None => True
     end)%nat ->
    exists r, drain fuel buffer start = Some r.
Proof.
  induction fuel as [|fuel IH]; intros buffer [st|] Hf; simpl; eauto; [lia|].
  destruct (find_end buffer st) as [e|] eqn:Ee; [|eauto].
  apply find_end_bounds in Ee.
  destruct (JSON_parse _) as [v|].
  - destruct (IH (skipn (e + 1) buffer) (indexOf LBRACE (skipn (e + 1) buffer) 0))
      as ([ws b] & ->); [|eauto].
    destruct (indexOf _ _ _) as [st'|] eqn:Ei; [|exact I].
    rewrite length_skipn. lia.
  - apply IH. destruct (indexOf _ _ _) as [st'|] eqn:Ei; [|exact I].
    apply indexOf_bounds in Ei. lia.
Qed.

Lemma feed_total (buffer : str) (c : chunk) : exists r, feed buffer c = Some r.
Proof.
  unfold feed. destruct (text c) as [t|]; [|eauto].
  apply drain_total. destruct (indexOf _ _ _); [lia|exact I].
Qed.

Lemma decode_total (responseStream : list chunk) :
  forall buffer, exists r, decode buffer responseStream = Some r.
Proof.
  induction responseStream as [|c rest IH]; intros buffer; simpl; [eauto|].
  destruct (feed_total buffer c) as ([vs b] & ->).
  destruct (IH b) as ([ws b'] & ->). eauto.
Qed.

(** The generator always produces its sequence of values. *)
Lemma parseJsonStream_total (responseStream : list chunk) :
  exists vs, parseJsonStream responseStream = Some vs.
Proof.
  unfold parseJsonStream. destruct (decode_total responseStream []) as ([vs b] & ->).
  eauto.
Qed.

(** *** The decoder does not depend on how the text is cut into chunks *)

Lemma Retried_resume buffer start vs b :
  Retried buffer start ->
  Drain buffer (indexOf LBRACE buffer 0) vs b -> Drain buffer start vs b.
Proof.
  induction 1 as [|st e _ IH He Hv]; intros H; [assumption|].
  specialize (IH H). inversion IH; subst; congruence.
Qed.

Lemma skipn_app_le (b x : str) (n : nat) :
  (n <= length b)%nat -> skipn n (b ++ x) = skipn n b ++ x.
Proof.
  intros H. rewrite skipn_app. now replace (n - length b)%nat with 0%nat by lia.
Qed.

(** If the loop on [b] yields [vs1] and leaves [b1], and the loop on
    [b1 ++ x] then yields [vs2], the loop on [b ++ x] yields both. *)
Lemma Drain_extend b start vs1 b1 :
  Drain b start vs1 b1 ->
  forall k x vs2 b2,
    start = indexOf LBRACE b k ->
    Retried (b ++ x) (indexOf LBRACE (b ++ x) k) ->
    Drain (b1 ++ x) (indexOf LBRACE (b1 ++ x) 0) vs2 b2 ->
    Drain (b ++ x) (indexOf LBRACE (b ++ x) k) (vs1 ++ vs2) b2.
Proof.
  induction 1 as [b|b st Hn|b st e v vs b' He Hv _ IH|b st e vs b' He Hv _ IH];
    intros k x vs2 b2 Hs Hr H2.
  - now apply Retried_resume.
  - now apply Retried_resume.
  - symmetry in Hs. rewrite (indexOf_app_some _ _ x _ Hs) in *.
    pose proof (find_end_bounds _ _ He) as Hb.
    simpl. eapply Drain_yield.
    + apply find_end_app_some. eassumption.
    + rewrite substring_app by lia. eassumption.
    + rewrite skipn_app_le by lia.
      apply (IH 0%nat); [reflexivity|constructor|assumption].
  - symmetry in Hs. rewrite (indexOf_app_some _ _ x _ Hs) in *.
    pose proof (find_end_bounds _ _ He) as Hb.
    assert (Hv' : JSON_parse (substring (b ++ x) st (e + 1)) = None)
      by (rewrite substring_app by lia; assumption).
    eapply Drain_skip; [apply find_end_app_some; eassumption|assumption|].
    apply IH; [reflexivity| |assumption].
    eapply Retried_next; eauto using find_end_app_some.
Qed.

Lemma decode_Drain (responseStream : list chunk) :
  forall seen vs0 buffer vs buffer',
    Drain seen (indexOf LBRACE seen 0) vs0 buffer ->
    decode buffer responseStream = Some (vs, buffer') ->
    Drain (seen ++ stream_text responseStream)
          (indexOf LBRACE (seen ++ stream_text responseStream) 0)
          (vs0 ++ vs) buffer'.
Proof.
  induction responseStream as [|c rest IH]; intros seen vs0 buffer vs buffer' H0 H;
    simpl in H.
  - injection H as <- <-. simpl. now rewrite !app_nil_r.
  - destruct (feed buffer c) as [[vs1 b1]|] eqn:Ef; [|discriminate].
    destruct (decode b1 rest) as [[ws b']|] eqn:Ed; [|discriminate].
    injection H as <- <-. unfold feed in Ef. simpl. destruct (text c) as [t|].
    + apply drain_sound in Ef. rewrite (app_assoc seen), (app_assoc vs0).
      apply IH with (buffer := b1); [|assumption].
      apply (Drain_extend H0 0 t); [reflexivity|constructor|assumption].
    + injection Ef as <- <-. simpl. now apply IH with (buffer := buffer).
Qed.

(** The values yielded over a stream are those the loop yields on the whole
    text of the stream. *)
Lemma parseJsonStream_Drain (responseStream : list chunk) (vs : list JSON) :
  parseJsonStream responseStream = Some vs <->
  exists buffer,
    Drain (stream_text responseStream)
          (indexOf LBRACE (stream_text responseStream) 0) vs buffer.
Proof.
  assert (Hfwd : forall ws, parseJsonStream responseStream = Some ws ->
            exists buffer, Drain (stream_text responseStream)
              (indexOf LBRACE (stream_text responseStream) 0) ws buffer).
  { unfold parseJsonStream. intros ws H.
    destruct (decode [] responseStream) as [[ws' b]|] eqn:E; [|discriminate].
    injection H as <-. exists b.
    apply (decode_Drain responseStream (seen := []) (vs0 := [])) in E; [assumption|].
    constructor. }
  split; [apply Hfwd|]. intros (b & H).
  destruct (parseJsonStream_total responseStream) as (ws & E).
  destruct (Hfwd _ E) as (b' & H'). destruct (Drain_det H H') as [-> _]. assumption.
Qed.

(** ** Well-formed objects in the buffer *)

Lemma good_shape (o : str) (v : JSON) :
  good o v -> exists body, o = LBRACE :: body ++ [RBRACE] /\ balanced body.
Proof. intros (Hp & Hw & Hv). destruct (@object_shape o v Hp Hw) as [_ H]. auto. Qed.

(** With its opening brace at [start], a well-formed object is yielded and
    the buffer is cut after it. *)
Lemma Drain_good (pre o rest : str) (v : JSON) (vs : list JSON) (b : str) :
  good o v ->
  Drain rest (indexOf LBRACE rest 0) vs b ->
  Drain (pre ++ o ++ rest) (Some (length pre)) (v :: vs) b.
Proof.
  intros Hg Hd. destruct (good_shape Hg) as (body & Eo & Hb).
  assert (He : find_end (pre ++ o ++ rest) (length pre)
               = Some (length pre + length body + 1)%nat).
  { rewrite Eo. simpl. rewrite <- app_assoc. simpl. now apply find_end_wrapped. }
  assert (Hl : (length pre + length body + 1 + 1 = length pre + length o)%nat).
  { rewrite Eo. simpl. rewrite length_app. simpl. lia. }
  eapply Drain_yield; [exact He| |]; rewrite Hl.
  - rewrite substring_middle. apply Hg.
  - now rewrite skipn_middle.
Qed.

Lemma good_first (o rest : str) (v : JSON) :
  good o v -> indexOf LBRACE (o ++ rest) 0 = Some 0%nat.
Proof. intros Hg. destruct (good_shape Hg) as (body & -> & _). reflexivity. Qed.

Lemma Drain_objects (objs : list str) (vals : list JSON) :
  Forall2 good objs vals ->
  Drain (concat objs) (indexOf LBRACE (concat objs) 0) vals [].
Proof.
  induction 1 as [|o v objs vals Hg _ IH]; simpl; [constructor|].
  rewrite (good_first _ Hg). now apply (Drain_good [] Hg).
Qed.

(** *** A trailing opening brace that is never closed *)

Lemma find_end_open (b p : str) :
  unclosed p = true -> find_end (b ++ LBRACE :: p) (length b) = None.
Proof.
  intros Hp. unfold find_end. rewrite skipn_app, skipn_all, Nat.sub_diag.
  simpl skipn. rewrite app_nil_l, scan_first_brace. apply scan_open; [assumption|lia].
Qed.

Lemma find_end_none_open (b p : str) (k st : nat) :
  indexOf LBRACE b k = Some st -> find_end b st = None -> unclosed p = true ->
  find_end (b ++ LBRACE :: p) st = None.
Proof.
  intros Hi He Hp. pose proof (indexOf_bounds _ _ _ Hi) as Hb.
  apply indexOf_found in Hi. destruct Hi as (post & Hpost).
  unfold find_end in *. rewrite skipn_app_le by lia. rewrite Hpost in *.
  simpl app. rewrite scan_first_brace in *.
  destruct (scan_none_app post He) as (bc' & Hbc' & Hx); [lia..|].
  rewrite Hx. cbn [scan]. change (LBRACE =? LBRACE) with true. cbv beta iota.
  replace (bc' + 1 =? 0)%Z with false by (symmetry; apply Z.eqb_neq; lia).
  cbn [andb]. apply scan_open; [assumption|lia].
Qed.

(** The loop yields on [b ++ LBRACE :: p] what it yields on [b] when the
    brace that opens [p] is never closed. *)
Lemma Drain_open_suffix b start vs b1 :
  Drain b start vs b1 ->
  forall k p,
    start = indexOf LBRACE b k -> (k <= length b)%nat -> unclosed p = true ->
    Drain (b ++ LBRACE :: p) (indexOf LBRACE (b ++ LBRACE :: p) k) vs
          (b1 ++ LBRACE :: p).
Proof.
  induction 1 as [b|b st Hn|b st e v vs b' He Hv _ IH|b st e vs b' He Hv _ IH];
    intros k p Hs Hk Hp; symmetry in Hs.
  - rewrite (indexOf_none_app _ _ _ Hs Hk). apply Drain_break.
    now apply find_end_open.
  - rewrite (indexOf_app_some _ _ (LBRACE :: p) _ Hs). apply Drain_break.
    now apply find_end_none_open with (k := k).
  - rewrite (indexOf_app_some _ _ (LBRACE :: p) _ Hs).
    pose proof (find_end_bounds _ _ He) as Hb.
    eapply Drain_yield.
    + apply find_end_app_some. eassumption.
    + rewrite substring_app by lia. eassumption.
    + rewrite skipn_app_le by lia. apply IH; [reflexivity|lia|assumption].
  - rewrite (indexOf_app_some _ _ (LBRACE :: p) _ Hs).
    pose proof (find_end_bounds _ _ He) as Hb.
    eapply Drain_skip.
    + apply find_end_app_some. eassumption.
    + rewrite substring_app by lia. assumption.
    + apply IH; [reflexivity|lia|assumption].
Qed.

(** * The claims *)

(** ** The fragment decoder *)

(** X1.  The decoder yields, however the text is cut into chunks, what it yields
    on the text received in one chunk. *)
Lemma parseJsonStream_whole (responseStream : list chunk) :
  parseJsonStream responseStream
  = parseJsonStream [mkChunk (Some (stream_text responseStream))].
Proof.
  destruct (parseJsonStream_total responseStream) as (vs & E). rewrite E.
  symmetry. apply parseJsonStream_Drain. apply parseJsonStream_Drain in E.
  simpl. now rewrite app_nil_r.
Qed.

(** C1, as amended (decoder completeness).  For every concatenation of K
    well-formed JSON objects none of whose member names or string values
    contains a brace, and every way of cutting that text into chunks (also
    inside string literals, also with chunks that carry no text),
    parseJsonStream yields exactly the K values of the objects, in their
    order. *)
Theorem decoder_completeness (objs : list str) (vals : list JSON)
  (responseStream : list chunk) :
  Forall2 good objs vals ->
  stream_text responseStream = concat objs ->
  parseJsonStream responseStream = Some vals.
Proof.
  intros Hg Ht. apply parseJsonStream_Drain. exists []. rewrite Ht.
  now apply Drain_objects.
Qed.

Lemma decoder_completeness_witness :
  parseJsonStream
    [mkChunk (Some (jtxt "{'a':1}{'b':{'c':'x"));
     mkChunk None;
     mkChunk (Some (jtxt " y'}, 'd':[true]}"))]
  = Some [JObject [(txt "a", JNumber (mkNumber false 1 0))];
          JObject [(txt "b", JObject [(txt "c", JString (txt "x y"))]);
                   (txt "d", JArray [JBool true])]].
Proof.
  apply (@decoder_completeness
           [jtxt "{'a':1}"; jtxt "{'b':{'c':'x y'}, 'd':[true]}"]).
  - repeat constructor.
  - reflexivity.
Defined.

(** C1, as stated, fails: the object whose member a is the one-character
    string made of a closing brace is well formed, and the decoder yields
    nothing for it. *)
Lemma decoder_completeness_counterexample :
  ~ (forall (objs : list str) (vals : list JSON) (responseStream : list chunk),
       Forall2 (fun o v => JSON_parse o = Some v /\ wrapped o = true) objs vals ->
       stream_text responseStream = concat objs ->
       parseJsonStream responseStream = Some vals).
Proof.
  intros H.
  specialize (H [jtxt "{'a':'}'}"] [JObject [(txt "a", JString (txt "}"))]]
                [mkChunk (Some (jtxt "{'a':'}'}"))]).
  assert (E : parseJsonStream [mkChunk (Some (jtxt "{'a':'}'}"))] = Some [])
    by reflexivity.
  rewrite H in E; [discriminate| |reflexivity].
  repeat constructor.
Qed.

(** *** Malformed text between two objects *)

Lemma bal_none_split (p : str) :
  forall d, bal d p = None ->
    exists body rest, p = body ++ RBRACE :: rest /\ bal d body = Some 0%nat.
Proof.
  induction p as [|c p IH]; intros d H; simpl in H; [discriminate|].
  destruct (N.eqb_spec c LBRACE) as [->|Hl].
  { destruct (IH _ H) as (body & rest & -> & Hb).
    exists (LBRACE :: body), rest. split; [reflexivity|exact Hb]. }
  destruct (N.eqb_spec c RBRACE) as [->|Hr].
  { destruct d as [|d].
    - exists [], p. split; reflexivity.
    - destruct (IH _ H) as (body & rest & -> & Hb).
      exists (RBRACE :: body), rest. split; [reflexivity|exact Hb]. }
  destruct (IH _ H) as (body & rest & -> & Hb).
  exists (c :: body), rest. split; [reflexivity|]. simpl.
  destruct (N.eqb_spec c LBRACE); [contradiction|].
  destruct (N.eqb_spec c RBRACE); [contradiction|]. exact Hb.
Qed.

Lemma all_closed_skipn (m : str) :
  forall k, all_closed m = true -> all_closed (skipn k m) = true.
Proof.
  induction m as [|c m IH]; intros [|k] H; try exact H.
  simpl in H. apply andb_true_iff in H. destruct H as [_ H]. simpl. now apply IH.
Qed.

(** an opening brace that is closed is the start of a span for the scanner *)
Lemma all_closed_find_end (b post : str) (st : nat) :
  skipn st b = LBRACE :: post -> all_closed (skipn st b) = true ->
  exists e, find_end b st = Some e.
Proof.
  intros Hs Hc. rewrite Hs in Hc. simpl in Hc.
  apply andb_true_iff in Hc. destruct Hc as [Hc _].
  change (LBRACE =? LBRACE) with true in Hc. apply negb_true_iff in Hc.
  unfold unclosed in Hc. destruct (bal 0 post) eqn:Eb; [discriminate|].
  destruct (bal_none_split _ _ Eb) as (body & rest & -> & Hb).
  assert (Hl : length (firstn st b) = st).
  { apply firstn_length_le. apply Nat.lt_le_incl.
    destruct (Nat.lt_ge_cases st (length b)) as [Hlt|Hge]; [exact Hlt|].
    rewrite skipn_all2 in Hs by exact Hge. discriminate. }
  exists (st + length body + 1)%nat.
  rewrite <- (firstn_skipn st b), Hs. rewrite <- Hl at 2 3.
  now apply find_end_wrapped.
Qed.

(** After a text whose opening braces are all closed, the decoder goes on
    with the object that follows. *)
Lemma Drain_closed (o2 : str) (v2 : JSON) b start vs b1 :
  good o2 v2 ->
  Drain b start vs b1 ->
  forall k,
    start = indexOf LBRACE b k -> (k <= length b)%nat ->
    all_closed (skipn k b) = true ->
    Drain (b ++ o2) (indexOf LBRACE (b ++ o2) k) (vs ++ [v2]) [].
Proof.
  intros H2.
  induction 1 as [b|b st Hn|b st e v vs b' He Hv _ IH|b st e vs b' He Hv _ IH];
    intros k Hs Hk Hc; symmetry in Hs.
  - destruct (good_shape H2) as (body & Eo & _).
    rewrite Eo at 2. rewrite (indexOf_none_app _ _ _ Hs Hk).
    rewrite <- (app_nil_r o2). apply (Drain_good b H2). constructor.
  - exfalso. pose proof (indexOf_bounds _ _ _ Hs) as Hb.
    destruct (indexOf_found _ _ _ Hs) as (post & Hpost).
    assert (Hc' : all_closed (skipn st b) = true).
    { replace st with ((st - k) + k)%nat by lia. rewrite <- skipn_skipn.
      now apply all_closed_skipn. }
    destruct (all_closed_find_end _ _ Hpost Hc') as (e & He). congruence.
  - rewrite (indexOf_app_some _ _ o2 _ Hs).
    pose proof (find_end_bounds _ _ He) as Hb.
    pose proof (indexOf_bounds _ _ _ Hs) as Hb'.
    simpl app. eapply Drain_yield.
    + apply find_end_app_some. eassumption.
    + rewrite substring_app by lia. eassumption.
    + rewrite skipn_app_le by lia. apply IH; [reflexivity|lia|].
      simpl skipn. replace (e + 1)%nat with ((e + 1 - k) + k)%nat by lia.
      rewrite <- skipn_skipn. now apply all_closed_skipn.
  - rewrite (indexOf_app_some _ _ o2 _ Hs).
    pose proof (find_end_bounds _ _ He) as Hb.
    pose proof (indexOf_bounds _ _ _ Hs) as Hb'.
    eapply Drain_skip.
    + apply find_end_app_some. eassumption.
    + rewrite substring_app by lia. assumption.
    + apply IH; [reflexivity|lia|].
      replace (st + 1)%nat with ((st + 1 - k) + k)%nat by lia.
      rewrite <- skipn_skipn. now apply all_closed_skipn.
Qed.

Lemma nth_hd_skipn (l : str) :
  forall n, nth n l 0 = hd 0 (skipn n l).
Proof. induction l as [|c l IH]; intros [|n]; simpl; auto. Qed.

(** nothing is yielded from a text none of whose spans is valid JSON *)
Lemma Drain_no_valid_span b start vs b1 :
  Drain b start vs b1 ->
  forall k, start = indexOf LBRACE b k -> no_valid_span b = true -> vs = [].
Proof.
  induction 1 as [b|b st Hn|b st e v vs b' He Hv _ IH|b st e vs b' He Hv _ IH];
    intros k Hs Hn'; try reflexivity.
  - exfalso. symmetry in Hs. pose proof (indexOf_bounds _ _ _ Hs) as Hb.
    destruct (indexOf_found _ _ _ Hs) as (post & Hpost).
    unfold no_valid_span in Hn'. rewrite forallb_forall in Hn'.
    specialize (Hn' st). unfold span_at in Hn'.
    rewrite nth_hd_skipn, Hpost in Hn'. simpl hd in Hn'.
    change (LBRACE =? LBRACE) with true in Hn'. cbv iota in Hn'.
    rewrite He, Hv in Hn'.
    assert (F : false = true) by (apply Hn'; apply in_seq; lia).
    discriminate.
  - now apply (IH (st + 1)%nat).
Qed.

Lemma scan_shift (l : str) :
  forall i st bc, scan l (S i) (S st) bc = option_map S (scan l i st bc).
Proof.
  induction l as [|c l IH]; intros i st bc; [reflexivity|].
  cbn [scan]. change (S st <? S i)%nat with (st <? i)%nat.
  destruct (_ && _); [reflexivity|apply IH].
Qed.

Lemma find_end_cons (x : N) (t : str) (st : nat) :
  find_end (x :: t) (S st) = option_map S (find_end t st).
Proof. unfold find_end. simpl skipn. apply scan_shift. Qed.

Lemma index_of_shift (c : N) (l : str) :
  forall i, index_of c l (S i) = option_map S (index_of c l i).
Proof.
  induction l as [|x l IH]; intros i; [reflexivity|]. cbn [index_of].
  destruct (x =? c); [reflexivity|apply IH].
Qed.

Lemma indexOf_cons (c x : N) (t : str) (k : nat) :
  indexOf c (x :: t) (S k) = option_map S (indexOf c t k).
Proof. unfold indexOf. simpl skipn. apply index_of_shift. Qed.

Lemma substring_cons (x : N) (t : str) (a b : nat) :
  substring (x :: t) (S a) (S b) = substring t a b.
Proof. reflexivity. Qed.

(** The search from the next opening brace after the start does not look
    at the text before it: dropping the first character of the buffer
    changes no value yielded. *)
Lemma Drain_drop_first b start vs b1 :
  Drain b start vs b1 ->
  forall x t k,
    b = x :: t -> start = indexOf LBRACE (x :: t) (S k) ->
    exists b1', Drain t (indexOf LBRACE t k) vs b1'.
Proof.
  induction 1 as [b|b st Hn|b st e v vs b' He Hv Hd _|b st e vs b' He Hv _ IH];
    intros x t k -> Hs; rewrite indexOf_cons in Hs;
    destruct (indexOf LBRACE t k) as [st'|]; try discriminate Hs.
  - exists t. constructor.
  - injection Hs as ->. rewrite find_end_cons in Hn.
    exists t. apply Drain_break. destruct (find_end t st'); [discriminate|reflexivity].
  - injection Hs as ->. rewrite find_end_cons in He.
    destruct (find_end t st') as [e'|] eqn:Ee; [|discriminate].
    injection He as <-. exists b'. eapply Drain_yield; [exact Ee|exact Hv|exact Hd].
  - injection Hs as ->. rewrite find_end_cons in He.
    destruct (find_end t st') as [e'|] eqn:Ee; [|discriminate].
    injection He as <-.
    destruct (IH x t (st' + 1)%nat eq_refl eq_refl) as (b1' & Hd).
    exists b1'. eapply Drain_skip; [exact Ee|exact Hv|exact Hd].
Qed.

(** C6, as amended (decoder resilience).  Between two well-formed objects
    (no brace in their strings) stands a malformed text in which every
    opening brace is closed: brace-balanced but not valid, or with closing
    braces in excess.  For every way of cutting the text into chunks the
    decoder yields the value of the first object, then what it yields on the
    malformed text alone, then the value of the second object: the malformed
    text never stops the decoding of what follows.  When none of the spans
    the scanner delimits in the malformed text is valid JSON, nothing is
    yielded for it: exactly the two values are yielded, in order.  A span
    that fails to parse is skipped by advancing the search to the next
    opening brace after its start: the decoder yields on the text that
    starts with such a span what it yields on the text after the opening
    brace of the span. *)
Theorem decoder_resilience (o1 o2 malformed : str) (v1 v2 : JSON)
  (responseStream : list chunk) :
  good o1 v1 -> good o2 v2 ->
  all_closed malformed = true ->
  stream_text responseStream = o1 ++ malformed ++ o2 ->
  exists inner,
    parseJsonStream responseStream = Some (v1 :: inner ++ [v2]) /\
    parseJsonStream [mkChunk (Some malformed)] = Some inner /\
    (no_valid_span malformed = true -> inner = []) /\
    (forall body rest,
       malformed = LBRACE :: body ++ RBRACE :: rest -> balanced body ->
       JSON_parse (LBRACE :: body ++ [RBRACE]) = None ->
       parseJsonStream [mkChunk (Some (body ++ RBRACE :: rest))] = Some inner).
Proof.
  intros H1 H2 Hc Ht.
  destruct (parseJsonStream_total [mkChunk (Some malformed)]) as (inner & Ei).
  exists inner. pose proof Ei as Hd. apply parseJsonStream_Drain in Hd.
  simpl stream_text in Hd. rewrite app_nil_r in Hd. destruct Hd as (bm & Hd).
  split; [|split; [exact Ei|split]].
  - apply parseJsonStream_Drain. exists []. rewrite Ht.
    rewrite (good_first _ H1). apply (Drain_good [] H1).
    eapply Drain_closed with (k := 0%nat);
      [exact H2|exact Hd|reflexivity|simpl; lia|exact Hc].
  - intros Hn. eapply Drain_no_valid_span with (k := 0%nat);
      [exact Hd|reflexivity|exact Hn].
  - intros body rest -> Hb Hp. apply parseJsonStream_Drain.
    simpl stream_text. rewrite app_nil_r.
    pose proof (@find_end_wrapped [] body rest Hb) as He.
    simpl in He.
    assert (Hsub : substring (LBRACE :: body ++ RBRACE :: rest) 0 (length body + 1 + 1)
                   = LBRACE :: body ++ [RBRACE]).
    { replace (length body + 1 + 1)%nat
        with (length (@nil N) + length (LBRACE :: body ++ [RBRACE]))%nat
        by (simpl; rewrite length_app; simpl; lia).
      pose proof (substring_middle [] (LBRACE :: body ++ [RBRACE]) rest) as Hm.
      simpl app in Hm. rewrite <- app_assoc in Hm. exact Hm. }
    change (indexOf LBRACE (LBRACE :: body ++ RBRACE :: rest) 0) with (Some 0%nat) in Hd.
    inversion Hd as [|? ? Hn|? ? e v vs ? Hf Hv Hnext|? ? e vs ? Hf Hv Hnext]; subst.
    + congruence.
    + rewrite He in Hf. injection Hf as <-. rewrite Hsub in Hv. congruence.
    + eapply Drain_drop_first with (k := 0%nat); [exact Hnext|reflexivity|reflexivity].
Qed.

Lemma decoder_resilience_witness :
  parseJsonStream
    [mkChunk (Some (jtxt "{'a':1}{x{")); mkChunk (Some (jtxt "y}z}} {'s':'}'}{'b"));
     mkChunk (Some (jtxt "':2}"))]
  = Some [JObject [(txt "a", JNumber (mkNumber false 1 0))];
          JObject [(txt "b", JNumber (mkNumber false 2 0))]] /\
  parseJsonStream
    [mkChunk (Some (jtxt "{'a':1}{x{'c'")); mkChunk (Some (jtxt ":3}z}{'b':2}"))]
  = Some [JObject [(txt "a", JNumber (mkNumber false 1 0))];
          JObject [(txt "c", JNumber (mkNumber false 3 0))];
          JObject [(txt "b", JNumber (mkNumber false 2 0))]].
Proof.
  split.
  - destruct (@decoder_resilience (jtxt "{'a':1}") (jtxt "{'b':2}")
                (jtxt "{x{y}z}} {'s':'}'}")
                (JObject [(txt "a", JNumber (mkNumber false 1 0))])
                (JObject [(txt "b", JNumber (mkNumber false 2 0))])
                [mkChunk (Some (jtxt "{'a':1}{x{"));
                 mkChunk (Some (jtxt "y}z}} {'s':'}'}{'b"));
                 mkChunk (Some (jtxt "':2}"))])
      as (inner & E & _ & Hn & _).
    + repeat constructor.
    + repeat constructor.
    + reflexivity.
    + reflexivity.
    + rewrite E, (Hn eq_refl). reflexivity.
  - destruct (@decoder_resilience (jtxt "{'a':1}") (jtxt "{'b':2}")
                (jtxt "{x{'c':3}z}")
                (JObject [(txt "a", JNumber (mkNumber false 1 0))])
                (JObject [(txt "b", JNumber (mkNumber false 2 0))])
                [mkChunk (Some (jtxt "{'a':1}{x{'c'"));
                 mkChunk (Some (jtxt ":3}z}{'b':2}"))])
      as (inner & E & _ & _ & Hr).
    + repeat constructor.
    + repeat constructor.
    + reflexivity.
    + reflexivity.
    + rewrite E.
      specialize (Hr (jtxt "x{'c':3}z") [] eq_refl eq_refl eq_refl).
      vm_compute in Hr. injection Hr as <-. reflexivity.
Defined.

(** C6, as stated, fails for an unbalanced malformed object: after an
    opening brace that is never closed the decoder yields nothing more. *)
Lemma decoder_resilience_counterexample :
  ~ (forall (o1 o2 malformed : str) (v1 v2 : JSON) (responseStream : list chunk),
       good o1 v1 -> good o2 v2 -> JSON_parse malformed = None ->
       stream_text responseStream = o1 ++ malformed ++ o2 ->
       parseJsonStream responseStream = Some [v1; v2]).
Proof.
  intros H.
  specialize (H (jtxt "{'a':1}") (jtxt "{'b':2}") (jtxt "{'x':")
                (JObject [(txt "a", JNumber (mkNumber false 1 0))])
                (JObject [(txt "b", JNumber (mkNumber false 2 0))])
                [mkChunk (Some (jtxt "{'a':1}{'x':{'b':2}"))]).
  assert (E : parseJsonStream [mkChunk (Some (jtxt "{'a':1}{'x':{'b':2}"))]
              = Some [JObject [(txt "a", JNumber (mkNumber false 1 0))]])
    by reflexivity.
  rewrite H in E; [discriminate| | |reflexivity|reflexivity]; repeat constructor.
Qed.

(** C7 (no value on truncation).  When the text of the stream ends with an
    opening brace that is never closed, the decoder yields exactly what it
    yields on the text before that brace: no value is yielded for the
    trailing partial object, whatever the cut into chunks, and nothing is
    yielded when the stream ends. *)
Theorem decoder_truncation (responseStream : list chunk) (seen partial : str) :
  unclosed partial = true ->
  stream_text responseStream = seen ++ LBRACE :: partial ->
  parseJsonStream responseStream = parseJsonStream [mkChunk (Some seen)].
Proof.
  intros Hp Ht.
  destruct (parseJsonStream_total [mkChunk (Some seen)]) as (vs & E). rewrite E.
  apply parseJsonStream_Drain in E. destruct E as (b & E).
  simpl in E. rewrite app_nil_r in E.
  apply parseJsonStream_Drain. exists (b ++ LBRACE :: partial). rewrite Ht.
  apply (@Drain_open_suffix _ _ _ _ E 0%nat partial); [reflexivity|lia|assumption].
Qed.

Lemma decoder_truncation_witness :
  parseJsonStream
    [mkChunk (Some (jtxt "{'a':1}{'b':{'c'")); mkChunk (Some (jtxt ":2},'d"))]
  = parseJsonStream [mkChunk (Some (jtxt "{'a':1}"))].
Proof.
  apply (@decoder_truncation _ (jtxt "{'a':1}") (jtxt "'b':{'c':2},'d")).
  - reflexivity.
  - reflexivity.
Defined.

(** A proper, non-empty prefix of a well-formed object opens a brace that
    it does not close. *)
Lemma good_prefix_unclosed (o partial rest : str) (v : JSON) :
  good o v -> o = partial ++ rest -> partial <> [] -> rest <> [] ->
  exists p, partial = LBRACE :: p /\ unclosed p = true.
Proof.
  intros Hg Eo Hp Hr. destruct (good_shape Hg) as (body & Eb & Hb).
  destruct partial as [|c p]; [congruence|].
  rewrite Eb in Eo. simpl in Eo. injection Eo as <- Eo. exists p. split; [reflexivity|].
  destruct (@exists_last _ rest Hr) as (rest' & d & ->).
  rewrite app_assoc in Eo. apply app_inj_tail in Eo. destruct Eo as [-> _].
  unfold balanced in Hb. rewrite bal_app in Hb. unfold unclosed.
  destruct (bal 0 p); [reflexivity|discriminate].
Qed.

(** X5.  The stream of K well-formed objects cut in the middle of one more: the
    K values are yielded and nothing for the object cut. *)
Lemma truncated_objects (objs : list str) (vals : list JSON)
  (o partial rest : str) (v : JSON) (responseStream : list chunk) :
  Forall2 good objs vals ->
  good o v -> o = partial ++ rest -> partial <> [] -> rest <> [] ->
  stream_text responseStream = concat objs ++ partial ->
  parseJsonStream responseStream = Some vals.
Proof.
  intros Hobjs Hg Eo Hp Hr Ht.
  destruct (good_prefix_unclosed Hg Eo Hp Hr) as (p & -> & Hu).
  apply parseJsonStream_Drain. exists ([] ++ LBRACE :: p). rewrite Ht.
  apply (@Drain_open_suffix _ _ _ _ (Drain_objects Hobjs) 0%nat p);
    [reflexivity|lia|assumption].
Qed.

(** ** The response extractor *)

(** C5, as amended (the order of the attempts).  extractJson always returns
    a value, null on failure.  When the whole text parses, the value parsed
    is returned.  When it does not and the text holds a json code fence,
    the fence alone decides: the result is the value of its inner text (of
    the whole fence when the inner text is empty), null when that is not
    JSON, and the bracket span is not tried.  When the text holds neither a
    fence nor a bracket span, the result is null. *)
Theorem extractJson_attempts (t : str) :
  (forall v, JSON_parse t = Some v -> extractJson t = v) /\
  (forall m0 m1, JSON_parse t = None -> match_fence t = Some (m0, m1) ->
     extractJson t = parse_or_null (str_or m1 m0)) /\
  (JSON_parse t = None -> match_fence t = None -> match_array t = None ->
     extractJson t = JNull).
Proof.
  unfold extractJson, parse_or_null. repeat split.
  - intros v ->. reflexivity.
  - intros m0 m1 -> ->. reflexivity.
  - intros -> -> ->. reflexivity.
Qed.

Lemma extractJson_attempts_witness :
  extractJson (jtxt "{'a':1}") = JObject [(txt "a", JNumber (mkNumber false 1 0))] /\
  extractJson FENCED_ARRAY
  = JArray [JNumber (mkNumber false 1 0); JNumber (mkNumber false 2 0)] /\
  extractJson (txt "no json here") = JNull.
Proof.
  split; [|split].
  - apply (proj1 (extractJson_attempts (jtxt "{'a':1}"))). reflexivity.
  - apply (proj1 (proj2 (extractJson_attempts FENCED_ARRAY))
             (FENCE_JSON ++ [10] ++ txt "[1,2]" ++ [10] ++ FENCE)
             ([10] ++ txt "[1,2]" ++ [10])); reflexivity.
  - apply (proj2 (proj2 (extractJson_attempts (txt "no json here")))); reflexivity.
Defined.

(** C5, as stated, fails: on a text with a fence whose inner text is not
    JSON, followed by an empty array, the third attempt would succeed but
    null is returned. *)
Lemma extractJson_attempts_counterexample :
  ~ (forall t m0 m1 a0 a1 v,
       JSON_parse t = None ->
       match_fence t = Some (m0, m1) -> JSON_parse m1 = None ->
       match_array t = Some (a0, a1) -> JSON_parse a0 = Some v ->
       extractJson t = v).
Proof.
  intros H.
  specialize (H (FENCE_JSON ++ txt " oops" ++ FENCE ++ txt " []")
                (FENCE_JSON ++ txt " oops" ++ FENCE) (txt " oops")
                (txt "[]") [] (JArray [])
                eq_refl eq_refl eq_refl eq_refl eq_refl).
  discriminate H.
Qed.

(** C4 fails on the code: on the text x [1,2] y no attempt before the third
    succeeds, the span from the first opening bracket to the last closing
    bracket is the array [1,2], and extractJson returns null, because it
    parses the text between the brackets, 1,2. *)
Theorem extractJson_bracket_span :
  let t := txt "x [1,2] y" in
  JSON_parse t = None /\
  match_fence t = None /\
  match_array t = Some (txt "[1,2]", txt "1,2") /\
  JSON_parse (txt "[1,2]")
  = Some (JArray [JNumber (mkNumber false 1 0); JNumber (mkNumber false 2 0)]) /\
  JSON_parse (txt "1,2") = None /\
  extractJson t = JNull.
Proof. repeat split. Qed.

(** ** The planning step *)

Lemma ApplyStyles_new (labels : list str) prev sessionId basePrompt answers baseTime :
  length labels = 3%nat ->
  (forall s, In s prev -> Session.id s <> sessionId) ->
  exists sess,
    apply_update (ApplyStyles sessionId labels)
                 (prev ++ [newSession sessionId basePrompt answers baseTime])
    = prev ++ [sess] /\
    map Artifact.styleName (Session.artifacts sess) = map Some labels.
Proof.
  intros Hlen Hprev.
  destruct labels as [|x [|y [|z [|w r]]]]; try discriminate.
  eexists. split.
  - simpl. rewrite map_app. simpl. rewrite str_eqb_refl. simpl. f_equal.
    rewrite <- (map_id prev) at 2. apply map_ext_in. intros s Hs.
    destruct (str_eqb (Session.id s) sessionId) eqn:E; [|reflexivity].
    apply str_eqb_eq in E. now apply Hprev in Hs.
  - reflexivity.
Qed.

(** C2, as amended (style labels).  The planning step always ends with
    exactly three labels: when fewer than three are returned they are all
    dropped and the three labels of the fixed fallback list are used; when
    three or more are returned the first three are kept.  These are the
    labels set on the three artifacts of the session, by position. *)
Theorem planStyles_labels (generatedStyles : list str) :
  length (planStyles generatedStyles) = 3%nat /\
  ((length generatedStyles < 3)%nat -> planStyles generatedStyles = FALLBACK_STYLES) /\
  ((3 <= length generatedStyles)%nat ->
     planStyles generatedStyles = firstn 3 generatedStyles) /\
  (forall prev sessionId basePrompt answers baseTime,
     (forall s, In s prev -> Session.id s <> sessionId) ->
     exists sess,
       apply_update (ApplyStyles sessionId (planStyles generatedStyles))
                    (prev ++ [newSession sessionId basePrompt answers baseTime])
       = prev ++ [sess] /\
       map Artifact.styleName (Session.artifacts sess)
       = map Some (planStyles generatedStyles)).
Proof.
  assert (Hp : length (planStyles generatedStyles) = 3%nat).
  { unfold planStyles.
    destruct (Nat.ltb_spec (length generatedStyles) 3); [reflexivity|].
    rewrite length_firstn. lia. }
  split; [exact Hp|]. split; [|split].
  - unfold planStyles. intros H. apply Nat.ltb_lt in H. now rewrite H.
  - unfold planStyles. intros H. apply Nat.ltb_ge in H. now rewrite H.
  - intros prev sid p a t Hprev. now apply ApplyStyles_new.
Qed.

Lemma planStyles_labels_witness :
  planStyles [txt "A"] = FALLBACK_STYLES /\
  planStyles [txt "A"; txt "B"; txt "C"; txt "D"] = [txt "A"; txt "B"; txt "C"] /\
  (exists sess,
     apply_update (ApplyStyles (txt "s1") (planStyles [txt "A"])) ([] ++ [SESSION_1])
     = [] ++ [sess] /\
     map Artifact.styleName (Session.artifacts sess)
     = map Some (planStyles [txt "A"])).
Proof.
  split; [|split].
  - apply (proj1 (proj2 (planStyles_labels [txt "A"]))). simpl. lia.
  - apply (proj1 (proj2 (proj2 (planStyles_labels
                                  [txt "A"; txt "B"; txt "C"; txt "D"])))).
    simpl. lia.
  - apply (proj2 (proj2 (proj2 (planStyles_labels [txt "A"])))
             [] (txt "s1") (txt "a card") [] 0).
    intros s [].
Defined.

(** C2, as stated, fails: a single returned label is not kept. *)
Lemma planStyles_labels_counterexample :
  ~ (exists fallback1 fallback2,
       planStyles [txt "A"] = [txt "A"; fallback1; fallback2]).
Proof. intros (f1 & f2 & H). discriminate H. Qed.

(** ** The artifact store *)

Lemma nth_error_mapi {A B} (f : nat -> A -> B) (l : list A) :
  forall k i, nth_error (mapi f k l) i = option_map (f (k + i)%nat) (nth_error l i).
Proof.
  induction l as [|x l IH]; intros k [|i]; simpl; try reflexivity.
  - now rewrite Nat.add_0_r.
  - rewrite IH. now replace (S k + i)%nat with (k + S i)%nat by lia.
Qed.

Lemma art_step_id sid art u : Artifact.id (art_step sid art u) = Artifact.id art.
Proof.
  destruct u; simpl; try reflexivity; destruct (str_eqb sid _); try reflexivity;
    unfold on_artifact; destruct (str_eqb (Artifact.id art) _); reflexivity.
Qed.

Lemma art_step_other sid art u sessionId artifactId :
  (u = Fail sessionId artifactId
   \/ (exists h, u = UpdateHtml sessionId artifactId h)
   \/ (exists h, u = Finalize sessionId artifactId h)) ->
  Artifact.id art <> artifactId \/ sid <> sessionId ->
  art_step sid art u = art.
Proof.
  intros Hu Hne.
  assert (E : str_eqb sid sessionId && str_eqb (Artifact.id art) artifactId = false).
  { apply andb_false_iff. destruct Hne as [H|H]; [right|left];
      apply not_true_is_false; intros E; apply str_eqb_eq in E; contradiction. }
  destruct Hu as [->|[(h & ->)|(h & ->)]]; simpl; unfold on_artifact;
    destruct (str_eqb sid sessionId); try reflexivity;
    simpl in E; now rewrite E.
Qed.

Lemma keyed_session (u : update) prev i sess :
  keyed u = true -> nth_error prev i = Some sess ->
  exists sess',
    nth_error (apply_update u prev) i = Some sess' /\
    Session.id sess' = Session.id sess /\
    Session.artifacts sess'
    = map (fun art => art_step (Session.id sess) art u) (Session.artifacts sess).
Proof.
  intros Hk Hi.
  destruct u; try discriminate; simpl; rewrite nth_error_map, Hi; simpl;
    unfold on_session; destruct (str_eqb (Session.id sess) _);
    eexists; (split; [reflexivity|]); (split; [reflexivity|]);
    simpl; try reflexivity; now rewrite map_id.
Qed.

Lemma run_keyed (us : list update) :
  forall prev i sess,
    forallb keyed us = true -> nth_error prev i = Some sess ->
    exists sess',
      nth_error (run us prev) i = Some sess' /\
      Session.id sess' = Session.id sess /\
      Session.artifacts sess'
      = map (fun art => fold_left (art_step (Session.id sess)) us art)
            (Session.artifacts sess).
Proof.
  induction us as [|u us IH]; intros prev i sess Hk Hi; simpl in *.
  - exists sess. now rewrite map_id.
  - apply andb_true_iff in Hk. destruct Hk as [Hu Hk].
    destruct (@keyed_session u prev i sess Hu Hi) as (s1 & H1 & Hid & Ha).
    destruct (IH _ _ _ Hk H1) as (s2 & H2 & Hid2 & Ha2).
    exists s2. split; [exact H2|]. split; [congruence|].
    rewrite Ha2, Ha, map_map, Hid. reflexivity.
Qed.

Lemma stream_updates_spec sessionId artifactId (chunks : list chunk) :
  forall acc us acc',
    stream_updates sessionId artifactId acc chunks = (us, acc') ->
    acc' = acc ++ stream_text chunks /\
    Forall (fun u => exists h, u = UpdateHtml sessionId artifactId h) us.
Proof.
  induction chunks as [|c rest IH]; intros acc us acc' H; simpl in H.
  - injection H as <- <-. simpl. now rewrite app_nil_r.
  - simpl. destruct (text c) as [t|].
    + destruct (stream_updates _ _ (acc ++ t) rest) as [us1 acc1] eqn:E.
      injection H as <- <-. apply IH in E. destruct E as [-> Hus].
      split; [now rewrite app_assoc|]. constructor; eauto.
    + now apply IH.
Qed.

(** the stream updates of a task change the html of its artifact only *)
Lemma fold_stream_updates sid sessionId artifactId (us : list update) :
  Forall (fun u => exists h, u = UpdateHtml sessionId artifactId h) us ->
  forall art, exists h,
    fold_left (art_step sid) us art = with_html art h.
Proof.
  induction 1 as [|u us (h & ->) _ IH]; intros art; simpl.
  - exists (Artifact.html art). now destruct art.
  - destruct (IH (if str_eqb sid sessionId
                  then on_artifact artifactId (fun a => with_html a h) art
                  else art)) as (h' & ->).
    destruct (str_eqb sid sessionId); [|eauto].
    unfold on_artifact. destruct (str_eqb (Artifact.id art) artifactId); [|eauto].
    exists h'. reflexivity.
Qed.

Lemma generateArtifact_keyed sessionId artifactId chunks e :
  forallb keyed (generateArtifact sessionId artifactId chunks e) = true.
Proof.
  unfold generateArtifact.
  destruct (stream_updates _ _ _ _) as [us acc] eqn:E.
  apply stream_updates_spec in E. destruct E as [_ Hus].
  assert (Hk : forallb keyed us = true).
  { apply forallb_forall. intros u Hu. rewrite Forall_forall in Hus.
    destruct (Hus _ Hu) as (h & ->). reflexivity. }
  destruct e; rewrite forallb_app, Hk; reflexivity.
Qed.

Lemma generateArtifact_targets sessionId artifactId chunks e :
  Forall (fun u => u = Fail sessionId artifactId
                   \/ (exists h, u = UpdateHtml sessionId artifactId h)
                   \/ (exists h, u = Finalize sessionId artifactId h))
         (generateArtifact sessionId artifactId chunks e).
Proof.
  unfold generateArtifact.
  destruct (stream_updates _ _ _ _) as [us acc] eqn:E.
  apply stream_updates_spec in E. destruct E as [_ Hus].
  assert (Hk : Forall (fun u => u = Fail sessionId artifactId
                   \/ (exists h, u = UpdateHtml sessionId artifactId h)
                   \/ (exists h, u = Finalize sessionId artifactId h)) us).
  { eapply Forall_impl; [|exact Hus]. intros u Hu. auto. }
  destruct e; apply Forall_app; split; auto; constructor; eauto.
Qed.

Lemma fold_generateArtifact (art : Artifact.t) sessionId chunks e :
  fold_left (art_step sessionId)
            (generateArtifact sessionId (Artifact.id art) chunks e) art
  = outcome art chunks e.
Proof.
  unfold generateArtifact, outcome.
  destruct (stream_updates _ _ _ _) as [us acc] eqn:E.
  apply stream_updates_spec in E. destruct E as [-> Hus]. simpl app.
  destruct (fold_stream_updates sessionId Hus art) as (h & Hf).
  destruct e; rewrite fold_left_app, Hf; simpl; rewrite str_eqb_refl;
    unfold on_artifact; simpl; rewrite str_eqb_refl; reflexivity.
Qed.

Lemma merge_Forall {A} (P : A -> Prop) (l1 l2 l : list A) :
  merge l1 l2 l -> Forall P l1 -> Forall P l2 -> Forall P l.
Proof.
  induction 1 as [|x l1 l2 l _ IH|x l1 l2 l _ IH]; intros H1 H2.
  - constructor.
  - inversion H1; subst. constructor; auto.
  - inversion H2; subst. constructor; auto.
Qed.

Lemma merge_forallb {A} (p : A -> bool) (l1 l2 l : list A) :
  merge l1 l2 l -> forallb p l1 = true -> forallb p l2 = true -> forallb p l = true.
Proof.
  rewrite !forallb_forall. intros Hm H1 H2.
  apply Forall_forall. apply (merge_Forall Hm); apply Forall_forall; assumption.
Qed.

(** Updates that leave the artifacts of id [x] alone can be dropped from an
    interleaving. *)
Lemma fold_merge_left sid x (l1 l2 l : list update) :
  merge l1 l2 l ->
  Forall (fun u => forall a, Artifact.id a = x -> art_step sid a u = a) l2 ->
  forall art, Artifact.id art = x ->
    fold_left (art_step sid) l art = fold_left (art_step sid) l1 art.
Proof.
  induction 1 as [|u l1 l2 l _ IH|u l1 l2 l _ IH]; intros H2 art Hx; simpl.
  - reflexivity.
  - apply IH; [assumption|]. now rewrite art_step_id.
  - inversion H2; subst. rewrite H1 by reflexivity. now apply IH.
Qed.

Lemma merge_sym {A} (l1 l2 l : list A) : merge l1 l2 l -> merge l2 l1 l.
Proof. induction 1; constructor; assumption. Qed.

Lemma task_foreign sid sessionId artifactId chunks e x :
  x <> artifactId ->
  Forall (fun u => forall a, Artifact.id a = x -> art_step sid a u = a)
         (generateArtifact sessionId artifactId chunks e).
Proof.
  intros Hx. eapply Forall_impl; [|apply generateArtifact_targets].
  intros u Hu a Ha. eapply art_step_other; [exact Hu|]. left. congruence.
Qed.

(** Three tasks of one session, on artifacts of distinct ids, interleaved
    in any way: each artifact ends as if its task had run alone. *)
Lemma tasks_independent prev i sess a0 a1 a2 c0 c1 c2 e0 e1 e2 m us :
  nth_error prev i = Some sess ->
  Session.artifacts sess = [a0; a1; a2] ->
  Artifact.id a0 <> Artifact.id a1 ->
  Artifact.id a0 <> Artifact.id a2 ->
  Artifact.id a1 <> Artifact.id a2 ->
  merge (generateArtifact (Session.id sess) (Artifact.id a0) c0 e0)
        (generateArtifact (Session.id sess) (Artifact.id a1) c1 e1) m ->
  merge m (generateArtifact (Session.id sess) (Artifact.id a2) c2 e2) us ->
  exists sess',
    nth_error (run us prev) i = Some sess' /\
    Session.id sess' = Session.id sess /\
    Session.artifacts sess' = [outcome a0 c0 e0; outcome a1 c1 e1; outcome a2 c2 e2].
Proof.
  intros Hi Ha H01 H02 H12 Hm Hus.
  set (sid := Session.id sess) in *.
  assert (Hk : forallb keyed us = true).
  { eapply merge_forallb; [exact Hus|eapply merge_forallb; [exact Hm| |]|];
      apply generateArtifact_keyed. }
  destruct (@run_keyed us prev i sess Hk Hi) as (sess' & Hr & Hid & Harts).
  exists sess'. split; [exact Hr|]. split; [exact Hid|].
  rewrite Harts, Ha. fold sid. simpl. repeat f_equal.
  - rewrite (@fold_merge_left sid (Artifact.id a0) _ _ _ Hus);
      [|apply task_foreign; congruence|reflexivity].
    rewrite (@fold_merge_left sid (Artifact.id a0) _ _ _ Hm);
      [|apply task_foreign; congruence|reflexivity].
    apply fold_generateArtifact.
  - rewrite (@fold_merge_left sid (Artifact.id a1) _ _ _ Hus);
      [|apply task_foreign; congruence|reflexivity].
    rewrite (@fold_merge_left sid (Artifact.id a1) _ _ _ (merge_sym Hm));
      [|apply task_foreign; congruence|reflexivity].
    apply fold_generateArtifact.
  - rewrite (@fold_merge_left sid (Artifact.id a2) _ _ _ (merge_sym Hus));
      [|eapply merge_Forall; [exact Hm| |]; apply task_foreign; congruence
       |reflexivity].
    apply fold_generateArtifact.
Qed.



(** C9, as amended (isolation of a failed task).  The failure handler
    writes the fixed placeholder and the status error into the artifacts of
    the given id in the sessions of the given id, and changes nothing else:
    every other session, every other artifact and every other field is left
    as it is.  And when the three tasks of a session run interleaved in any
    way, the second throwing and the other two completing with a text that
    is not empty after cleanup, the statuses of the session end as
    complete, error, complete. *)
Theorem failure_isolated :
  (forall prev sessionId artifactId i sess,
     nth_error prev i = Some sess ->
     exists sess',
       nth_error (apply_update (Fail sessionId artifactId) prev) i = Some sess' /\
       (Session.id sess <> sessionId -> sess' = sess) /\
       Session.id sess' = Session.id sess /\
       Session.prompt sess' = Session.prompt sess /\
       Session.userAnswers sess' = Session.userAnswers sess /\
       Session.timestamp sess' = Session.timestamp sess /\
       forall j art,
         nth_error (Session.artifacts sess) j = Some art ->
         nth_error (Session.artifacts sess') j
         = Some (if str_eqb (Session.id sess) sessionId
                    && str_eqb (Artifact.id art) artifactId
                 then Artifact.mk (Artifact.id art) (Artifact.styleName art)
                                  ERROR_PLACEHOLDER error
                 else art)) /\
  (forall prev i sess a0 a1 a2 c0 c1 c2 m us,
     nth_error prev i = Some sess ->
     Session.artifacts sess = [a0; a1; a2] ->
     Artifact.id a0 <> Artifact.id a1 ->
     Artifact.id a0 <> Artifact.id a2 ->
     Artifact.id a1 <> Artifact.id a2 ->
     cleanup (stream_text c0) <> [] ->
     cleanup (stream_text c2) <> [] ->
     merge (generateArtifact (Session.id sess) (Artifact.id a0) c0 Completed)
           (generateArtifact (Session.id sess) (Artifact.id a1) c1 Thrown) m ->
     merge m (generateArtifact (Session.id sess) (Artifact.id a2) c2 Completed) us ->
     exists sess',
       nth_error (run us prev) i = Some sess' /\
       map Artifact.status (Session.artifacts sess') = [complete; error; complete] /\
       nth_error (Session.artifacts sess') 1
       = Some (Artifact.mk (Artifact.id a1) (Artifact.styleName a1)
                 ERROR_PLACEHOLDER error)).
Proof.
  split.
  - intros prev sid aid i sess Hi. simpl. rewrite nth_error_map, Hi. simpl.
    unfold on_session. destruct (str_eqb (Session.id sess) sid) eqn:E.
    + eexists. split; [reflexivity|]. repeat split.
      * apply str_eqb_eq in E. contradiction.
      * intros j art Hj. simpl. rewrite nth_error_map, Hj. simpl.
        unfold on_artifact. destruct (str_eqb (Artifact.id art) aid); reflexivity.
    + exists sess. repeat split; auto.
  - intros prev i sess a0 a1 a2 c0 c1 c2 m us Hi Ha H01 H02 H12 Hc0 Hc2 Hm Hus.
    destruct (@tasks_independent prev i sess a0 a1 a2 c0 c1 c2 _ _ _ m us
                Hi Ha H01 H02 H12 Hm Hus) as (sess' & Hr & _ & Harts).
    exists sess'. split; [exact Hr|]. rewrite Harts. simpl.
    destruct (cleanup (stream_text c0)); [contradiction|].
    destruct (cleanup (stream_text c2)); [contradiction|]. auto.
Qed.

Lemma merge_nil_l {A} (l : list A) : merge [] l l.
Proof. induction l; constructor; assumption. Qed.

Lemma merge_nil_r {A} (l : list A) : merge l [] l.
Proof. induction l; constructor; assumption. Qed.

Lemma merge_alternate {A} (l1 l2 : list A) : merge l1 l2 (alternate l1 l2).
Proof.
  revert l2; induction l1 as [|x l1 IH]; intros l2; [apply merge_nil_l|].
  destruct l2 as [|y l2]; [apply merge_nil_r|].
  simpl. apply merge_left, merge_right, IH.
Qed.

Lemma failure_isolated_witness :
  (exists sess',
     nth_error (apply_update (Fail (txt "s1") (txt "s1_1")) [SESSION_1]) 0 = Some sess' /\
     map Artifact.status (Session.artifacts sess') = [streaming; error; streaming]) /\
  (exists sess',
     nth_error
       (run (alternate
               (alternate
                  (generateArtifact (txt "s1") (txt "s1_0") TASK_CHUNKS_0 Completed)
                  (generateArtifact (txt "s1") (txt "s1_1") TASK_CHUNKS_1 Thrown))
               (generateArtifact (txt "s1") (txt "s1_2") TASK_CHUNKS_2 Completed))
            [SESSION_1]) 0 = Some sess' /\
     map Artifact.status (Session.artifacts sess') = [complete; error; complete] /\
     nth_error (Session.artifacts sess') 1
     = Some (Artifact.mk (txt "s1_1") (Some (txt "Designing...")) ERROR_PLACEHOLDER
               error)).
Proof.
  split.
  - destruct (proj1 failure_isolated [SESSION_1] (txt "s1") (txt "s1_1") 0%nat
                SESSION_1 eq_refl) as (sess' & Hn & _ & _ & _ & _ & _ & Harts).
    exists sess'. split; [exact Hn|].
    pose proof (Harts 0%nat _ eq_refl) as H0.
    pose proof (Harts 1%nat _ eq_refl) as H1.
    pose proof (Harts 2%nat _ eq_refl) as H2.
    assert (Hlen : length (Session.artifacts sess') = 3%nat).
    { simpl in Hn. injection Hn as <-. reflexivity. }
    destruct (Session.artifacts sess') as [|x0 [|x1 [|x2 [|x3 r]]]];
      try discriminate Hlen.
    simpl in H0, H1, H2. injection H0 as ->. injection H1 as ->. injection H2 as ->.
    reflexivity.
  - apply (proj2 failure_isolated [SESSION_1] 0%nat SESSION_1
             (Artifact.mk (txt "s1_0") (Some (txt "Designing...")) [] streaming)
             (Artifact.mk (txt "s1_1") (Some (txt "Designing...")) [] streaming)
             (Artifact.mk (txt "s1_2") (Some (txt "Designing...")) [] streaming)
             TASK_CHUNKS_0 TASK_CHUNKS_1 TASK_CHUNKS_2
             (alternate
                (generateArtifact (txt "s1") (txt "s1_0") TASK_CHUNKS_0 Completed)
                (generateArtifact (txt "s1") (txt "s1_1") TASK_CHUNKS_1 Thrown)));
      try reflexivity; try discriminate; apply merge_alternate.
Defined.

(** C9, as stated, fails: only the second task throws, the stream of the
    first task ends without a text that is not white space, and the
    statuses end as error, error, complete. *)
Lemma failure_isolated_counterexample :
  option_map (fun s => map Artifact.status (Session.artifacts s))
    (nth_error
       (run (alternate
               (alternate
                  (generateArtifact (txt "s1") (txt "s1_0") [mkChunk (Some [10])]
                                    Completed)
                  (generateArtifact (txt "s1") (txt "s1_1") TASK_CHUNKS_1 Thrown))
               (generateArtifact (txt "s1") (txt "s1_2") TASK_CHUNKS_2 Completed))
            [SESSION_1]) 0)
  = Some [error; error; complete].
Proof. reflexivity. Qed.

(** *** The status of an artifact *)

Lemma art_step_status sid art u :
  Artifact.status (art_step sid art u) = Artifact.status art \/
  Artifact.status (art_step sid art u) <> streaming.
Proof.
  destruct u; simpl; auto; destruct (str_eqb sid _); auto;
    unfold on_artifact; destruct (str_eqb (Artifact.id art) _); auto;
    right; simpl; [destruct (is_nil _)|]; discriminate.
Qed.

(** Every updater keeps the artifacts in place and leaves the status of each
    as it is or sets it to complete or error. *)
Lemma apply_update_status (u : update) prev i j art :
  artifact_at prev i j = Some art ->
  exists art',
    artifact_at (apply_update u prev) i j = Some art' /\
    (Artifact.status art' = Artifact.status art \/ Artifact.status art' <> streaming).
Proof.
  unfold artifact_at. intros H.
  destruct (nth_error prev i) as [sess|] eqn:Hi; [|discriminate].
  destruct (keyed u) eqn:Hk.
  { destruct (@keyed_session u prev i sess Hk Hi) as (sess' & -> & _ & ->).
    rewrite nth_error_map, H. simpl. eexists. split; [reflexivity|].
    apply art_step_status. }
  destruct u; try discriminate; simpl.
  - rewrite nth_error_app1 by (apply nth_error_Some; congruence).
    rewrite Hi. eauto.
  - rewrite nth_error_map, Hi. simpl.
    destruct (negb _); [eauto|]. simpl. rewrite nth_error_mapi, H. simpl. eauto.
  - destruct focusedArtifactIndex as [fi|]; [|rewrite Hi; eauto].
    rewrite nth_error_mapi, Hi. simpl.
    destruct (Z.of_nat i =? currentSessionIndex)%Z; [|eauto].
    simpl. rewrite nth_error_mapi, H. simpl.
    destruct (j =? fi)%nat; [|eauto].
    eexists. split; [reflexivity|]. right. discriminate.
Qed.

(** C3, as amended (status transitions).  For every artifact and every
    sequence of updates of the store (session creation, labels, streaming
    updates, finalization, failure, applying a variation), a status that is
    complete or error never becomes streaming again: the artifact stays in
    place and its status stays complete or error. *)
Theorem status_never_back_to_streaming (us : list update) :
  forall prev i j s,
    status_at prev i j = Some s -> s <> streaming ->
    exists s', status_at (run us prev) i j = Some s' /\ s' <> streaming.
Proof.
  unfold status_at.
  induction us as [|u us IH]; intros prev i j s Hs Hne; simpl; [eauto|].
  destruct (artifact_at prev i j) as [art|] eqn:Ha; [|discriminate].
  injection Hs as <-.
  destruct (@apply_update_status u prev i j art Ha) as (art' & Ha' & Hst).
  apply (IH _ i j (Artifact.status art')); [now rewrite Ha'|].
  destruct Hst as [->|]; assumption.
Qed.

Lemma status_never_back_to_streaming_witness :
  exists s',
    status_at
      (run [UpdateHtml (txt "s1") (txt "s1_0") (txt "<p>");
            ApplyStyles (txt "s1") FALLBACK_STYLES;
            Finalize (txt "s1") (txt "s1_0") (txt "<p>late</p>")]
           FAILED_STORE) 0 0 = Some s' /\ s' <> streaming.
Proof.
  apply (@status_never_back_to_streaming _ FAILED_STORE 0%nat 0%nat error).
  - reflexivity.
  - discriminate.
Defined.

(** C3, as stated, fails: applying a variation to an artifact whose
    generation failed moves its status from error to complete. *)
Lemma status_transition_counterexample :
  status_at FAILED_STORE 0 0 = Some error /\
  status_at (apply_update (ApplyVariation 0 (Some 0%nat) (txt "<p>v</p>")) FAILED_STORE)
            0 0 = Some complete /\
  allowed_transition error complete = false.
Proof. repeat split. Qed.

(** ** The variation flow *)

Lemma JSON_parse_object (s : str) (v : JSON) :
  JSON_parse (LBRACE :: s) = Some v -> is_object v.
Proof.
  unfold JSON_parse. change (skip_ws (LBRACE :: s)) with (LBRACE :: s).
  destruct (parse_value _ _) as [x rest| |] eqn:E; try discriminate.
  destruct (is_nil _); [|discriminate]. intros H; injection H as ->.
  apply (proj1 (parse_reads _)) in E. destruct E as (c & _ & _ & _ & Hobj).
  apply (Hobj eq_refl).
Qed.

(** A span parsed by the decoder starts with an opening brace: only objects
    are yielded. *)
Lemma Drain_yields_objects b start vs b1 :
  Drain b start vs b1 ->
  forall k, start = indexOf LBRACE b k -> Forall is_object vs.
Proof.
  induction 1 as [b|b st Hn|b st e v vs b' He Hv _ IH|b st e vs b' He Hv _ IH];
    intros k Hs; try constructor.
  - symmetry in Hs. apply indexOf_found in Hs. destruct Hs as (post & Hpost).
    apply find_end_bounds in He. rewrite substring_le in Hv by lia.
    rewrite Hpost in Hv. replace (e + 1 - st)%nat with (S (e - st)) in Hv by lia.
    simpl in Hv. now apply JSON_parse_object in Hv.
  - now apply (IH 0%nat).
  - now apply (IH (st + 1)%nat).
Qed.

Lemma parseJsonStream_objects (responseStream : list chunk) (vs : list JSON) :
  parseJsonStream responseStream = Some vs -> Forall is_object vs.
Proof.
  intros H. apply parseJsonStream_Drain in H. destruct H as (b & H).
  now apply (Drain_yields_objects H 0).
Qed.

Lemma collect_objects (vs : list JSON) :
  Forall is_object vs ->
  forall acc, collect vs acc = acc ++ filter kept vs.
Proof.
  induction 1 as [|v vs (m & ->) _ IH]; intros acc; simpl.
  - now rewrite app_nil_r.
  - unfold kept, keeps, field_truthy. simpl.
    destruct (truthy (lookup (txt "name") m)); simpl.
    + destruct (truthy (lookup (txt "html") m)); [|apply IH].
      rewrite IH, <- app_assoc. reflexivity.
    + apply IH.
Qed.

(** C10 (variations kept).  In the variation flow the list of variations is
    the list of the decoded values, in order, that have both a truthy name
    and a truthy html: every value in the list has both, and a decoded
    value that lacks one of the two fields, or has the empty string for
    one, is not in the list. *)
Theorem variations_kept (responseStream : list chunk) (decoded : list JSON) :
  parseJsonStream responseStream = Some decoded ->
  exists variations,
    handleGenerateVariations responseStream = Some variations /\
    variations = filter kept decoded /\
    (forall v, In v variations ->
       In v decoded /\
       field_truthy v (txt "name") = true /\ field_truthy v (txt "html") = true) /\
    (forall m,
       lookup (txt "name") m = None \/ lookup (txt "name") m = Some (JString []) \/
       lookup (txt "html") m = None \/ lookup (txt "html") m = Some (JString []) ->
       ~ In (JObject m) variations).
Proof.
  intros H. unfold handleGenerateVariations. rewrite H.
  exists (filter kept decoded). split; [|split; [reflexivity|split]].
  - f_equal. apply (collect_objects (parseJsonStream_objects _ H) []).
  - intros v Hv. apply filter_In in Hv. destruct Hv as [Hin Hk].
    unfold kept in Hk. apply andb_true_iff in Hk. tauto.
  - intros m Hm Hin. apply filter_In in Hin. destruct Hin as [_ Hk].
    unfold kept, field_truthy in Hk. simpl in Hk.
    apply andb_true_iff in Hk. destruct Hk as [Hn Hh].
    destruct Hm as [E|[E|[E|E]]]; rewrite E in *; discriminate.
Qed.

Lemma variations_kept_witness :
  handleGenerateVariations VARIATION_STREAM
  = Some [JObject [(txt "name", JString (txt "Flip"));
                   (txt "html", JString (txt "<p>"))]].
Proof.
  destruct (@variations_kept VARIATION_STREAM
              [JObject [(txt "name", JString (txt "Flip"));
                        (txt "html", JString (txt "<p>"))];
               JObject [(txt "name", JString []); (txt "html", JString (txt "x"))];
               JObject [(txt "html", JString (txt "x"))];
               JObject [(txt "name", JNumber (mkNumber false 0 0));
                        (txt "html", JString (txt "h"))]]
              eq_refl) as (variations & -> & -> & _).
  reflexivity.
Defined.

(** ** The cleanup of generated text *)

Lemma trimStart_spaces (w s : str) :
  all_space w = true -> trimStart (w ++ s) = trimStart s.
Proof.
  induction w as [|c w IH]; simpl; [reflexivity|]. intros H.
  apply andb_true_iff in H. destruct H as [-> H]. auto.
Qed.

Lemma trimEnd_spaces (s w : str) :
  all_space w = true -> trimEnd (s ++ w) = trimEnd s.
Proof.
  intros H. unfold trimEnd. rewrite rev_app_distr, trimStart_spaces; [reflexivity|].
  unfold all_space in *. rewrite forallb_forall in *. intros x Hx. apply H.
  now apply in_rev.
Qed.

Lemma trimEnd_last (s : str) (c : N) :
  is_js_space c = false -> trimEnd (s ++ [c]) = s ++ [c].
Proof.
  intros H. unfold trimEnd. rewrite rev_app_distr. simpl. rewrite H.
  simpl. now rewrite rev_involutive.
Qed.

Lemma startsWith_app (p s : str) : startsWith p (p ++ s) = true.
Proof. induction p as [|x p IH]; simpl; [reflexivity|]. now rewrite N.eqb_refl. Qed.

Lemma endsWith_app (s p : str) : endsWith p (s ++ p) = true.
Proof. unfold endsWith. rewrite rev_app_distr. apply startsWith_app. Qed.

(** X6.  The cleanup of a text wrapped in an html code fence, with any white
    space around the fence markers, is the text inside. *)
Lemma cleanup_fenced_html (w1 w2 w3 w4 body : str) :
  all_space w1 = true -> all_space w2 = true ->
  all_space w3 = true -> all_space w4 = true ->
  tight_body body = true ->
  cleanup (w1 ++ (FENCE ++ txt "html") ++ w2 ++ body ++ w3 ++ FENCE ++ w4) = body.
Proof.
  intros H1 H2 H3 H4 Hb. unfold cleanup.
  destruct body as [|c body]; [discriminate|].
  unfold tight_body in Hb. apply andb_true_iff in Hb. destruct Hb as [Hb Hl].
  apply andb_true_iff in Hb. destruct Hb as [Hc Hk].
  apply negb_true_iff in Hc, Hk, Hl.
  assert (Hlast : exists body' d, c :: body = body' ++ [d] /\ is_js_space d = false).
  { destruct (@exists_last _ (c :: body)) as (body' & d & E); [discriminate|].
    exists body', d. split; [assumption|].
    rewrite E, last_last in Hl. assumption. }
  destruct Hlast as (body' & d & Eb & Hd).
  set (inner := c :: body) in *.
  assert (Et : trim (w1 ++ (FENCE ++ txt "html") ++ w2 ++ inner ++ w3 ++ FENCE ++ w4)
               = (FENCE ++ txt "html") ++ (w2 ++ inner ++ w3) ++ FENCE).
  { unfold trim. rewrite trimStart_spaces by assumption.
    change (trimStart ((FENCE ++ txt "html") ++ w2 ++ inner ++ w3 ++ FENCE ++ w4))
      with ((FENCE ++ txt "html") ++ w2 ++ inner ++ w3 ++ FENCE ++ w4).
    replace ((FENCE ++ txt "html") ++ w2 ++ inner ++ w3 ++ FENCE ++ w4)
      with ((((FENCE ++ txt "html") ++ (w2 ++ inner ++ w3)
              ++ [BACKTICK; BACKTICK]) ++ [BACKTICK]) ++ w4)
      by (rewrite <- !app_assoc; reflexivity).
    rewrite trimEnd_spaces by assumption. rewrite trimEnd_last by reflexivity.
    rewrite <- !app_assoc. reflexivity. }
  rewrite Et. rewrite startsWith_app.
  change (skipn 7 ((FENCE ++ txt "html") ++ (w2 ++ inner ++ w3) ++ FENCE))
    with ((w2 ++ inner ++ w3) ++ FENCE).
  rewrite <- !app_assoc. rewrite trimStart_spaces by assumption.
  assert (Es : trimStart (inner ++ w3 ++ FENCE) = inner ++ w3 ++ FENCE).
  { subst inner. simpl. now rewrite Hc. }
  rewrite Es.
  assert (Ef : startsWith FENCE (inner ++ w3 ++ FENCE) = false).
  { subst inner. unfold FENCE at 1. cbn [app startsWith].
    rewrite N.eqb_sym, Hk. reflexivity. }
  rewrite Ef. rewrite (app_assoc inner w3 FENCE), endsWith_app.
  rewrite substring_le by lia. rewrite Nat.sub_0_r. cbn [skipn].
  rewrite firstn_app.
  replace (length ((inner ++ w3) ++ FENCE) - 3)%nat with (length (inner ++ w3))
    by (rewrite (length_app (inner ++ w3)); simpl; lia).
  rewrite firstn_all, Nat.sub_diag. simpl firstn. rewrite app_nil_r.
  rewrite trimEnd_spaces by assumption. rewrite Eb. now apply trimEnd_last.
Qed.

Lemma startsWith_differs (p q s : str) (x y : N) :
  x <> y -> startsWith (p ++ x :: q) (p ++ y :: s) = false.
Proof.
  intros H. induction p as [|c p IH]; cbn [app startsWith].
  - apply N.eqb_neq in H. now rewrite H.
  - now rewrite N.eqb_refl.
Qed.

Lemma startsWith_longer (p q s : str) :
  startsWith p s = false -> startsWith (p ++ q) s = false.
Proof.
  revert s; induction p as [|c p IH]; intros s; [discriminate|].
  destruct s as [|y s]; [reflexivity|]. cbn [app startsWith].
  destruct (c =? y); [apply IH|reflexivity].
Qed.

(** X7.  The cleanup of a text wrapped in a code fence without a label, the
    opening marker followed by white space, is the text inside. *)
Lemma cleanup_fenced (w1 w2 w3 w4 body : str) :
  all_space w1 = true -> all_space w2 = true -> w2 <> [] ->
  all_space w3 = true -> all_space w4 = true ->
  tight_body body = true ->
  cleanup (w1 ++ FENCE ++ w2 ++ body ++ w3 ++ FENCE ++ w4) = body.
Proof.
  intros H1 H2 Hw2 H3 H4 Hb. unfold cleanup.
  destruct body as [|c body]; [discriminate|].
  unfold tight_body in Hb. apply andb_true_iff in Hb. destruct Hb as [Hb Hl].
  apply andb_true_iff in Hb. destruct Hb as [Hc Hk].
  apply negb_true_iff in Hc, Hk, Hl.
  assert (Hlast : exists body' d, c :: body = body' ++ [d] /\ is_js_space d = false).
  { destruct (@exists_last _ (c :: body)) as (body' & d & E); [discriminate|].
    exists body', d. split; [assumption|].
    rewrite E, last_last in Hl. assumption. }
  destruct Hlast as (body' & d & Eb & Hd).
  set (inner := c :: body) in *.
  assert (Et : trim (w1 ++ FENCE ++ w2 ++ inner ++ w3 ++ FENCE ++ w4)
               = FENCE ++ (w2 ++ inner ++ w3) ++ FENCE).
  { unfold trim. rewrite trimStart_spaces by assumption.
    change (trimStart (FENCE ++ w2 ++ inner ++ w3 ++ FENCE ++ w4))
      with (FENCE ++ w2 ++ inner ++ w3 ++ FENCE ++ w4).
    replace (FENCE ++ w2 ++ inner ++ w3 ++ FENCE ++ w4)
      with (((FENCE ++ (w2 ++ inner ++ w3) ++ [BACKTICK; BACKTICK]) ++ [BACKTICK])
            ++ w4)
      by (rewrite <- !app_assoc; reflexivity).
    rewrite trimEnd_spaces by assumption. rewrite trimEnd_last by reflexivity.
    rewrite <- !app_assoc. reflexivity. }
  rewrite Et.
  assert (Eh : startsWith (FENCE ++ txt "html") (FENCE ++ (w2 ++ inner ++ w3) ++ FENCE)
               = false).
  { destruct w2 as [|c2 w2]; [congruence|]. simpl in H2.
    apply andb_true_iff in H2. destruct H2 as [Hc2 _].
    apply (startsWith_differs FENCE (txt "tml") ((w2 ++ inner ++ w3) ++ FENCE)).
    intros <-. discriminate Hc2. }
  rewrite Eh, startsWith_app.
  change (skipn 3 (FENCE ++ (w2 ++ inner ++ w3) ++ FENCE))
    with ((w2 ++ inner ++ w3) ++ FENCE).
  rewrite <- !app_assoc. rewrite trimStart_spaces by assumption.
  assert (Es : trimStart (inner ++ w3 ++ FENCE) = inner ++ w3 ++ FENCE).
  { subst inner. simpl. now rewrite Hc. }
  rewrite Es. rewrite (app_assoc inner w3 FENCE), endsWith_app.
  rewrite substring_le by lia. rewrite Nat.sub_0_r. cbn [skipn].
  rewrite firstn_app.
  replace (length ((inner ++ w3) ++ FENCE) - 3)%nat with (length (inner ++ w3))
    by (rewrite (length_app (inner ++ w3)); simpl; lia).
  rewrite firstn_all, Nat.sub_diag. simpl firstn. rewrite app_nil_r.
  rewrite trimEnd_spaces by assumption. rewrite Eb. now apply trimEnd_last.
Qed.

(** A text that, trimmed, neither starts nor ends with a fence marker is
    only trimmed. *)
Lemma cleanup_unfenced (s : str) :
  startsWith FENCE (trim s) = false -> endsWith FENCE (trim s) = false ->
  cleanup s = trim s.
Proof.
  intros Hs He. unfold cleanup.
  now rewrite (startsWith_longer _ (txt "html") _ Hs), Hs, He.
Qed.

(** * Further properties of the code *)

(** ** The fragment decoder *)

(** X2.  Every value the decoder yields is a JSON object: arrays, strings,
    numbers and literals of the stream are never yielded on their own. *)
Theorem decoder_only_objects (responseStream : list chunk) (vs : list JSON) :
  parseJsonStream responseStream = Some vs -> Forall is_object vs.
Proof.
  intros H. apply parseJsonStream_Drain in H. destruct H as (b & H).
  now apply (Drain_yields_objects H 0).
Qed.

Lemma decoder_only_objects_witness :
  Forall is_object
    [JObject [(txt "a", JArray [JNumber (mkNumber false 1 0)])];
     JObject []].
Proof.
  apply (@decoder_only_objects
           [mkChunk (Some (jtxt "[1, 'x', {'a':[1]}, tr")); mkChunk (Some (jtxt "ue, {}]"))]).
  reflexivity.
Defined.

(** From a positive count, the scan stops on a closing brace. *)
Lemma scan_stops_on_closing (l : str) :
  forall i st bc e,
    scan l i st bc = Some e -> (st < i)%nat -> (0 < bc)%Z ->
    exists a z, l = a ++ RBRACE :: z /\ e = (i + length a)%nat.
Proof.
  induction l as [|c l IH]; intros i st bc e H Hi Hbc; cbn [scan] in H;
    [discriminate|].
  set (bc1 := if c =? LBRACE then (bc + 1)%Z
              else if c =? RBRACE then (bc - 1)%Z else bc) in *.
  destruct (Z.eqb_spec bc1 0) as [E|E].
  - apply Nat.ltb_lt in Hi. rewrite Hi in H. cbn [andb] in H. injection H as <-.
    exists [], l. split; [|simpl; lia]. subst bc1.
    destruct (c =? LBRACE); [lia|].
    destruct (N.eqb_spec c RBRACE) as [->|]; [reflexivity|lia].
  - cbn [andb] in H. apply IH in H; [|lia|].
    + destruct H as (a & z & -> & ->). exists (c :: a), z. split; [reflexivity|].
      simpl. lia.
    + subst bc1. destruct (c =? LBRACE); [lia|]. destruct (c =? RBRACE); lia.
Qed.

(** The span found from an opening brace: the buffer is a prefix, the span
    from the brace at [st] to the closing brace at [e], and the rest. *)
Lemma find_end_span (b : str) (k st e : nat) :
  indexOf LBRACE b k = Some st -> find_end b st = Some e ->
  exists a,
    substring b st (e + 1) = LBRACE :: a ++ [RBRACE] /\
    b = firstn st b ++ (LBRACE :: a ++ [RBRACE]) ++ skipn (e + 1) b.
Proof.
  intros Hi He. pose proof (indexOf_bounds _ _ _ Hi) as Hb.
  apply indexOf_found in Hi. destruct Hi as (post & Hpost).
  unfold find_end in He. rewrite Hpost, scan_first_brace in He.
  apply scan_stops_on_closing in He; [|lia..].
  destruct He as (a & z & -> & ->).
  assert (Eb : b = firstn st b ++ (LBRACE :: a ++ [RBRACE]) ++ z).
  { rewrite <- (firstn_skipn st b) at 1. rewrite Hpost. simpl.
    now rewrite <- app_assoc. }
  remember (firstn st b) as pre eqn:Epre.
  assert (Hpre : length pre = st) by (subst pre; rewrite length_firstn; lia).
  assert (Hlen : (S st + length a + 1 = length pre + length (LBRACE :: a ++ [RBRACE]))%nat).
  { simpl. rewrite length_app. simpl. lia. }
  exists a. rewrite Hlen. split.
  - rewrite Eb at 1. rewrite <- Hpre at 1. apply substring_middle.
  - rewrite Eb at 2. rewrite skipn_middle. exact Eb.
Qed.

Lemma wrapped_span (a : str) : wrapped (LBRACE :: a ++ [RBRACE]) = true.
Proof.
  unfold wrapped. change (LBRACE :: a ++ [RBRACE]) with ((LBRACE :: a) ++ [RBRACE]).
  rewrite last_last. reflexivity.
Qed.

Lemma Drain_Spans b start vs b1 :
  Drain b start vs b1 ->
  forall k, start = indexOf LBRACE b k -> Spans b vs.
Proof.
  induction 1 as [b|b st Hn|b st e v vs b' He Hv _ IH|b st e vs b' He Hv _ IH];
    intros k Hs; try constructor.
  - symmetry in Hs. destruct (find_end_span _ _ Hs He) as (a & Hsub & Eb).
    rewrite Eb. rewrite Hsub in Hv.
    apply Spans_cons; [assumption|apply wrapped_span|]. now apply (IH 0%nat).
  - now apply (IH (st + 1)%nat).
Qed.

(** X3.  The values yielded are the values of spans of the text received,
    each running from an opening brace to a closing brace, that follow one
    another in the text without overlap, in the order of the values: the
    decoder never yields a value that is not written in the stream, and
    never yields one out of order. *)
Theorem decoder_spans (responseStream : list chunk) (vs : list JSON) :
  parseJsonStream responseStream = Some vs ->
  Spans (stream_text responseStream) vs.
Proof.
  intros H. apply parseJsonStream_Drain in H. destruct H as (b & H).
  now apply (Drain_Spans H 0).
Qed.

Lemma decoder_spans_witness :
  Spans (jtxt "x{'a':1} {oops} {'b':{}}")
        [JObject [(txt "a", JNumber (mkNumber false 1 0))];
         JObject [(txt "b", JObject [])]].
Proof.
  apply (@decoder_spans
           [mkChunk (Some (jtxt "x{'a':1} {oo")); mkChunk (Some (jtxt "ps} {'b':{}}"))]).
  reflexivity.
Defined.

Lemma index_of_no_open (j : str) (i : nat) :
  no_open j = true -> index_of LBRACE j i = None.
Proof.
  revert i; induction j as [|c j IH]; intros i H; simpl in *; [reflexivity|].
  apply andb_true_iff in H. destruct H as [Hc Hj].
  apply negb_true_iff in Hc. rewrite Hc. now apply IH.
Qed.

Lemma Drain_noisy (items : list (str * str)) (vals : list JSON) :
  Forall2 (fun oj v => good (fst oj) v /\ no_open (snd oj) = true) items vals ->
  forall j0, no_open j0 = true ->
    exists b, Drain (noisy_text j0 items) (indexOf LBRACE (noisy_text j0 items) 0)
                    vals b.
Proof.
  unfold noisy_text.
  induction 1 as [|[o j] v items vals [Hg Hj] _ IH]; intros j0 H0; simpl.
  - exists j0. rewrite app_nil_r. unfold indexOf. simpl.
    rewrite index_of_no_open by assumption. constructor.
  - simpl in Hg, Hj. destruct (IH j Hj) as (b & Hb). exists b.
    destruct (good_shape Hg) as (body & Eo & _).
    assert (Hi : indexOf LBRACE (j0 ++ (o ++ j) ++ concat
                   (map (fun oj : str * str => fst oj ++ snd oj) items)) 0
                 = Some (length j0)).
    { rewrite Eo. simpl. apply indexOf_none_app; [|lia].
      unfold indexOf. simpl. now apply index_of_no_open. }
    rewrite Hi. rewrite <- app_assoc. now apply Drain_good.
Qed.

(** X4.  Text without an opening brace before, between and after
    well-formed objects (no brace in their strings) is ignored: the decoder
    yields exactly the values of the objects, in order, for every cut of the
    text into chunks.  In particular the objects of a JSON array of objects
    are yielded one by one. *)
Theorem decoder_tolerates_noise (j0 : str) (items : list (str * str))
  (vals : list JSON) (responseStream : list chunk) :
  no_open j0 = true ->
  Forall2 (fun oj v => good (fst oj) v /\ no_open (snd oj) = true) items vals ->
  stream_text responseStream = noisy_text j0 items ->
  parseJsonStream responseStream = Some vals.
Proof.
  intros H0 Hitems Ht. apply parseJsonStream_Drain. rewrite Ht.
  now apply Drain_noisy.
Qed.

Lemma decoder_tolerates_noise_witness :
  parseJsonStream
    [mkChunk (Some (jtxt "Here: [{'name':'A',")); mkChunk (Some (jtxt "'html':'<p>'}, "));
     mkChunk (Some (jtxt "{'name':'B','html':'<b>'}] done"))]
  = Some [JObject [(txt "name", JString (txt "A")); (txt "html", JString (txt "<p>"))];
          JObject [(txt "name", JString (txt "B")); (txt "html", JString (txt "<b>"))]].
Proof.
  apply (@decoder_tolerates_noise (txt "Here: [")
           [(jtxt "{'name':'A','html':'<p>'}", txt ", ");
            (jtxt "{'name':'B','html':'<b>'}", txt "] done")]).
  - reflexivity.
  - repeat constructor.
  - reflexivity.
Defined.

Lemma truncated_objects_witness :
  parseJsonStream
    [mkChunk (Some (jtxt "{'a':1}{'b':{'c'")); mkChunk (Some (jtxt ":2},'d"))]
  = Some [JObject [(txt "a", JNumber (mkNumber false 1 0))]].
Proof.
  apply (@truncated_objects [jtxt "{'a':1}"] _
           (jtxt "{'b':{'c':2},'d':3}") (jtxt "{'b':{'c':2},'d") (jtxt "':3}")
           (JObject [(txt "b", JObject [(txt "c", JNumber (mkNumber false 2 0))]);
                     (txt "d", JNumber (mkNumber false 3 0))])).
  - repeat constructor.
  - repeat constructor.
  - reflexivity.
  - discriminate.
  - discriminate.
  - reflexivity.
Defined.

(** ** Trimming *)

Lemma trimStart_tight (s : str) : starts_tight (trimStart s) = true.
Proof.
  induction s as [|c s IH]; simpl; [reflexivity|].
  destruct (is_js_space c) eqn:E; [assumption|]. simpl. now rewrite E.
Qed.

Lemma trimStart_id (s : str) : starts_tight s = true -> trimStart s = s.
Proof.
  destruct s as [|c s]; simpl; [reflexivity|]. intros H.
  apply negb_true_iff in H. now rewrite H.
Qed.

Lemma trimEnd_tight (s : str) : ends_tight (trimEnd s) = true.
Proof. unfold ends_tight, trimEnd. rewrite rev_involutive. apply trimStart_tight. Qed.

Lemma trimEnd_id (s : str) : ends_tight s = true -> trimEnd s = s.
Proof.
  unfold ends_tight, trimEnd. intros H. rewrite trimStart_id by assumption.
  apply rev_involutive.
Qed.

Lemma trimStart_skipn (s : str) : exists k, trimStart s = skipn k s.
Proof.
  induction s as [|c s (k & IH)]; [exists 0%nat; reflexivity|]. simpl.
  destruct (is_js_space c); [exists (S k); assumption|exists 0%nat; reflexivity].
Qed.

Lemma firstn_starts_tight (s : str) (n : nat) :
  starts_tight s = true -> starts_tight (firstn n s) = true.
Proof. destruct n, s; simpl; auto. Qed.

Lemma skipn_ends_tight (s : str) (k : nat) :
  ends_tight s = true -> ends_tight (skipn k s) = true.
Proof.
  unfold ends_tight. intros H. destruct (Nat.le_gt_cases k (length s)) as [Hk|Hk].
  - replace (rev (skipn k s)) with (firstn (length s - k) (rev s)).
    + now apply firstn_starts_tight.
    + rewrite firstn_rev. do 2 f_equal. lia.
  - rewrite skipn_all2 by lia. reflexivity.
Qed.

Lemma trimStart_ends_tight (s : str) :
  ends_tight s = true -> ends_tight (trimStart s) = true.
Proof.
  intros H. destruct (trimStart_skipn s) as (k & ->). now apply skipn_ends_tight.
Qed.

Lemma trimEnd_starts_tight (s : str) :
  starts_tight s = true -> starts_tight (trimEnd s) = true.
Proof.
  intros H. unfold trimEnd. destruct (trimStart_skipn (rev s)) as (k & ->).
  rewrite skipn_rev, rev_involutive. now apply firstn_starts_tight.
Qed.

Lemma trim_tight (s : str) :
  starts_tight (trim s) = true /\ ends_tight (trim s) = true.
Proof.
  unfold trim. split; [|apply trimEnd_tight].
  apply trimEnd_starts_tight, trimStart_tight.
Qed.

Lemma trim_id (s : str) :
  starts_tight s = true -> ends_tight s = true -> trim s = s.
Proof.
  intros Hs He. unfold trim. rewrite trimStart_id by assumption.
  now apply trimEnd_id.
Qed.

Lemma trimStart_all_space (s : str) : all_space s = true -> trimStart s = [].
Proof.
  induction s as [|c s IH]; simpl; [reflexivity|]. intros H.
  apply andb_true_iff in H. destruct H as [-> H]. auto.
Qed.

Lemma trim_all_space (s : str) : all_space s = true -> trim s = [].
Proof. intros H. unfold trim. now rewrite trimStart_all_space. Qed.

(** ** The cleanup of generated text, continued *)

(** X8.  The text kept by the cleanup never starts or ends with white
    space, whatever the generated text: trimming it again changes
    nothing. *)
Theorem cleanup_trimmed (accumulatedHtml : str) :
  starts_tight (cleanup accumulatedHtml) = true /\
  ends_tight (cleanup accumulatedHtml) = true /\
  trim (cleanup accumulatedHtml) = cleanup accumulatedHtml.
Proof.
  assert (H : starts_tight (cleanup accumulatedHtml) = true /\
              ends_tight (cleanup accumulatedHtml) = true).
  { unfold cleanup. destruct (trim_tight accumulatedHtml) as [Hs0 He0].
    set (f0 := trim accumulatedHtml) in *.
    set (f1 := if startsWith (FENCE ++ txt "html") f0
               then trimStart (skipn 7 f0) else f0).
    assert (H1 : starts_tight f1 = true /\ ends_tight f1 = true).
    { subst f1. destruct (startsWith _ f0); [|auto].
      split; [apply trimStart_tight|].
      now apply trimStart_ends_tight, skipn_ends_tight. }
    destruct H1 as [Hs1 He1].
    set (f2 := if startsWith FENCE f1 then trimStart (skipn 3 f1) else f1).
    assert (H2 : starts_tight f2 = true /\ ends_tight f2 = true).
    { subst f2. destruct (startsWith _ f1); [|auto].
      split; [apply trimStart_tight|].
      now apply trimStart_ends_tight, skipn_ends_tight. }
    destruct H2 as [Hs2 He2].
    destruct (endsWith FENCE f2); [|auto].
    split; [|apply trimEnd_tight].
    apply trimEnd_starts_tight. rewrite substring_le by lia.
    rewrite Nat.sub_0_r. cbn [skipn]. now apply firstn_starts_tight. }
  destruct H as [Hs He]. repeat split; try assumption. now apply trim_id.
Qed.

(** X9.  A task whose stream ends without an exception after delivering
    nothing but white space (or nothing at all) leaves its artifact with an
    empty content and the status error. *)
Theorem generateArtifact_blank (prev : list Session.t) (i j : nat)
  (sess : Session.t) (art : Artifact.t) (chunks : list chunk) :
  nth_error prev i = Some sess ->
  nth_error (Session.artifacts sess) j = Some art ->
  all_space (stream_text chunks) = true ->
  artifact_at
    (run (generateArtifact (Session.id sess) (Artifact.id art) chunks Completed) prev)
    i j
  = Some (Artifact.mk (Artifact.id art) (Artifact.styleName art) [] error).
Proof.
  intros Hi Hj Hs.
  destruct (@run_keyed _ prev i sess
              (generateArtifact_keyed (Session.id sess) (Artifact.id art) chunks
                 Completed) Hi) as (sess' & Hr & _ & Ha).
  unfold artifact_at. rewrite Hr, Ha, nth_error_map, Hj. simpl.
  rewrite fold_generateArtifact. unfold outcome, cleanup.
  rewrite (trim_all_space _ Hs). reflexivity.
Qed.

Lemma generateArtifact_blank_witness :
  artifact_at
    (run (generateArtifact (txt "s1") (txt "s1_2")
            [mkChunk (Some [32; 10]); mkChunk None; mkChunk (Some [9])] Completed)
         [SESSION_1]) 0 2
  = Some (Artifact.mk (txt "s1_2") (Some (txt "Designing...")) [] error).
Proof.
  apply (@generateArtifact_blank [SESSION_1] 0 2 SESSION_1
           (Artifact.mk (txt "s1_2") (Some (txt "Designing...")) [] streaming));
    reflexivity.
Defined.

Lemma cleanup_fenced_html_witness :
  cleanup ([32; 10] ++ (FENCE ++ txt "html") ++ [10] ++ txt "<p>a b</p>" ++ [10; 10]
           ++ FENCE ++ [10])
  = txt "<p>a b</p>".
Proof. apply cleanup_fenced_html; reflexivity. Defined.

Lemma cleanup_fenced_witness :
  cleanup ([] ++ FENCE ++ [13; 10] ++ txt "<p>a b</p>" ++ [] ++ FENCE ++ [32])
  = txt "<p>a b</p>".
Proof. apply cleanup_fenced; try reflexivity. discriminate. Defined.

(** ** The response extractor, continued *)

Lemma find_sub_first (p' pre rest : str) (i : nat) :
  no_tick pre = true ->
  find_sub (BACKTICK :: p') (pre ++ (BACKTICK :: p') ++ rest) i
  = Some (i + length pre)%nat.
Proof.
  revert i; induction pre as [|c pre IH]; intros i H.
  - cbn [app find_sub startsWith]. rewrite N.eqb_refl, startsWith_app.
    cbn [andb]. f_equal. simpl. lia.
  - simpl in H. apply andb_true_iff in H. destruct H as [Hc H].
    apply negb_true_iff in Hc. cbn [app find_sub startsWith].
    rewrite N.eqb_sym, Hc. cbn [andb].
    change (pre ++ BACKTICK :: p' ++ rest) with (pre ++ (BACKTICK :: p') ++ rest).
    rewrite (IH (S i) H). f_equal. simpl. lia.
Qed.

(** X10.  From a text that is not JSON as a whole and holds a json code
    fence, with no backtick before the fence nor inside it, extractJson
    returns the value of the text inside the fence (null when that text is
    not JSON), whatever surrounds the fence. *)
Theorem extractJson_fenced (pre inner post : str) :
  no_tick pre = true -> no_tick inner = true -> inner <> [] ->
  JSON_parse (pre ++ FENCE_JSON ++ inner ++ FENCE ++ post) = None ->
  extractJson (pre ++ FENCE_JSON ++ inner ++ FENCE ++ post) = parse_or_null inner.
Proof.
  intros Hpre Hin Hne Hp. unfold extractJson, parse_or_null. rewrite Hp.
  assert (E1 : find_sub FENCE_JSON (pre ++ FENCE_JSON ++ inner ++ FENCE ++ post) 0
               = Some (length pre)).
  { exact (@find_sub_first ([BACKTICK; BACKTICK] ++ txt "json") pre
             (inner ++ FENCE ++ post) 0 Hpre). }
  assert (E2 : find_sub FENCE (inner ++ FENCE ++ post) 0 = Some (length inner)).
  { exact (@find_sub_first [BACKTICK; BACKTICK] inner post 0 Hin). }
  unfold match_fence. rewrite E1.
  change (length pre + 7)%nat with (length pre + length FENCE_JSON)%nat.
  rewrite skipn_middle, E2.
  rewrite firstn_app, firstn_all, Nat.sub_diag. cbn [firstn].
  rewrite app_nil_r. unfold str_or. destruct inner; [congruence|]. reflexivity.
Qed.

Lemma extractJson_fenced_witness :
  extractJson (txt "Sure, here they are:" ++ [10] ++ FENCE_JSON ++ ([10] ++ jtxt "['A', 'B']" ++ [10])
               ++ FENCE ++ txt " Enjoy [it]!")
  = JArray [JString (txt "A"); JString (txt "B")].
Proof.
  apply (@extractJson_fenced (txt "Sure, here they are:" ++ [10])
           ([10] ++ jtxt "['A', 'B']" ++ [10]) (txt " Enjoy [it]!"));
    try reflexivity. discriminate.
Defined.

(** ** The clarification step *)

Lemma JSON_parse_array (s : str) (l : list JSON) :
  JSON_parse s = Some (JArray l) -> In LBRACKET s.
Proof.
  unfold JSON_parse. destruct (skip_ws_split s) as (w & Es & _).
  destruct (parse_value _ _) as [v rest| |] eqn:E; try discriminate.
  destruct (is_nil _); [|discriminate]. intros H; injection H as ->.
  rewrite Es. apply in_or_app. right.
  destruct (parse_fuel (skip_ws s)) as [|n]; [discriminate|].
  simpl in E. destruct (skip_ws s) as [|c s']; [discriminate|].
  destruct (N.eqb_spec c LBRACE).
  { destruct (skip_ws s') as [|c1 s2]; [discriminate|].
    destruct (c1 =? RBRACE); [discriminate|].
    apply map_res_ok in E. destruct E as (m & _ & E). discriminate. }
  destruct (N.eqb_spec c LBRACKET) as [->|]; [now left|].
  destruct (c =? QUOTE).
  { apply map_res_ok in E. destruct E as (m & _ & E). discriminate. }
  unfold parse_literal in E.
  destruct (c =? 116); [destruct (expect _ _); discriminate|].
  destruct (c =? 102); [destruct (expect _ _); discriminate|].
  destruct (c =? 110); [destruct (expect _ _); discriminate|].
  apply map_res_ok in E. destruct E as (m & _ & E). discriminate.
Qed.

Lemma In_firstn_skipn (s : str) (a b : nat) (x : N) :
  In x (firstn a (skipn b s)) -> In x s.
Proof.
  intros H. rewrite <- (firstn_skipn b s). apply in_or_app. right.
  rewrite <- (firstn_skipn a (skipn b s)). apply in_or_app. now left.
Qed.

(** An array returned by extractJson comes from a text with an opening
    bracket. *)
Lemma extractJson_array (t : str) (l : list JSON) :
  extractJson t = JArray l -> In LBRACKET t.
Proof.
  unfold extractJson. destruct (JSON_parse t) as [v|] eqn:Ep.
  { intros ->. now apply JSON_parse_array in Ep. }
  assert (Hm : forall m0 m1,
             In LBRACKET m0 -> In LBRACKET t ->
             (In LBRACKET m1 -> In LBRACKET t) ->
             match JSON_parse (str_or m1 m0) with
             | Some v => v
             | None => JNull
             end = JArray l -> In LBRACKET t).
  { intros m0 m1 H0 Ht H1 H. destruct (JSON_parse (str_or m1 m0)) eqn:E;
      [|discriminate]. subst. assumption. }
  unfold match_fence, match_array.
  destruct (find_sub FENCE_JSON t 0) as [p|].
  - destruct (find_sub FENCE (skipn (p + 7) t) 0) as [q|].
    + intros H. destruct (JSON_parse (str_or _ _)) eqn:E; [|discriminate]. subst.
      apply JSON_parse_array in E. unfold str_or in E.
      destruct (is_nil _); eapply In_firstn_skipn; eassumption.
    + destruct (indexOf LBRACKET t 0) as [p'|] eqn:Ei; [|discriminate].
      intros _. apply indexOf_found in Ei. destruct Ei as (post & Ei).
      rewrite <- (firstn_skipn p' t), Ei. apply in_or_app. right. now left.
  - destruct (indexOf LBRACKET t 0) as [p'|] eqn:Ei; [|discriminate].
    intros _. apply indexOf_found in Ei. destruct Ei as (post & Ei).
    rewrite <- (firstn_skipn p' t), Ei. apply in_or_app. right. now left.
Qed.

Lemma trimStart_nonblank (s : str) :
  all_space s = false -> all_space (trimStart s) = false.
Proof.
  induction s as [|c s IH]; simpl; [discriminate|].
  destruct (is_js_space c) eqn:E; simpl; [exact IH|]. now rewrite E.
Qed.

Lemma all_space_rev (s : str) : all_space (rev s) = all_space s.
Proof.
  unfold all_space. induction s as [|c s IH]; [reflexivity|]. simpl.
  rewrite forallb_app, IH. simpl. rewrite andb_true_r. apply andb_comm.
Qed.

Lemma trim_nonblank (s : str) : all_space s = false -> trim s <> [].
Proof.
  unfold trim, trimEnd. intros H E. apply trimStart_nonblank in H.
  rewrite <- all_space_rev in H. apply trimStart_nonblank in H.
  rewrite <- all_space_rev, E in H. discriminate.
Qed.

(** X11.  A submission is ignored when the prompt is empty or white space
    only, or when the application is loading; otherwise it is carried on,
    to the questionnaire or to the generation, with the prompt trimmed,
    which is not empty and has no white space at its ends. *)
Theorem handleInitialSubmit_prompt (manualPrompt : option str) (inputValue : str)
  (isLoading : bool) (r : response) :
  let promptToUse :=
    match manualPrompt with
    | Some m => str_or m inputValue
    | None => inputValue
    end in
  (all_space promptToUse = true \/ isLoading = true ->
   handleInitialSubmit manualPrompt inputValue isLoading r = Ignored) /\
  (all_space promptToUse = false -> isLoading = false ->
   trim promptToUse <> [] /\
   trim (trim promptToUse) = trim promptToUse /\
   (handleInitialSubmit manualPrompt inputValue isLoading r
    = Generate (trim promptToUse) \/
    exists q questions,
      handleInitialSubmit manualPrompt inputValue isLoading r
      = Clarify (trim promptToUse) (q :: questions))).
Proof.
  intros promptToUse. unfold handleInitialSubmit. fold promptToUse. split.
  - intros [H| ->]; [|now rewrite orb_true_r].
    now rewrite (trim_all_space _ H).
  - intros Hb ->. pose proof (trim_nonblank _ Hb) as Hne.
    destruct (trim_tight promptToUse) as [Hs He].
    split; [exact Hne|]. split; [now apply trim_id|].
    destruct (trim promptToUse) as [|c tp]; [congruence|]. simpl.
    destruct r as [rt|]; [|now left].
    destruct (extractJson _) as [| | | |[|q l]|]; try (now left).
    right. now exists q, l.
Qed.

Lemma handleInitialSubmit_prompt_witness :
  handleInitialSubmit None [32; 9; 10] false Failed = Ignored /\
  handleInitialSubmit (Some (txt "  a card ")) (txt "other") true Failed = Ignored /\
  (trim (txt "  a card ") <> [] /\
   trim (trim (txt "  a card ")) = trim (txt "  a card ") /\
   (handleInitialSubmit None (txt "  a card ") false
      (Responded (Some (jtxt "[{'id':'q1'}]")))
    = Generate (trim (txt "  a card ")) \/
    exists q questions,
      handleInitialSubmit None (txt "  a card ") false
        (Responded (Some (jtxt "[{'id':'q1'}]")))
      = Clarify (trim (txt "  a card ")) (q :: questions))).
Proof.
  split; [|split].
  - apply (proj1 (handleInitialSubmit_prompt None [32; 9; 10] false Failed)).
    left. reflexivity.
  - apply (proj1 (handleInitialSubmit_prompt (Some (txt "  a card ")) (txt "other")
                    true Failed)).
    right. reflexivity.
  - apply (proj2 (handleInitialSubmit_prompt None (txt "  a card ") false
                    (Responded (Some (jtxt "[{'id':'q1'}]"))))); reflexivity.
Defined.

(** the first attempt of extractJson: a text that is JSON as a whole *)
Lemma extractJson_whole (t : str) (v : JSON) :
  JSON_parse t = Some v -> extractJson t = v.
Proof. intros H. unfold extractJson. now rewrite H. Qed.

(** X12.  When a submission is carried on: a response whose text is a JSON
    array of at least one element leads to the questionnaire, with the
    elements as the questions; a failed call, a response without text, an
    empty text or a text without an opening bracket lead to the
    generation.  The questionnaire is shown only with a non-empty list of
    questions, which extractJson returned as an array from a non-empty
    response text that holds an opening bracket. *)
Theorem handleInitialSubmit_questions (manualPrompt : option str) (inputValue : str)
  (isLoading : bool) (r : response) :
  let promptToUse :=
    match manualPrompt with
    | Some m => str_or m inputValue
    | None => inputValue
    end in
  (forall p qs,
     handleInitialSubmit manualPrompt inputValue isLoading r = Clarify p qs ->
     qs <> [] /\
     exists t, r = Responded (Some t) /\ t <> [] /\ In LBRACKET t /\
               extractJson t = JArray qs) /\
  (all_space promptToUse = false -> isLoading = false ->
   (forall t q questions,
      r = Responded (Some t) -> JSON_parse t = Some (JArray (q :: questions)) ->
      handleInitialSubmit manualPrompt inputValue isLoading r
      = Clarify (trim promptToUse) (q :: questions)) /\
   (r = Failed \/ r = Responded None \/
    (exists t, r = Responded (Some t) /\ ~ In LBRACKET t) ->
    handleInitialSubmit manualPrompt inputValue isLoading r
    = Generate (trim promptToUse))).
Proof.
  intros promptToUse. unfold handleInitialSubmit. fold promptToUse. split.
  - intros p qs. destruct (is_nil _ || isLoading); [discriminate|].
    destruct r as [rt|]; [|discriminate].
    destruct (extractJson _) as [| | | |[|q l]|] eqn:E; try discriminate.
    intros H. injection H as _ <-. split; [discriminate|].
    destruct rt as [[|c t]|]; try discriminate E.
    exists (c :: t). repeat split; try discriminate; [|exact E].
    now apply extractJson_array in E.
  - intros Hb ->. pose proof (trim_nonblank _ Hb) as Hne.
    destruct (trim promptToUse) as [|c tp]; [congruence|]. simpl. split.
    + intros t q questions -> Hp.
      assert (Ht : str_or t (txt "[]") = t).
      { destruct t; [discriminate Hp|reflexivity]. }
      now rewrite Ht, (extractJson_whole _ Hp).
    + intros [->|[->|(t & -> & Hn)]]; try reflexivity.
      destruct t as [|x t]; [reflexivity|].
      change (str_or (x :: t) (txt "[]")) with (x :: t).
      destruct (extractJson (x :: t)) as [| | | |l|] eqn:E; try reflexivity.
      apply extractJson_array in E. contradiction.
Qed.

Lemma handleInitialSubmit_questions_witness :
  handleInitialSubmit None (txt " a card") false
    (Responded (Some (jtxt "[{'id':'q1'}]")))
  = Clarify (txt "a card") [JObject [(txt "id", JString (txt "q1"))]] /\
  handleInitialSubmit None (txt " a card") false
    (Responded (Some (txt "No questions.")))
  = Generate (txt "a card").
Proof.
  split.
  - apply (proj1 (proj2 (handleInitialSubmit_questions None (txt " a card") false
                           (Responded (Some (jtxt "[{'id':'q1'}]"))))
                        eq_refl eq_refl)
                 (jtxt "[{'id':'q1'}]")); reflexivity.
  - apply (proj2 (proj2 (handleInitialSubmit_questions None (txt " a card") false
                           (Responded (Some (txt "No questions."))))
                        eq_refl eq_refl)).
    right. right. exists (txt "No questions."). split; [reflexivity|].
    intros H. vm_compute in H. intuition discriminate.
Defined.

(** ** The store and the generation, continued *)

Lemma artifact_id_inj (sid sid' : str) (i i' : nat) :
  artifact_id sid i = artifact_id sid' i' -> sid = sid' /\ i = i'.
Proof.
  unfold artifact_id. intros H.
  change (sid ++ [95; 48 + N.of_nat i]) with (sid ++ [95] ++ [48 + N.of_nat i]) in H.
  change (sid' ++ [95; 48 + N.of_nat i']) with (sid' ++ [95] ++ [48 + N.of_nat i']) in H.
  rewrite !app_assoc in H. apply app_inj_tail in H. destruct H as [H Hi].
  apply app_inj_tail in H. destruct H as [-> _]. split; [reflexivity|lia].
Qed.

(** X13.  The artifacts of a new session are three, streaming and empty,
    their ids are pairwise distinct, and two sessions of different ids have
    no artifact id in common: an update keyed by session id and artifact id
    reaches one artifact. *)
Theorem newSession_artifact_ids (sessionId basePrompt : str) (answers : list (str * str))
  (baseTime : N) :
  let arts := Session.artifacts (newSession sessionId basePrompt answers baseTime) in
  length arts = 3%nat /\
  Forall (fun art => Artifact.status art = streaming /\ Artifact.html art = []) arts /\
  NoDup (map Artifact.id arts) /\
  forall sessionId' basePrompt' answers' baseTime' x,
    sessionId' <> sessionId ->
    In x (map Artifact.id arts) ->
    ~ In x (map Artifact.id
              (Session.artifacts (newSession sessionId' basePrompt' answers' baseTime'))).
Proof.
  simpl. split; [reflexivity|]. split; [repeat constructor|]. split.
  - repeat constructor; simpl; intros H;
      repeat (destruct H as [H|H]; [apply artifact_id_inj in H; lia|]); assumption.
  - intros sid' _ _ _ x Hne Hx Hx'.
    repeat (destruct Hx as [Hx|Hx]; [subst x|]); try contradiction;
      repeat (destruct Hx' as [Hx'|Hx']; [apply artifact_id_inj in Hx'; tauto|]);
      assumption.
Qed.

Lemma newSession_artifact_ids_witness :
  NoDup (map Artifact.id (Session.artifacts (newSession (txt "s1") (txt "a card") [] 0)))
  /\ ~ In (txt "s1_0")
         (map Artifact.id
            (Session.artifacts (newSession (txt "s2") (txt "a form") [] 1))).
Proof.
  split.
  - apply (proj1 (proj2 (proj2 (newSession_artifact_ids (txt "s1") (txt "a card") [] 0)))).
  - apply (proj2 (proj2 (proj2 (newSession_artifact_ids (txt "s1") (txt "a card") [] 0)))
             (txt "s2") (txt "a form") [] 1 (txt "s1_0")).
    + discriminate.
    + left. reflexivity.
Defined.

(** X14.  The whole generation of one submission: after the session is
    appended and the labels are set, however the updates of the three tasks
    interleave and however each stream ends, every artifact of the new
    session ends with its own label and with the outcome of its own stream
    (cleaned text and complete or error, or the placeholder and error)
    independently of the other two. *)
Theorem startGeneration_outcome (prev : list Session.t) (sessionId basePrompt : str)
  (answers : list (str * str)) (baseTime : N) (generatedStyles : list str)
  (c0 c1 c2 : list chunk) (e0 e1 e2 : ending) (m us : list update) :
  merge (generateArtifact sessionId (artifact_id sessionId 0) c0 e0)
        (generateArtifact sessionId (artifact_id sessionId 1) c1 e1) m ->
  merge m (generateArtifact sessionId (artifact_id sessionId 2) c2 e2) us ->
  exists sess',
    nth_error
      (run (AppendSession (newSession sessionId basePrompt answers baseTime)
            :: ApplyStyles sessionId generatedStyles :: us) prev)
      (length prev) = Some sess' /\
    Session.id sess' = sessionId /\
    Session.artifacts sess'
    = [outcome (Artifact.mk (artifact_id sessionId 0) (nth_error generatedStyles 0)
                  [] streaming) c0 e0;
       outcome (Artifact.mk (artifact_id sessionId 1) (nth_error generatedStyles 1)
                  [] streaming) c1 e1;
       outcome (Artifact.mk (artifact_id sessionId 2) (nth_error generatedStyles 2)
                  [] streaming) c2 e2].
Proof.
  intros Hm Hus.
  set (styled := Session.mk sessionId basePrompt answers baseTime
         [Artifact.mk (artifact_id sessionId 0) (nth_error generatedStyles 0) [] streaming;
          Artifact.mk (artifact_id sessionId 1) (nth_error generatedStyles 1) [] streaming;
          Artifact.mk (artifact_id sessionId 2) (nth_error generatedStyles 2) [] streaming]).
  assert (Hi : nth_error
                 (apply_update (ApplyStyles sessionId generatedStyles)
                    (apply_update
                       (AppendSession (newSession sessionId basePrompt answers baseTime))
                       prev))
                 (length prev) = Some styled).
  { simpl. rewrite nth_error_map, nth_error_app2, Nat.sub_diag by lia. simpl.
    rewrite str_eqb_refl. reflexivity. }
  destruct (@tasks_independent _ (length prev) styled _ _ _ c0 c1 c2 e0 e1 e2 m us
              Hi eq_refl) as (sess' & Hr & Hid & Ha); try assumption;
    try (simpl; intros H; apply artifact_id_inj in H; lia).
  exists sess'. simpl. split; [exact Hr|]. split; assumption.
Qed.

Lemma startGeneration_outcome_witness :
  exists sess',
    nth_error
      (run (AppendSession (newSession (txt "s2") (txt "a form") [] 7)
            :: ApplyStyles (txt "s2") FALLBACK_STYLES
            :: alternate
                 (alternate
                    (generateArtifact (txt "s2") (artifact_id (txt "s2") 0)
                       TASK_CHUNKS_0 Completed)
                    (generateArtifact (txt "s2") (artifact_id (txt "s2") 1)
                       TASK_CHUNKS_1 Thrown))
                 (generateArtifact (txt "s2") (artifact_id (txt "s2") 2)
                    TASK_CHUNKS_2 Completed))
           [SESSION_1])
      (length [SESSION_1]) = Some sess' /\
    Session.id sess' = txt "s2" /\
    Session.artifacts sess'
    = [Artifact.mk (txt "s2_0") (Some (txt "Modern Clean")) (txt "<p>a</p>") complete;
       Artifact.mk (txt "s2_1") (Some (txt "Futuristic Dark")) ERROR_PLACEHOLDER error;
       Artifact.mk (txt "s2_2") (Some (txt "Spatial Depth")) (txt "<b>c</b>") complete].
Proof.
  apply (@startGeneration_outcome [SESSION_1] (txt "s2") (txt "a form") [] 7
           FALLBACK_STYLES TASK_CHUNKS_0 TASK_CHUNKS_1 TASK_CHUNKS_2
           Completed Thrown Completed
           (alternate
              (generateArtifact (txt "s2") (artifact_id (txt "s2") 0)
                 TASK_CHUNKS_0 Completed)
              (generateArtifact (txt "s2") (artifact_id (txt "s2") 1)
                 TASK_CHUNKS_1 Thrown)));
    apply merge_alternate.
Defined.

(** X15.  While a task streams, the texts it writes into its artifact grow
    by appending: each text written extends the one written before it, each
    is a prefix of the whole text accumulated, which is the concatenation of
    the chunks received; and the task writes to its own artifact only. *)
Theorem streaming_appends (sessionId artifactId : str) (chunks : list chunk) :
  forall accumulatedHtml,
    let r := stream_updates sessionId artifactId accumulatedHtml chunks in
    growing accumulatedHtml (written (fst r)) /\
    Forall (fun h => exists t, snd r = h ++ t) (written (fst r)) /\
    Forall (fun u => exists h, u = UpdateHtml sessionId artifactId h) (fst r) /\
    snd r = accumulatedHtml ++ stream_text chunks.
Proof.
  induction chunks as [|c rest IH]; intros acc; simpl.
  - repeat split; try constructor. now rewrite app_nil_r.
  - destruct (text c) as [t|]; [|apply IH].
    specialize (IH (acc ++ t)). simpl in IH.
    destruct (stream_updates sessionId artifactId (acc ++ t) rest) as [us acc'].
    simpl in *. destruct IH as (Hg & Hf & Hu & ->). repeat split.
    + eauto.
    + assumption.
    + constructor; [|assumption]. exists (stream_text rest). reflexivity.
    + constructor; eauto.
    + now rewrite app_assoc.
Qed.

Lemma mapi_same {A} (f : nat -> A -> A) (l : list A) :
  forall k,
    (forall i x, nth_error l i = Some x -> f (k + i)%nat x = x) -> mapi f k l = l.
Proof.
  induction l as [|x l IH]; intros k H; simpl; [reflexivity|]. f_equal.
  - pose proof (H 0%nat x eq_refl) as H0. now rewrite Nat.add_0_r in H0.
  - apply IH. intros i y Hy. pose proof (H (S i) y Hy) as Hs.
    now replace (k + S i)%nat with (S k + i)%nat in Hs by lia.
Qed.

Lemma length_mapi {A B} (f : nat -> A -> B) (l : list A) :
  forall k, length (mapi f k l) = length l.
Proof. induction l; intros k; simpl; auto. Qed.

(** X16.  Applying a variation writes the given html and the status
    complete into the artifact at the focused position of the current
    session, keeps its id and label, and leaves every other artifact as it
    is; when there is no artifact at that position (an index out of range)
    the store is unchanged. *)
Theorem applyVariation_effect (prev : list Session.t) (currentSessionIndex : Z)
  (focused : nat) (html : str) :
  let next := apply_update (ApplyVariation currentSessionIndex (Some focused) html) prev in
  (forall i j art,
     artifact_at prev i j = Some art ->
     artifact_at next i j
     = Some (if (Z.of_nat i =? currentSessionIndex)%Z && (j =? focused)%nat
             then Artifact.mk (Artifact.id art) (Artifact.styleName art) html complete
             else art)) /\
  ((forall i, Z.of_nat i = currentSessionIndex -> artifact_at prev i focused = None) ->
   next = prev).
Proof.
  simpl. split.
  - intros i j art H. unfold artifact_at in *. rewrite nth_error_mapi. simpl.
    destruct (nth_error prev i) as [sess|]; [|discriminate]. simpl.
    destruct (Z.of_nat i =? currentSessionIndex)%Z; simpl; [|assumption].
    rewrite nth_error_mapi, H. simpl. destruct (j =? focused)%nat; reflexivity.
  - intros H. apply mapi_same. intros i sess Hi. simpl.
    destruct (Z.eqb_spec (Z.of_nat i) currentSessionIndex) as [E|]; [|reflexivity].
    specialize (H i E). unfold artifact_at in H. rewrite Hi in H.
    rewrite mapi_same; [now destruct sess|].
    intros j art Hj. simpl. destruct (Nat.eqb_spec j focused) as [->|]; [|reflexivity].
    congruence.
Qed.

Lemma applyVariation_effect_witness :
  artifact_at
    (apply_update (ApplyVariation 0 (Some 1%nat) (txt "<p>v</p>")) [SESSION_1]) 0 1
  = Some (Artifact.mk (txt "s1_1") (Some (txt "Designing...")) (txt "<p>v</p>") complete)
  /\ apply_update (ApplyVariation 0 (Some 3%nat) (txt "<p>v</p>")) [SESSION_1]
     = [SESSION_1].
Proof.
  split.
  - apply (proj1 (applyVariation_effect [SESSION_1] 0 1 (txt "<p>v</p>")) 0%nat 1%nat
             (Artifact.mk (txt "s1_1") (Some (txt "Designing...")) [] streaming)).
    reflexivity.
  - apply (proj2 (applyVariation_effect [SESSION_1] 0 3 (txt "<p>v</p>"))).
    intros [|i] Hi; [reflexivity|discriminate].
Defined.

Lemma map_id_mapi (f : nat -> Artifact.t -> Artifact.t) (arts : list Artifact.t) :
  (forall j a, Artifact.id (f j a) = Artifact.id a) ->
  forall k, map Artifact.id (mapi f k arts) = map Artifact.id arts.
Proof.
  intros H. induction arts as [|a arts IH]; intros k; simpl; [reflexivity|].
  now rewrite H, IH.
Qed.

Lemma map_id_on_artifact artifactId (f : Artifact.t -> Artifact.t)
  (arts : list Artifact.t) :
  (forall a, Artifact.id (f a) = Artifact.id a) ->
  map Artifact.id (map (on_artifact artifactId f) arts) = map Artifact.id arts.
Proof.
  intros H. rewrite map_map. apply map_ext. intros a. unfold on_artifact.
  destruct (str_eqb _ _); [apply H|reflexivity].
Qed.

Lemma apply_update_session (u : update) prev i sess :
  nth_error prev i = Some sess ->
  exists sess', nth_error (apply_update u prev) i = Some sess' /\ same_session sess sess'.
Proof.
  intros Hi. unfold same_session.
  assert (Hsame : exists sess', Some sess = Some sess' /\
            Session.id sess' = Session.id sess /\
            Session.prompt sess' = Session.prompt sess /\
            Session.userAnswers sess' = Session.userAnswers sess /\
            Session.timestamp sess' = Session.timestamp sess /\
            map Artifact.id (Session.artifacts sess')
            = map Artifact.id (Session.artifacts sess)) by (exists sess; auto 10).
  destruct u as [s|sid l|sid aid h|sid aid h|sid aid|currentSessionIndex fi h]; simpl.
  - rewrite nth_error_app1 by (apply nth_error_Some; congruence). now rewrite Hi.
  - rewrite nth_error_map, Hi. simpl. destruct (negb _); [assumption|].
    eexists. split; [reflexivity|]. simpl. repeat split.
    now apply map_id_mapi.
  - rewrite nth_error_map, Hi. simpl. unfold on_session.
    destruct (str_eqb _ _); [|assumption].
    eexists. split; [reflexivity|]. simpl. repeat split.
    now apply map_id_on_artifact.
  - rewrite nth_error_map, Hi. simpl. unfold on_session.
    destruct (str_eqb _ _); [|assumption].
    eexists. split; [reflexivity|]. simpl. repeat split.
    now apply map_id_on_artifact.
  - rewrite nth_error_map, Hi. simpl. unfold on_session.
    destruct (str_eqb _ _); [|assumption].
    eexists. split; [reflexivity|]. simpl. repeat split.
    now apply map_id_on_artifact.
  - destruct fi as [fi|]; [|now rewrite Hi].
    rewrite nth_error_mapi, Hi. simpl.
    destruct (Z.of_nat i =? currentSessionIndex)%Z; [|assumption].
    eexists. split; [reflexivity|]. simpl. repeat split.
    apply map_id_mapi. intros j a. now destruct (j =? fi)%nat.
Qed.

Lemma apply_update_length (u : update) prev :
  length (apply_update u prev) = (length prev + count_appends [u])%nat.
Proof.
  unfold count_appends.
  destruct u as [s|sid l|sid aid h|sid aid h|sid aid|csi fi h]; simpl;
    rewrite ?length_app, ?length_map; simpl; try lia.
  destruct fi; [rewrite length_mapi|]; lia.
Qed.

(** X17.  The list of the sessions is append-only: whatever the updates,
    the sessions already there stay at their positions and keep their id,
    prompt, answers, timestamp and the ids and number of their artifacts;
    the list grows by one session for each session appended and never
    shrinks. *)
Theorem sessions_append_only (us : list update) :
  forall prev,
    length (run us prev) = (length prev + count_appends us)%nat /\
    forall i sess,
      nth_error prev i = Some sess ->
      exists sess', nth_error (run us prev) i = Some sess' /\ same_session sess sess'.
Proof.
  induction us as [|u us IH]; intros prev; simpl.
  - split; [unfold count_appends; simpl; lia|].
    intros i sess H. exists sess. unfold same_session. auto 10.
  - destruct (IH (apply_update u prev)) as [Hlen Hkeep]. split.
    + rewrite Hlen, apply_update_length. unfold count_appends. simpl.
      destruct u; simpl; lia.
    + intros i sess Hi.
      destruct (@apply_update_session u prev i sess Hi) as (s1 & H1 & Hs1).
      destruct (Hkeep i s1 H1) as (s2 & H2 & Hs2).
      exists s2. split; [assumption|]. unfold same_session in *.
      destruct Hs1 as (? & ? & ? & ? & ?), Hs2 as (? & ? & ? & ? & ?).
      repeat split; congruence.
Qed.

Lemma sessions_append_only_witness :
  exists sess',
    nth_error
      (run [Fail (txt "s1") (txt "s1_0");
            AppendSession (newSession (txt "s2") (txt "a form") [] 7);
            ApplyVariation 0 (Some 2%nat) (txt "<p>v</p>");
            ApplyStyles (txt "s1") FALLBACK_STYLES] [SESSION_1]) 0 = Some sess' /\
    same_session SESSION_1 sess'.
Proof.
  apply (proj2 (sessions_append_only _ [SESSION_1]) 0%nat SESSION_1). reflexivity.
Defined.

(** ** The style tags *)

Lemma existsb_style (style : str) (prev : list str) :
  existsb (str_eqb style) prev = true <-> In style prev.
Proof.
  rewrite existsb_exists. split.
  - intros (x & Hx & E). apply str_eqb_eq in E. now subst.
  - intros H. exists style. split; [assumption|apply str_eqb_refl].
Qed.

(** X18.  Toggling a style tag flips whether it is selected and changes no
    other tag: afterwards the tag is selected exactly when it was not
    before, and every other tag is selected exactly when it was.  A
    selection without duplicates stays without duplicates. *)
Theorem toggleStyle_flips (style : str) (prev : list str) :
  (In style (toggleStyle style prev) <-> ~ In style prev) /\
  (forall x, x <> style -> (In x (toggleStyle style prev) <-> In x prev)) /\
  (NoDup prev -> NoDup (toggleStyle style prev)).
Proof.
  unfold toggleStyle. destruct (existsb (str_eqb style) prev) eqn:E.
  - apply existsb_style in E. split; [|split].
    + split; intros H; [|contradiction].
      apply filter_In in H. destruct H as [_ H].
      rewrite str_eqb_refl in H. discriminate H.
    + intros x Hne. split; intros H.
      * now apply filter_In in H.
      * apply filter_In. split; [assumption|].
        apply negb_true_iff, not_true_is_false. intros Ex.
        apply str_eqb_eq in Ex. contradiction.
    + apply NoDup_filter.
  - assert (Hn : ~ In style prev).
    { intros H. apply existsb_style in H. congruence. }
    split; [|split].
    + split; intros H; [assumption|]. apply in_or_app. right. now left.
    + intros x Hne. split; intros H.
      * apply in_app_or in H. destruct H as [H|[H|[]]]; [assumption|congruence].
      * apply in_or_app. now left.
    + intros H. apply NoDup_app; [assumption|repeat constructor; intros []|].
      intros a Ha [<-|[]]. contradiction.
Qed.

Lemma toggleStyle_flips_witness :
  NoDup (toggleStyle (txt "Cyberpunk")
           [txt "SaaS Minimal"; txt "Cyberpunk"; txt "Apple-Style"]).
Proof.
  apply (proj2 (proj2 (toggleStyle_flips (txt "Cyberpunk")
                         [txt "SaaS Minimal"; txt "Cyberpunk"; txt "Apple-Style"]))).
  repeat constructor; simpl; intros H;
    repeat (destruct H as [H|H]; [discriminate H|]); assumption.
Defined.

(** X19.  Toggling a style tag twice selects the same tags as before; when
    the tag was not selected, the list is the same list. *)
Theorem toggleStyle_twice (style : str) (prev : list str) :
  (forall x, In x (toggleStyle style (toggleStyle style prev)) <-> In x prev) /\
  (~ In style prev -> toggleStyle style (toggleStyle style prev) = prev).
Proof.
  split.
  - intros x. destruct (toggleStyle_flips style prev) as (H1 & H2 & _).
    destruct (toggleStyle_flips style (toggleStyle style prev)) as (G1 & G2 & _).
    destruct (list_eq_dec N.eq_dec x style) as [->|Hne].
    + rewrite G1, H1. split; [|tauto]. intros H.
      destruct (in_dec (list_eq_dec N.eq_dec) style prev); tauto.
    + now rewrite (G2 x Hne), (H2 x Hne).
  - intros Hn. unfold toggleStyle at 2.
    replace (existsb (str_eqb style) prev) with false.
    + unfold toggleStyle.
      replace (existsb (str_eqb style) (prev ++ [style])) with true.
      * rewrite filter_app. simpl. rewrite str_eqb_refl. simpl.
        rewrite app_nil_r. apply forallb_filter_id. apply forallb_forall.
        intros x Hx. apply negb_true_iff, not_true_is_false. intros E.
        apply str_eqb_eq in E. congruence.
      * symmetry. apply existsb_style. apply in_or_app. right. now left.
    + symmetry. apply not_true_is_false. intros E. now apply existsb_style in E.
Qed.

Lemma toggleStyle_twice_witness :
  toggleStyle (txt "Cyberpunk") (toggleStyle (txt "Cyberpunk") [txt "SaaS Minimal"])
  = [txt "SaaS Minimal"].
Proof.
  apply (proj2 (toggleStyle_twice (txt "Cyberpunk") [txt "SaaS Minimal"])).
  intros [H|[]]. discriminate H.
Defined.

(** ** The navigation *)

Lemma Nav_eq (a b : Nav.t) :
  Nav.currentSessionIndex a = Nav.currentSessionIndex b ->
  Nav.focusedArtifactIndex a = Nav.focusedArtifactIndex b -> a = b.
Proof. destruct a, b; simpl; intros -> ->; reflexivity. Qed.

(** X20.  The arrows tell the truth: in every state of the navigation the
    application is in, the forward arrow is enabled exactly when nextItem
    moves, and the back arrow exactly when prevItem moves. *)
Theorem arrows_match_moves (sessions : list Session.t) (isLoading : bool)
  (st : Nav.t) :
  nav_ok sessions st ->
  (canGoForward sessions isLoading st = true <-> nextItem sessions st <> st) /\
  (canGoBack sessions isLoading st = true <-> prevItem st <> st).
Proof.
  assert (Hmove : forall (c : bool) (a b : Nav.t),
            (c = true -> a <> b) ->
            (c = true <-> (if c then a else b) <> b)).
  { intros c a b Hab. destruct c; split; intros Hx; try reflexivity;
      try discriminate; [now apply Hab|now contradiction Hx]. }
  intros [Hcsi Hf]. destruct st as [csi [f|]]; simpl in *;
    unfold canGoForward, canGoBack, nextItem, prevItem, hasStarted; simpl.
  - destruct Hf as (Hr & sess & Hs & Hl). rewrite Hs, Hl.
    assert (Hne : sessions <> []).
    { intros ->. unfold sessionAt in Hs. destruct (csi <? 0)%Z; [discriminate|].
      now destruct (Z.to_nat csi). }
    destruct sessions as [|s0 sessions]; [congruence|]. simpl.
    change (Z.of_nat 3 - 1)%Z with 2%Z.
    split; apply Hmove; intros Hc Ex; injection Ex; lia.
  - destruct Hcsi as [[-> ->]|Hr].
    + simpl. destruct isLoading; simpl; split; split; intros Hx;
        try discriminate; now contradiction Hx.
    + destruct sessions as [|s0 sessions]; [simpl in Hr; lia|].
      cbn [length Nat.ltb Nat.leb orb].
      split; apply Hmove; intros Hc Ex; injection Ex; lia.
Qed.

Lemma arrows_match_moves_witness :
  canGoForward [SESSION_1] false (Nav.mk 0 (Some 2%Z)) = true
  <-> nextItem [SESSION_1] (Nav.mk 0 (Some 2%Z)) <> Nav.mk 0 (Some 2%Z).
Proof.
  assert (Hok : nav_ok [SESSION_1] (Nav.mk 0 (Some 2%Z))).
  { split.
    - right. simpl. lia.
    - simpl. split; [lia|]. exists SESSION_1. split; reflexivity. }
  exact (proj1 (@arrows_match_moves [SESSION_1] false (Nav.mk 0 (Some 2%Z)) Hok)).
Defined.

(** X21.  The navigation keeps the pointers in range: from a state the
    application is in, nextItem and prevItem lead to such a state (the
    session pointer stays on a session, the focus stays on one of the three
    artifacts), and a move by one is undone by the other. *)
Theorem navigation_in_range (sessions : list Session.t) (st : Nav.t) :
  nav_ok sessions st ->
  nav_ok sessions (nextItem sessions st) /\
  nav_ok sessions (prevItem st) /\
  (nextItem sessions st <> st -> prevItem (nextItem sessions st) = st) /\
  (prevItem st <> st -> nextItem sessions (prevItem st) = st).
Proof.
  intros [Hcsi Hf]. destruct st as [csi [f|]]; unfold nextItem, prevItem, nav_ok;
    simpl in *.
  - destruct Hf as (Hr & Hs).
    destruct (Z.ltb_spec f 2), (Z.ltb_spec 0 f); simpl;
      repeat match goal with
        | |- _ /\ _ => split
        | |- _ -> _ => intros ?
        | |- context [(?a <? ?b)%Z] => destruct (Z.ltb_spec a b)
        end; simpl in *; try assumption; try lia; try congruence;
      try (apply Nav_eq; simpl; [reflexivity|f_equal; lia]).
  - destruct Hcsi as [[-> ->]|Hr].
    + simpl. repeat split; auto; congruence.
    + destruct (Z.ltb_spec csi (Z.of_nat (length sessions) - 1)), (Z.ltb_spec 0 csi);
        simpl;
        repeat match goal with
          | |- _ /\ _ => split
          | |- _ -> _ => intros ?
          | |- context [(?a <? ?b)%Z] => destruct (Z.ltb_spec a b)
          end; simpl in *; try tauto; try lia; try congruence;
        try (right; lia);
        try (apply Nav_eq; simpl; [lia|reflexivity]).
Qed.

Lemma navigation_in_range_witness :
  prevItem (nextItem [SESSION_1; SESSION_1] (Nav.mk 0 None)) = Nav.mk 0 None.
Proof.
  assert (Hok : nav_ok [SESSION_1; SESSION_1] (Nav.mk 0 None)).
  { split; [right; simpl; lia|exact I]. }
  apply (proj1 (proj2 (proj2 (@navigation_in_range [SESSION_1; SESSION_1]
                                (Nav.mk 0 None) Hok)))).
  discriminate.
Defined.

(** ** The placeholders *)

(** X22.  With at least one placeholder and an index in range, the index
    stays in range at every tick of the timer: after k ticks it is the
    remainder of the index plus k, so the placeholders are shown in turn,
    and after as many ticks as there are placeholders the index is back
    where it was. *)
Theorem placeholder_rotation (placeholders_length p : N) (k : nat) :
  0 < placeholders_length -> p < placeholders_length ->
  Nat.iter k (nextPlaceholderIndex placeholders_length) (Some p)
  = Some ((p + N.of_nat k) mod placeholders_length) /\
  (p + N.of_nat k) mod placeholders_length < placeholders_length /\
  Nat.iter (N.to_nat placeholders_length) (nextPlaceholderIndex placeholders_length)
           (Some p) = Some p.
Proof.
  intros Hlen Hp.
  assert (Hiter : forall n,
            Nat.iter n (nextPlaceholderIndex placeholders_length) (Some p)
            = Some ((p + N.of_nat n) mod placeholders_length)).
  { induction n as [|n IH].
    - simpl. rewrite N.add_0_r, N.mod_small by assumption. reflexivity.
    - rewrite Nat.iter_succ, IH. unfold nextPlaceholderIndex.
      destruct (N.eqb_spec placeholders_length 0) as [E|_]; [lia|].
      rewrite N.Div0.add_mod_idemp_l. do 2 f_equal. lia. }
  split; [apply Hiter|]. split; [apply N.mod_upper_bound; lia|].
  rewrite Hiter, N2Nat.id.
  rewrite <- (N.mul_1_l placeholders_length) at 1.
  rewrite N.Div0.mod_add. rewrite N.mod_small by assumption. reflexivity.
Qed.

Lemma placeholder_rotation_witness :
  Nat.iter 4 (nextPlaceholderIndex 3) (Some 1) = Some ((1 + N.of_nat 4) mod 3).
Proof.
  apply (proj1 (@placeholder_rotation 3 1 4 eq_refl eq_refl)).
Defined.
